(** * go-pjs: the Java serialization stream decoder of package [pkg]

    A shallow embedding of the Go package [pkg] of hktalent/go-pjs: the
    byte cursor ([Smooth]), the tracing walker ([parseStream] and the
    [read...] methods), the value-producing front ([content], [magic],
    [version], [parseReference], [classData]) and the post-processors,
    followed by the properties of the specification that were checked
    against them.

    Conventions of the embedding.
    - A Go [byte]/[uint8] is a [Byte.byte]; [u8] gives its value in [Z].
      Wider machine integers are [Z] with the wrap-around written out.
    - A method on [*SerializedObjectParser] is a function in the monad [M]:
      it takes the parser state and answers [Done] with a result and the new
      state, [Panic] when Go panics ([log.Panicln] or a run-time error), or
      [OutOfFuel] when the recursion or loop bound of the model is used up.
    - A Go pair [(x, err)] is a pair whose second component is an
      [option error] ([None] is [nil]).
    - [print], [byteToHex] and [intToHex] only format trace lines for
      standard output and leave the parser untouched; they are left out.
      The indentation bookkeeping is kept, since [decreaseIndent] panics.
    - The field [maxDataBlockSize] is written once, by the constructor's
      options, and only read afterwards: it is a parameter of the functions
      that read it. *)

From Stdlib Require Import ZArith List String Lia Bool.
From Stdlib.Strings Require Import Byte Ascii.
From stdpp Require Import base gmap strings.
Import ListNotations.
Local Open Scope Z_scope.
Local Set Warnings "-register-all".

(** ** Machine integers *)

Definition u8 (b : byte) : Z := Z.of_N (Byte.to_N b).

(** [b << n] at type [uint8]: the result is truncated to eight bits. *)
Definition shl_u8 (b : byte) (n : Z) : Z := Z.land (Z.shiftl (u8 b) n) 0xff.

(** [byte(z)]: the low eight bits of an integer. *)
Definition byte_of_Z (z : Z) : byte :=
  match Byte.of_N (Z.to_N (z mod 256)) with
  | Some b => b
  | None => x00
  end.

(** Two's complement reading of a 32 and of a 64 bit pattern. *)
Definition to_int32 (z : Z) : Z :=
  let w := z mod 2 ^ 32 in if w <? 2 ^ 31 then w else w - 2 ^ 32.

Definition to_int64 (z : Z) : Z :=
  let w := z mod 2 ^ 64 in if w <? 2 ^ 63 then w else w - 2 ^ 64.

Definition to_int16 (z : Z) : Z :=
  let w := z mod 2 ^ 16 in if w <? 2 ^ 15 then w else w - 2 ^ 16.

Definition to_int8 (z : Z) : Z :=
  let w := z mod 2 ^ 8 in if w <? 2 ^ 7 then w else w - 2 ^ 8.

(** [binary.BigEndian] decoding of a byte slice. *)
Definition BigEndian (bs : list byte) : Z :=
  fold_left (fun acc b => acc * 256 + u8 b) bs 0.

(** [fmt.Sprintf("%c", b)] appended to a string: the character of code [b]. *)
Definition append_char (s : string) (b : byte) : string :=
  (s ++ String (ascii_of_byte b) EmptyString)%string.

(** ** Constants (ph.go) *)

Definition STREAM_MAGIC : Z := 0xaced.
(** ph.go types [STREAM_VERSION] as [uint16]; [parseStream] and [version]
    both compare it with a [byte], which is how it is kept here. *)
Definition STREAM_VERSION : byte := x05.
Definition TC_NULL : byte := x70.
Definition TC_REFERENCE : byte := x71.
Definition TC_CLASSDESC : byte := x72.
Definition TC_OBJECT : byte := x73.
Definition TC_STRING : byte := x74.
Definition TC_ARRAY : byte := x75.
Definition TC_CLASS : byte := x76.
Definition TC_BLOCKDATA : byte := x77.
Definition TC_ENDBLOCKDATA : byte := x78.
Definition TC_RESET : byte := x79.
Definition TC_BLOCKDATALONG : byte := x7a.
Definition TC_EXCEPTION : byte := x7b.
Definition TC_LONGSTRING : byte := x7c.
Definition TC_PROXYCLASSDESC : byte := x7d.
Definition TC_ENUM : byte := x7e.

Definition baseWireHandle : Z := 0x7E0000.
Definition SC_WRITE_METHOD : byte := x01.
Definition SC_BLOCK_DATA : byte := x08.
Definition SC_SERIALIZABLE : byte := x02.
Definition SC_EXTERNALIZABLE : byte := x04.
Definition SC_ENUM : byte := x10.
Definition SC_Fail : byte := x00.

(** Modelled from the spec: the constants [STREAM_MAGIC1], [STREAM_MAGIC2]
    and [RMI_Call] ... [RMI_DgcAck] are used by [parseStream] but declared
    in no file of the repository at hand.  The magic is [AC ED] and the RMI
    framing bytes are [0x50] ... [0x54] (Call, ReturnData, Ping, PingAck,
    DgcAck), as the trace messages of [parseStream] also spell out. *)
Definition STREAM_MAGIC1 : byte := xac.
Definition STREAM_MAGIC2 : byte := xed.
Definition RMI_Call : byte := x50.
Definition RMI_ReturnData : byte := x51.
Definition RMI_Ping : byte := x52.
Definition RMI_PingAck : byte := x53.
Definition RMI_DgcAck : byte := x54.

(** [(b & flag) == flag] on bytes. *)
Definition has_flag (b flag : byte) : bool :=
  Z.land (u8 b) (u8 flag) =? u8 flag.

(** ** Errors *)

Inductive error : Type :=
| io_EOF
| io_ErrUnexpectedEOF
| errors_New (msg : string)
| errors_Wrap (e : error) (msg : string).

(** [errors.Cause]: the innermost error of a chain of wraps. *)
Fixpoint Cause (e : error) : error :=
  match e with
  | errors_Wrap e' _ => Cause e'
  | _ => e
  end.

(** [err.Error() == io.EOF.Error()] for an unwrapped error. *)
Definition is_EOF_message (e : error) : bool :=
  match e with
  | io_EOF => true
  | errors_New msg => String.eqb msg "EOF"
  | _ => false
  end.

(** ** The data model *)

(** ClassFieldImp.go *)
Record ClassField : Type := mkClassField {
  _typeCode : byte;
  _name : string;
  _className1 : string
}.

Definition NewClassField (typeCode : byte) : ClassField :=
  mkClassField typeCode "" "".

Definition getTypeCode (this : ClassField) : byte := _typeCode this.
Definition setName (name : string) (this : ClassField) : ClassField :=
  mkClassField (_typeCode this) name (_className1 this).
Definition getName (this : ClassField) : string := _name this.
Definition setClassName1 (cn1 : string) (this : ClassField) : ClassField :=
  mkClassField (_typeCode this) (_name this) cn1.

(** ClassDetailsImp.go *)
Record ClassDetails : Type := mkClassDetails {
  _className : string;
  _refHandle : Z;
  _classDescFlags : byte;
  _fieldDescriptions : list ClassField
}.

Definition NewClassDetails (className : string) : ClassDetails :=
  mkClassDetails className (-1) x00 [].

Definition getClassName (this : ClassDetails) : string := _className this.
Definition setHandle (handle : Z) (this : ClassDetails) : ClassDetails :=
  mkClassDetails (_className this) handle (_classDescFlags this)
    (_fieldDescriptions this).
Definition getHandle (this : ClassDetails) : Z := _refHandle this.
Definition setClassDescFlags (classDescFlags : byte) (this : ClassDetails)
  : ClassDetails :=
  mkClassDetails (_className this) (_refHandle this) classDescFlags
    (_fieldDescriptions this).
Definition isSC_SERIALIZABLE (this : ClassDetails) : bool :=
  Z.land (u8 (_classDescFlags this)) 0x02 =? 0x02.
Definition isSC_EXTERNALIZABLE (this : ClassDetails) : bool :=
  Z.land (u8 (_classDescFlags this)) 0x04 =? 0x04.
Definition isSC_WRITE_METHOD (this : ClassDetails) : bool :=
  Z.land (u8 (_classDescFlags this)) 0x01 =? 0x01.
Definition isSC_BLOCK_DATA (this : ClassDetails) : bool :=
  Z.land (u8 (_classDescFlags this)) 0x08 =? 0x08.
Definition addField (cf : ClassField) (this : ClassDetails) : ClassDetails :=
  mkClassDetails (_className this) (_refHandle this) (_classDescFlags this)
    (_fieldDescriptions this ++ [cf]).
Definition getFields (this : ClassDetails) : list ClassField :=
  _fieldDescriptions this.

(** ** Outcomes of a call *)

Inductive Outcome (A : Type) : Type :=
| Done (a : A)
| Panic (msg : string)
| OutOfFuel.
Arguments Done {A} a.
Arguments Panic {A} msg.
Arguments OutOfFuel {A}.

Definition index_out_of_range : string := "runtime error: index out of range".
Definition nil_dereference : string :=
  "runtime error: invalid memory address or nil pointer dereference".

(** [l[len(l)-1]] handed to a method that updates it in place; Go panics
    with an index out of range when the slice is empty. *)
Definition update_last {A : Type} (f : A -> Outcome A) (l : list A)
  : Outcome (list A) :=
  match rev l with
  | [] => Panic index_out_of_range
  | x :: r =>
      match f x with
      | Done y => Done (rev r ++ [y])
      | Panic msg => Panic msg
      | OutOfFuel => OutOfFuel
      end
  end.

Definition setLastFieldName_cd (name : string) (this : ClassDetails)
  : Outcome ClassDetails :=
  match update_last (fun cf => Done (setName name cf)) (_fieldDescriptions this) with
  | Done fs => Done (mkClassDetails (_className this) (_refHandle this)
                       (_classDescFlags this) fs)
  | Panic msg => Panic msg
  | OutOfFuel => OutOfFuel
  end.

Definition setLastFieldClassName1_cd (cn1 : string) (this : ClassDetails)
  : Outcome ClassDetails :=
  match update_last (fun cf => Done (setClassName1 cn1 cf)) (_fieldDescriptions this) with
  | Done fs => Done (mkClassDetails (_className this) (_refHandle this)
                       (_classDescFlags this) fs)
  | Panic msg => Panic msg
  | OutOfFuel => OutOfFuel
  end.

(** The class data description: the class, then its super classes.  The
    [*ClassDetails] of a description are shared with the descriptions that
    [addSuperClassDesc] copies them into, but every write to one of them
    happens while it is the only class of a description under construction,
    so a description is modelled by the list of its class details. *)
Record ClassDataDesc : Type := mkClassDataDesc {
  _classDetails : list ClassDetails
}.

Definition NewClassDataDesc : ClassDataDesc := mkClassDataDesc [].
Definition NewClassDataDesc1 (cd : list ClassDetails) : ClassDataDesc :=
  mkClassDataDesc cd.
Definition GetClassDataDesc (this : ClassDataDesc) : list ClassDetails :=
  _classDetails this.

(** [cd = append(cd, this._classDetails...)]: the index is not read. *)
Definition buildClassDataDescFromIndex (this : ClassDataDesc) (index : Z)
  : ClassDataDesc :=
  let cd := [] ++ _classDetails this in
  NewClassDataDesc1 cd.

Definition addSuperClassDesc (scdd : option ClassDataDesc) (this : ClassDataDesc)
  : ClassDataDesc :=
  match scdd with
  | Some s => mkClassDataDesc (_classDetails this ++ GetClassDataDesc s)
  | None => this
  end.

Definition addClass (className : string) (this : ClassDataDesc) : ClassDataDesc :=
  mkClassDataDesc (_classDetails this ++ [NewClassDetails className]).

Definition on_last_class (f : ClassDetails -> Outcome ClassDetails)
  (this : ClassDataDesc) : Outcome ClassDataDesc :=
  match update_last f (_classDetails this) with
  | Done cds => Done (mkClassDataDesc cds)
  | Panic msg => Panic msg
  | OutOfFuel => OutOfFuel
  end.

Definition setLastClassHandle (handle : Z) : ClassDataDesc -> Outcome ClassDataDesc :=
  on_last_class (fun cd => Done (setHandle handle cd)).
Definition setLastClassDescFlags (classDescFlags : byte)
  : ClassDataDesc -> Outcome ClassDataDesc :=
  on_last_class (fun cd => Done (setClassDescFlags classDescFlags cd)).
Definition addFieldToLastClass (typeCode : byte)
  : ClassDataDesc -> Outcome ClassDataDesc :=
  on_last_class (fun cd => Done (addField (NewClassField typeCode) cd)).
Definition setLastFieldName (name : string)
  : ClassDataDesc -> Outcome ClassDataDesc :=
  on_last_class (setLastFieldName_cd name).
Definition setLastFieldClassName1 (cn1 : string)
  : ClassDataDesc -> Outcome ClassDataDesc :=
  on_last_class (setLastFieldClassName1_cd cn1).

(** [nil] past the end; Go panics on a negative index. *)
Definition getClassDetails (index : Z) (this : ClassDataDesc)
  : Outcome (option ClassDetails) :=
  if index >=? Z.of_nat (length (_classDetails this)) then Done None
  else if index <? 0 then Panic index_out_of_range
  else Done (nth_error (_classDetails this) (Z.to_nat index)).

Definition getClassCount (this : ClassDataDesc) : Z :=
  Z.of_nat (length (_classDetails this)).

(** ** Decoded values ([interface{}]) *)

Record field : Type := mkField {
  f_className : string;
  f_typeName : string;
  f_name : string
}.

Inductive Value : Type :=
| VNil
| VString (s : string)
| VBytes (b : list byte)
| VInt8 (z : Z)
| VInt16 (z : Z)
| VInt32 (z : Z)
| VInt64 (z : Z)
| VFloat32 (bits : Z)
| VFloat64 (bits : Z)
| VBool (b : bool)
| VChar (rune : Z)
| VList (l : list Value)
| VMap (m : gmap string Value)
| VBoolMap (m : gmap string bool)
| VTime (nanoseconds : Z)
| VEndBlock
| VClazz (c : clazz)
with clazz : Type :=
| mkClazz (super : option clazz) (annotations : list Value)
    (fields : list (option field)) (serialVersionUID : string)
    (name : string) (flags : byte) (isEnum : bool).

Definition c_fields (c : clazz) : list (option field) :=
  match c with mkClazz _ _ fs _ _ _ _ => fs end.
Definition c_serialVersionUID (c : clazz) : string :=
  match c with mkClazz _ _ _ uid _ _ _ => uid end.
Definition c_name (c : clazz) : string :=
  match c with mkClazz _ _ _ _ n _ _ => n end.
Definition c_flags (c : clazz) : byte :=
  match c with mkClazz _ _ _ _ _ fl _ => fl end.

(** ** The parser state (model.go) *)

Record SerObject : Type := mkSerObject {
  so_STREAM_MAGIC : Z;
  so_STREAM_VERSION : byte;
  Tc_Type : byte
}.

(** The look-ahead cursor.  Its back pointer [_p] is the parser it lives
    in, which the model passes along as the state. *)
Record Smooth : Type := mkSmooth {
  nPos : Z;
  data : list byte
}.

Record SerializedObjectParser : Type := mkParser {
  rd : list byte;
  handles : list Value;
  _handleValue : Z;
  _indent : string;
  _classDataDescriptions : list ClassDataDesc;
  _data : Smooth;
  so : SerObject
}.

Definition set_rd (r : list byte) (s : SerializedObjectParser) :=
  mkParser r (handles s) (_handleValue s) (_indent s)
    (_classDataDescriptions s) (_data s) (so s).
Definition set_handles (h : list Value) (s : SerializedObjectParser) :=
  mkParser (rd s) h (_handleValue s) (_indent s)
    (_classDataDescriptions s) (_data s) (so s).
Definition set_handleValue (v : Z) (s : SerializedObjectParser) :=
  mkParser (rd s) (handles s) v (_indent s)
    (_classDataDescriptions s) (_data s) (so s).
Definition set_indent (i : string) (s : SerializedObjectParser) :=
  mkParser (rd s) (handles s) (_handleValue s) i
    (_classDataDescriptions s) (_data s) (so s).
Definition set_classDataDescriptions (c : list ClassDataDesc)
  (s : SerializedObjectParser) :=
  mkParser (rd s) (handles s) (_handleValue s) (_indent s) c (_data s) (so s).
Definition set_data (d : Smooth) (s : SerializedObjectParser) :=
  mkParser (rd s) (handles s) (_handleValue s) (_indent s)
    (_classDataDescriptions s) d (so s).
Definition set_so (o : SerObject) (s : SerializedObjectParser) :=
  mkParser (rd s) (handles s) (_handleValue s) (_indent s)
    (_classDataDescriptions s) (_data s) o.

(** [NewSerializedObjectParser(bytes.NewReader(buf), option)]: the reader
    is the sequence of bytes not yet consumed. *)
Definition NewSerializedObjectParser (buf : list byte) : SerializedObjectParser :=
  mkParser buf [] 0x7e0000 "" [] (mkSmooth 0 []) (mkSerObject 0 x00 x00).

(** ** The monad of parser methods *)

Definition M (A : Type) : Type :=
  SerializedObjectParser -> Outcome (A * SerializedObjectParser).

Definition ret {A : Type} (a : A) : M A := fun s => Done (a, s).

Definition bind {A B : Type} (m : M A) (k : A -> M B) : M B :=
  fun s =>
    match m s with
    | Done (a, s') => k a s'
    | Panic msg => Panic msg
    | OutOfFuel => OutOfFuel
    end.

Notation "'let*' x ':=' m 'in' k" := (bind m (fun x => k))
  (at level 10, x pattern, m at level 100, k at level 200).

Definition panic {A : Type} (msg : string) : M A := fun _ => Panic msg.
Definition out_of_fuel {A : Type} : M A := fun _ => OutOfFuel.

Definition lift {A : Type} (o : Outcome A) : M A :=
  fun s =>
    match o with
    | Done a => Done (a, s)
    | Panic msg => Panic msg
    | OutOfFuel => OutOfFuel
    end.

Definition get_state : M SerializedObjectParser := fun s => Done (s, s).
Definition modify (f : SerializedObjectParser -> SerializedObjectParser) : M unit :=
  fun s => Done (tt, f s).

(** [for i := 0; i < n; i++ { a = body(a) }] for a bound [n] that is known
    before the loop starts. *)
Fixpoint iterate_n {A : Type} (n : nat) (body : A -> M A) (a : A) : M A :=
  match n with
  | O => ret a
  | S n' => let* a' := body a in iterate_n n' body a'
  end.

Definition repeat_n (n : nat) (body : M unit) : M unit :=
  iterate_n n (fun _ => body) tt.

(** [for _, x := range l { body(x) }] *)
Fixpoint for_each {A : Type} (l : list A) (body : A -> M unit) : M unit :=
  match l with
  | [] => ret tt
  | x :: l' => let* _ := body x in for_each l' body
  end.

(** ** The reader: [binary.Read] and [io.ReadFull] on [this.rd] *)

(** [io.ReadFull] of [n] bytes: [io.EOF] when nothing is left, otherwise
    [io.ErrUnexpectedEOF] after consuming the short rest. *)
Definition io_ReadFull (n : nat) : M (list byte * option error) :=
  fun s =>
    let r := rd s in
    match n with
    | O => Done (([], None), s)
    | _ =>
        match r with
        | [] => Done (([], Some io_EOF), s)
        | _ =>
            if (length r <? n)%nat
            then Done ((r, Some io_ErrUnexpectedEOF), set_rd [] s)
            else Done ((firstn n r, None), set_rd (skipn n r) s)
        end
    end.

(** [binary.Read(this.rd, binary.BigEndian, &x)] for an [n] byte integer:
    [x] keeps its zero value when the read fails. *)
Definition binary_Read (n : nat) (wrap : string) : M (Z * option error) :=
  let* r := io_ReadFull n in
  match r with
  | (_, Some e) => ret (0, Some (errors_Wrap e wrap))
  | (bs, None) => ret (BigEndian bs, None)
  end.

Definition readUInt8 : M (byte * option error) :=
  let* r := binary_Read 1 "error reading uint8" in
  ret (byte_of_Z (fst r), snd r).

Definition readInt8 : M (Z * option error) :=
  let* r := binary_Read 1 "error reading int8" in
  ret (to_int8 (fst r), snd r).

Definition readUInt16 : M (Z * option error) :=
  binary_Read 2 "error reading uint16".

Definition readInt16 : M (Z * option error) :=
  let* r := binary_Read 2 "error reading int16" in
  ret (to_int16 (fst r), snd r).

Definition readUInt32 : M (Z * option error) :=
  binary_Read 4 "error reading uint32".

Definition readInt32 : M (Z * option error) :=
  let* r := binary_Read 4 "error reading int32" in
  ret (to_int32 (fst r), snd r).

(** The bit pattern of the [float32]. *)
Definition readFloat32 : M (Z * option error) :=
  binary_Read 4 "error reading float32".

Definition readInt64 : M (Z * option error) :=
  let* r := binary_Read 8 "error reading int64" in
  ret (to_int64 (fst r), snd r).

(** The bit pattern of the [float64]. *)
Definition readFloat64 : M (Z * option error) :=
  binary_Read 8 "error reading float64".

(** ** The look-ahead cursor (Smooth) *)

Definition add (b1 : byte) : M unit :=
  modify (fun s => set_data (mkSmooth (nPos (_data s)) (b1 :: data (_data s))) s).

(** [b, _ := this._p.readUInt8()]: the error of the read is dropped. *)
Definition pop : M byte :=
  fun s =>
    match data (_data s) with
    | b1 :: rest =>
        Done (b1, set_data (mkSmooth (nPos (_data s) + 1) rest) s)
    | [] =>
        (let* r := readUInt8 in ret (fst r)) s
    end.

Definition peek : M byte :=
  fun s =>
    match data (_data s) with
    | b1 :: _ => Done (b1, s)
    | [] =>
        (let* r := readUInt8 in
         let b := fst r in
         let* _ := add b in
         ret b) s
    end.

(** ** The tracing walker: leaves *)

Definition newHandle1 : M Z :=
  fun s => Done (_handleValue s, set_handleValue (_handleValue s + 1) s).

Definition increaseIndent : M unit :=
  modify (fun s => set_indent (_indent s ++ "  ")%string s).

Definition decreaseIndent : M unit :=
  fun s =>
    if (String.length (_indent s) <? 2)%nat
    then Panic "Error: Illegal indentation decrease."
    else Done (tt, set_indent
                     (substring 0 (String.length (_indent s) - 2) (_indent s)) s).

(** [b1 = pop(); if b1 != tag { log.Panicln(msg) }] *)
Definition expect (tag : byte) (msg : string) : M unit :=
  let* b1 := pop in
  if negb (Byte.eqb b1 tag) then panic msg else ret tt.

(** [len = (int(b1<<8) & 0xff00) + int(b2&0xff)] in [readUtf]; the count of
    [readFields] is the same expression at type [uint]. *)
Definition readUtf_len (b1 b2 : byte) : Z :=
  Z.land (shl_u8 b1 8) 0xff00 + Z.land (u8 b2) 0xff.

(** The content loops: [n] times [b1 = pop(); content += Sprintf("%c", b1)]. *)
Definition read_chars (n : nat) : M string :=
  iterate_n n (fun content => let* b1 := pop in ret (append_char content b1)) "".

Definition readUtf : M string :=
  let* b1 := pop in
  let* b2 := pop in
  let len := readUtf_len b1 b2 in
  read_chars (Z.to_nat len).

(** The length expression of [readLongUtf], at type [uint64]. *)
Definition readLongUtf_len (b1 b2 b3 b4 b5 b6 b7 b8 : byte) : Z :=
  (Z.land (shl_u8 b1 56) 0xff00000000000000 +
   Z.land (shl_u8 b2 48) 0xff000000000000 +
   Z.land (shl_u8 b3 40) 0xff0000000000 +
   Z.land (shl_u8 b4 32) 0xff00000000 +
   Z.land (shl_u8 b5 24) 0xff000000 +
   Z.land (shl_u8 b6 16) 0xff0000 +
   Z.land (shl_u8 b7 8) 0xff00 +
   Z.land (u8 b8) 0xff) mod 2 ^ 64.

Definition readLongUtf : M string :=
  let* b1 := pop in
  let* b2 := pop in
  let* b3 := pop in
  let* b4 := pop in
  let* b5 := pop in
  let* b6 := pop in
  let* b7 := pop in
  let* b8 := pop in
  let len := readLongUtf_len b1 b2 b3 b4 b5 b6 b7 b8 in
  read_chars (Z.to_nat len).

(** The four byte lengths and counts of the walker ([readLongBlockData],
    [readNewArray], [readProxyClassDescInfo]), at type [uint32]/[int]:
    [(T(b1<<24) & 0xff000000) + (T(b2<<16) & 0xff0000) +
     (T(b3<<8) & 0xff00) + (T(b4) & 0xff)]. *)
Definition shifted_u32 (b1 b2 b3 b4 : byte) : Z :=
  (Z.land (shl_u8 b1 24) 0xff000000 +
   Z.land (shl_u8 b2 16) 0xff0000 +
   Z.land (shl_u8 b3 8) 0xff00 +
   Z.land (u8 b4) 0xff) mod 2 ^ 32.

Definition readLongBlockData_len (b1 b2 b3 b4 : byte) : Z :=
  shifted_u32 b1 b2 b3 b4.

Definition readTC_STRING : M string :=
  let* _ := expect TC_STRING "Error: Illegal value for TC_STRING (should be 0x74)" in
  let* _ := increaseIndent in
  let* _ := newHandle1 in
  let* val := readUtf in
  let* _ := decreaseIndent in
  ret val.

Definition readTC_LONGSTRING : M string :=
  let* _ := expect TC_LONGSTRING "Error: Illegal value for TC_LONGSTRING (should be 0x7c)" in
  let* _ := increaseIndent in
  let* _ := newHandle1 in
  let* val := readLongUtf in
  let* _ := decreaseIndent in
  ret val.

(** The handle is decoded with [binary.BigEndian.Uint32]. *)
Definition readPrevObject : M Z :=
  let* _ := expect TC_REFERENCE "Error: Illegal value for TC_REFERENCE (should be 0x71)" in
  let* _ := increaseIndent in
  let* b1 := pop in
  let* b2 := pop in
  let* b3 := pop in
  let* b4 := pop in
  let handle := BigEndian [b1; b2; b3; b4] in
  let* _ := decreaseIndent in
  ret handle.

Definition readNullReference : M unit :=
  expect TC_NULL "Error: Illegal value for TC_NULL (should be 0x70)".

(** [func (this *SerializedObjectParser) readException() {}] *)
Definition readException : M unit := ret tt.

(** [func (this *SerializedObjectParser) handleReset() {}] *)
Definition handleReset : M unit := ret tt.

Definition readBlockData : M unit :=
  let* _ := expect TC_BLOCKDATA "Error: Illegal value for TC_BLOCKDATA (should be 0x77)" in
  let* _ := increaseIndent in
  let* b := pop in
  let len := Z.land (u8 b) 0xFF in
  let* _ := repeat_n (Z.to_nat len) (let* _ := pop in ret tt) in
  decreaseIndent.

Definition readLongBlockData : M unit :=
  let* _ := expect TC_BLOCKDATALONG "Error: Illegal value for TC_BLOCKDATA (should be 0x77)" in
  let* _ := increaseIndent in
  let* b1 := pop in
  let* b2 := pop in
  let* b3 := pop in
  let* b4 := pop in
  let len := readLongBlockData_len b1 b2 b3 b4 in
  let* _ := repeat_n (Z.to_nat len) (let* _ := pop in ret tt) in
  decreaseIndent.

Definition readNewString : M string :=
  let* b := peek in
  if Byte.eqb b TC_STRING then readTC_STRING
  else if Byte.eqb b TC_LONGSTRING then readTC_LONGSTRING
  else if Byte.eqb b TC_REFERENCE then
    let* _ := readPrevObject in ret "[TC_REF]"%string
  else panic "Error illegal newString type.".

(** The type codes [B C D F I J S Z [ L]. *)
Definition is_type_code (b : byte) : bool :=
  match b with
  | x42 | x43 | x44 | x46 | x49 | x4a | x53 | x5a | x5b | x4c => true
  | _ => false
  end.

Definition readFieldDesc (cdd : ClassDataDesc) : M ClassDataDesc :=
  let* b1 := pop in
  let* cdd := lift (addFieldToLastClass b1 cdd) in
  let* _ := (if is_type_code b1 then ret tt
             else panic "Error: Illegal field type code") in
  let* _ := increaseIndent in
  let* name := readUtf in
  let* cdd := lift (setLastFieldName name cdd) in
  let* _ := decreaseIndent in
  if Byte.eqb b1 x5b || Byte.eqb b1 x4c then
    let* _ := increaseIndent in
    let* cn1 := readNewString in
    let* cdd := lift (setLastFieldClassName1 cn1 cdd) in
    let* _ := decreaseIndent in
    ret cdd
  else ret cdd.

Definition readFields (cdd : ClassDataDesc) : M ClassDataDesc :=
  let* b1 := pop in
  let* b2 := pop in
  let count := readUtf_len b1 b2 in
  if count >? 0 then
    let* _ := increaseIndent in
    let* cdd := iterate_n (Z.to_nat count)
                  (fun cdd =>
                     let* _ := increaseIndent in
                     let* cdd := readFieldDesc cdd in
                     let* _ := decreaseIndent in
                     ret cdd) cdd in
    let* _ := decreaseIndent in
    ret cdd
  else ret cdd.

Definition readByteField : M unit := let* _ := pop in ret tt.

Definition readCharField : M unit :=
  let* _ := pop in let* _ := pop in ret tt.

Definition readFloatField : M unit :=
  let* _ := pop in let* _ := pop in let* _ := pop in let* _ := pop in ret tt.

Definition readIntField : M unit :=
  let* _ := pop in let* _ := pop in let* _ := pop in let* _ := pop in ret tt.

Definition readLongField : M unit :=
  let* _ := pop in let* _ := pop in let* _ := pop in let* _ := pop in
  let* _ := pop in let* _ := pop in let* _ := pop in let* _ := pop in ret tt.

Definition readShortField : M unit :=
  let* _ := pop in let* _ := pop in ret tt.

Definition readBooleanField : M unit := let* _ := pop in ret tt.

Definition readDoubleField : M unit :=
  let* _ := pop in let* _ := pop in let* _ := pop in let* _ := pop in
  let* _ := pop in let* _ := pop in let* _ := pop in let* _ := pop in ret tt.

(** ** The tracing walker: the recursive descent

    The methods below call each other in cycles.  A [Walker] carries the
    three calls that close the cycles ([readContentElement], [readClassDesc]
    and [readFieldValue]) one level of recursion further down, and the bound
    of the loops that run until a tag shows up; [walker fuel] ties the knot. *)

Record Walker : Type := mkWalker {
  loop_fuel : nat;
  call_readContentElement : M (option error);
  call_readClassDesc : M (option ClassDataDesc);
  call_readFieldValue : byte -> M unit
}.

(** [x := peek(); for x != TC_ENDBLOCKDATA { body(); x = peek() }]: the
    error that [readContentElement] returns is not looked at. *)
Fixpoint until_ENDBLOCKDATA (fuel : nat) (body : M (option error)) : M unit :=
  match fuel with
  | O => out_of_fuel
  | S fuel' =>
      let* x := peek in
      if Byte.eqb x TC_ENDBLOCKDATA then ret tt
      else let* _ := body in until_ENDBLOCKDATA fuel' body
  end.

(** The inner loop of the [TC_REFERENCE] case of [readClassDesc]:
    [for classIndex < count { classIndex += 1; if cdd.getClassDetails(
    classIndex).getHandle() == refHandle { return cdd.build...(classIndex) } }],
    with [n] the number of iterations left.  [getHandle] on the [nil] that
    [getClassDetails] gives past the end dereferences a nil pointer. *)
Fixpoint scan_classes (n : nat) (classIndex : Z) (cdd : ClassDataDesc)
  (refHandle : Z) : Outcome (option ClassDataDesc) :=
  match n with
  | O => Done None
  | S n' =>
      let classIndex := classIndex + 1 in
      match getClassDetails classIndex cdd with
      | Done (Some cd) =>
          if getHandle cd =? refHandle
          then Done (Some (buildClassDataDescFromIndex cdd classIndex))
          else scan_classes n' classIndex cdd refHandle
      | Done None => Panic nil_dereference
      | Panic msg => Panic msg
      | OutOfFuel => OutOfFuel
      end
  end.

(** [for _, cdd := range this._classDataDescriptions { ... }] *)
Fixpoint scan_descriptions (cdds : list ClassDataDesc) (refHandle : Z)
  : Outcome (option ClassDataDesc) :=
  match cdds with
  | [] => Done None
  | cdd :: rest =>
      match scan_classes (Z.to_nat (getClassCount cdd)) 0 cdd refHandle with
      | Done None => scan_descriptions rest refHandle
      | r => r
      end
  end.

(** The first byte of a class name, [name[0:1]]; slicing the empty string
    panics.  A name is kept as the sequence of the code points that
    [Sprintf("%c", b)] appended; the first byte of the Go string is the
    bracket exactly when the first code point is. *)
Definition first_byte (name : string) : Outcome byte :=
  match name with
  | EmptyString => Panic "runtime error: slice bounds out of range"
  | String a _ => Done (byte_of_ascii a)
  end.

Section Descent.

Variable w : Walker.

Definition readClassAnnotation : M unit :=
  let* _ := increaseIndent in
  let* _ := until_ENDBLOCKDATA (loop_fuel w) (call_readContentElement w) in
  let* _ := pop in
  decreaseIndent.

Definition readSuperClassDesc : M (option ClassDataDesc) :=
  let* _ := increaseIndent in
  let* cdd := call_readClassDesc w in
  let* _ := decreaseIndent in
  ret cdd.

Definition readClassDescInfo (cdd : ClassDataDesc) : M ClassDataDesc :=
  let* b1 := pop in
  let* cdd := lift (setLastClassDescFlags b1 cdd) in
  let* _ :=
    (if has_flag b1 SC_SERIALIZABLE then
       let* _ := (if has_flag b1 SC_EXTERNALIZABLE
                  then panic "Error: Illegal classDescFlags, SC_SERIALIZABLE is not compatible with SC_EXTERNALIZABLE."
                  else ret tt) in
       if has_flag b1 SC_BLOCK_DATA
       then panic "Error: Illegal classDescFlags, SC_SERIALIZABLE is not compatible with SC_BLOCK_DATA."
       else ret tt
     else if has_flag b1 SC_EXTERNALIZABLE then
       if has_flag b1 SC_WRITE_METHOD
       then panic "Error: Illegal classDescFlags, SC_EXTERNALIZABLE is not compatible with SC_WRITE_METHOD."
       else ret tt
     else if negb (Byte.eqb b1 SC_Fail)
       then panic "Error: Illegal classDescFlags, must include either SC_SERIALIZABLE or SC_EXTERNALIZABLE."
       else ret tt) in
  let* cdd := readFields cdd in
  let* _ := readClassAnnotation in
  let* scdd := readSuperClassDesc in
  ret (addSuperClassDesc scdd cdd).

Definition readTC_CLASSDESC : M ClassDataDesc :=
  let cdd := NewClassDataDesc in
  let* _ := expect TC_CLASSDESC "Error: Illegal value for TC_CLASSDESC (should be 0x72)" in
  let* _ := increaseIndent in
  let* _ := increaseIndent in
  let* className := readUtf in
  let cdd := addClass className cdd in
  let* _ := decreaseIndent in
  let* _ := repeat_n 8 (let* _ := pop in ret tt) in
  let* h := newHandle1 in
  let* cdd := lift (setLastClassHandle h cdd) in
  let* cdd := readClassDescInfo cdd in
  let* _ := decreaseIndent in
  ret cdd.

Definition readProxyClassDescInfo (cdd : ClassDataDesc) : M ClassDataDesc :=
  let* b1 := pop in
  let* b2 := pop in
  let* b3 := pop in
  let* b4 := pop in
  let count := shifted_u32 b1 b2 b3 b4 in
  let* _ := increaseIndent in
  let* _ := repeat_n (Z.to_nat count)
              (let* _ := increaseIndent in
               let* _ := readUtf in
               decreaseIndent) in
  let* _ := decreaseIndent in
  let* _ := readClassAnnotation in
  let* scdd := readSuperClassDesc in
  ret (addSuperClassDesc scdd cdd).

Definition readTC_PROXYCLASSDESC : M ClassDataDesc :=
  let cdd := NewClassDataDesc in
  let* _ := expect TC_PROXYCLASSDESC "Error: Illegal value for TC_PROXYCLASSDESC (should be 0x7d)" in
  let* _ := increaseIndent in
  let cdd := addClass "<Dynamic Proxy Class>" cdd in
  let* h := newHandle1 in
  let* cdd := lift (setLastClassHandle h cdd) in
  let* cdd := readProxyClassDescInfo cdd in
  let* _ := decreaseIndent in
  ret cdd.

Definition record_description (cdd : ClassDataDesc) : M unit :=
  modify (fun s => set_classDataDescriptions (_classDataDescriptions s ++ [cdd]) s).

Definition readNewClassDesc : M ClassDataDesc :=
  let* b := peek in
  if Byte.eqb b TC_CLASSDESC then
    let* cdd := readTC_CLASSDESC in
    let* _ := record_description cdd in
    ret cdd
  else if Byte.eqb b TC_PROXYCLASSDESC then
    let* cdd := readTC_PROXYCLASSDESC in
    let* _ := record_description cdd in
    ret cdd
  else panic "Error illegal newClassDesc type.".

Definition readClassDesc : M (option ClassDataDesc) :=
  let* b1 := peek in
  if Byte.eqb b1 TC_CLASSDESC || Byte.eqb b1 TC_PROXYCLASSDESC then
    let* cdd := readNewClassDesc in ret (Some cdd)
  else if Byte.eqb b1 TC_NULL then
    let* _ := readNullReference in ret None
  else if Byte.eqb b1 TC_REFERENCE then
    let* refHandle := readPrevObject in
    let* s := get_state in
    let* found := lift (scan_descriptions (_classDataDescriptions s) refHandle) in
    match found with
    | Some cdd => ret (Some cdd)
    | None => panic "Error: Invalid classDesc reference"
    end
  else panic "Error illegal classDesc type.".

Definition readNewEnum : M unit :=
  let* _ := expect TC_ENUM "Error: Illegal value for TC_ENUM (should be 0x7e)" in
  let* _ := increaseIndent in
  let* _ := readClassDesc in
  let* _ := newHandle1 in
  let* _ := readNewString in
  decreaseIndent.

Definition readNewClass : M unit :=
  let* _ := expect TC_CLASS "Error: Illegal value for TC_CLASS (should be 0x76)" in
  let* _ := increaseIndent in
  let* _ := readClassDesc in
  let* _ := decreaseIndent in
  let* _ := newHandle1 in
  ret tt.

(** [cdd.getClassCount()] on the [nil] that [readClassDesc] gives for
    [TC_NULL] dereferences a nil pointer.  The elements are read with the
    type code [className[0:1]], the bracket itself. *)
Definition readNewArray : M unit :=
  let* _ := expect TC_ARRAY "Error: Illegal value for TC_ARRAY (should be 0x75)" in
  let* _ := increaseIndent in
  let* cdd := readClassDesc in
  match cdd with
  | None => panic nil_dereference
  | Some cdd =>
      if negb (getClassCount cdd =? 1)
      then panic "Error: Array class description made up of more than one class."
      else
        let* cd := lift (getClassDetails 0 cdd) in
        match cd with
        | None => panic nil_dereference
        | Some cd =>
            let* c := lift (first_byte (getClassName cd)) in
            if negb (Byte.eqb c x5b)
            then panic "Error: Array class name does not begin with '['."
            else
              let* _ := newHandle1 in
              let* b1 := pop in
              let* b2 := pop in
              let* b3 := pop in
              let* b4 := pop in
              let size := shifted_u32 b1 b2 b3 b4 in
              let* _ := increaseIndent in
              let* _ := repeat_n (Z.to_nat size)
                          (let* _ := increaseIndent in
                           let* x1 := lift (first_byte (getClassName cd)) in
                           let* _ := call_readFieldValue w x1 in
                           decreaseIndent) in
              let* _ := decreaseIndent in
              decreaseIndent
        end
  end.

Definition readClassDataField (cf : ClassField) : M unit :=
  let* _ := increaseIndent in
  let* _ := call_readFieldValue w (getTypeCode cf) in
  decreaseIndent.

(** The classes are visited from the last one (the top-most super class)
    down to the first. *)
Definition readClassData (cdd : option ClassDataDesc) : M unit :=
  let* _ := increaseIndent in
  let* _ :=
    match cdd with
    | Some cdd =>
        for_each (rev (_classDetails cdd))
          (fun cd =>
             let* _ := increaseIndent in
             let* _ :=
               (if isSC_SERIALIZABLE cd then
                  let* _ := increaseIndent in
                  let* _ := for_each (getFields cd) readClassDataField in
                  decreaseIndent
                else ret tt) in
             let hasBlockData := isSC_SERIALIZABLE cd && isSC_WRITE_METHOD cd in
             let* hasBlockData :=
               (if isSC_EXTERNALIZABLE cd then
                  if isSC_BLOCK_DATA cd then ret true
                  else
                    let* _ := increaseIndent in
                    panic "Error: Unable to parse externalContents element."
                else ret hasBlockData) in
             let* _ :=
               (if hasBlockData : bool then
                  let* _ := increaseIndent in
                  let* _ := until_ENDBLOCKDATA (loop_fuel w)
                              (call_readContentElement w) in
                  let* _ := pop in
                  decreaseIndent
                else ret tt) in
             decreaseIndent)
    | None => ret tt
    end in
  decreaseIndent.

Definition readNewObject : M unit :=
  let* _ := expect TC_OBJECT "Error: Illegal value for TC_OBJECT (should be 0x73)" in
  let* _ := increaseIndent in
  let* cdd := readClassDesc in
  let* _ := newHandle1 in
  let* _ := readClassData cdd in
  decreaseIndent.

Definition readArrayField : M unit :=
  let* _ := increaseIndent in
  let* b := peek in
  let* _ :=
    (if Byte.eqb b TC_NULL then readNullReference
     else if Byte.eqb b TC_ARRAY then readNewArray
     else if Byte.eqb b TC_REFERENCE then let* _ := readPrevObject in ret tt
     else panic "Error: Unexpected array field value type") in
  decreaseIndent.

Definition readObjectField : M unit :=
  let* _ := increaseIndent in
  let* b := peek in
  let* _ :=
    (if Byte.eqb b TC_OBJECT then readNewObject
     else if Byte.eqb b TC_REFERENCE then let* _ := readPrevObject in ret tt
     else if Byte.eqb b TC_NULL then readNullReference
     else if Byte.eqb b TC_STRING then let* _ := readTC_STRING in ret tt
     else if Byte.eqb b TC_CLASS then readNewClass
     else if Byte.eqb b TC_ARRAY then readNewArray
     else if Byte.eqb b TC_ENUM then readNewEnum
     else panic "Error: Unexpected identifier for object field value") in
  decreaseIndent.

Definition readFieldValue (typeCode : byte) : M unit :=
  match typeCode with
  | x42 => readByteField
  | x43 => readCharField
  | x44 => readDoubleField
  | x46 => readFloatField
  | x49 => readIntField
  | x4a => readLongField
  | x53 => readShortField
  | x5a => readBooleanField
  | x5b => readArrayField
  | x4c => readObjectField
  | _ => panic "Error: Illegal field type code"
  end.

(** In Go a [case] does not fall through: the clauses [case TC_STRING:] and
    [case TC_CLASSDESC:] have no statements, so these two tags are left in
    the look-ahead and [nil] is returned. *)
Definition readContentElement : M (option error) :=
  let* b := peek in
  if Byte.eqb b TC_OBJECT then let* _ := readNewObject in ret None
  else if Byte.eqb b TC_CLASS then let* _ := readNewClass in ret None
  else if Byte.eqb b TC_ARRAY then let* _ := readNewArray in ret None
  else if Byte.eqb b TC_STRING then ret None
  else if Byte.eqb b TC_LONGSTRING then let* _ := readNewString in ret None
  else if Byte.eqb b TC_ENUM then let* _ := readNewEnum in ret None
  else if Byte.eqb b TC_CLASSDESC then ret None
  else if Byte.eqb b TC_PROXYCLASSDESC then let* _ := readNewClassDesc in ret None
  else if Byte.eqb b TC_REFERENCE then let* _ := readPrevObject in ret None
  else if Byte.eqb b TC_NULL then let* _ := readNullReference in ret None
  else if Byte.eqb b TC_EXCEPTION then let* _ := readException in ret None
  else if Byte.eqb b TC_RESET then let* _ := handleReset in ret None
  else if Byte.eqb b TC_BLOCKDATA then let* _ := readBlockData in ret None
  else if Byte.eqb b TC_BLOCKDATALONG then let* _ := readLongBlockData in ret None
  else ret (Some (errors_New "Error: Illegal content element type.")).

End Descent.

Fixpoint walker (fuel : nat) : Walker :=
  match fuel with
  | O => mkWalker O out_of_fuel out_of_fuel (fun _ => out_of_fuel)
  | S fuel' =>
      let w := walker fuel' in
      mkWalker fuel (readContentElement w) (readClassDesc w) (readFieldValue w)
  end.

(** ** The entry point of the walker *)

Definition size (maxDataBlockSize : Z) : M Z :=
  fun s => Done (maxDataBlockSize - nPos (_data s), s).

(** [for this._data.size() > 0 { if nil != this.readContentElement() { break } }] *)
Fixpoint parseStream_contents (maxDataBlockSize : Z) (w : Walker) (fuel : nat)
  : M unit :=
  match fuel with
  | O => out_of_fuel
  | S fuel' =>
      let* sz := size maxDataBlockSize in
      if sz >? 0 then
        let* err := readContentElement w in
        match err with
        | Some _ => ret tt
        | None => parseStream_contents maxDataBlockSize w fuel'
        end
      else ret tt
  end.

(** The first block of [parseStream]: "The stream may begin with an RMI
    packet type byte".  The [switch] on the byte that was taken only
    chooses the trace line; its [default] clause prints "Unknown RMI packet
    type". *)
Definition parseStream_rmi_byte : M unit :=
  let* b1 := peek in
  if negb (Byte.eqb b1 STREAM_MAGIC1)
  then let* _ := pop in ret tt
  else ret tt.

(** A wrong version is only reported on the trace. *)
Definition parseStream (maxDataBlockSize : Z) (fuel : nat) : M unit :=
  let* _ := parseStream_rmi_byte in
  let* b1 := pop in
  let* b2 := pop in
  if negb (Byte.eqb b1 STREAM_MAGIC1) || negb (Byte.eqb b2 STREAM_MAGIC2)
  then ret tt
  else
    let* b1 := pop in
    let* b2 := pop in
    let* _ := increaseIndent in
    let* _ := parseStream_contents maxDataBlockSize (walker fuel) fuel in
    decreaseIndent.

(** [func ParseSerializedObject(buf []byte) (content []interface{}, err error)]:
    [SetMaxDataBlockSize(len(buf))], [parseStream], [return nil, nil]. *)
Definition ParseSerializedObject (fuel : nat) (buf : list byte)
  : Outcome (list Value * option error) :=
  let maxDataBlockSize := Z.of_nat (length buf) in
  let this := NewSerializedObjectParser buf in
  match parseStream maxDataBlockSize fuel this with
  | Done _ => Done ([], None)
  | Panic msg => Panic msg
  | OutOfFuel => OutOfFuel
  end.

(** ** The value-producing front *)

(** [newHandle] appends a parsed object to the handle table. *)
Definition newHandle (obj : Value) : M Value :=
  fun s => Done (obj, set_handles (handles s ++ [obj]) s).

(** [content]: every case runs a method of the walker, and the function
    ends in [return nil, nil].  The clause [case TC_ENDBLOCKDATA:] has no
    statements, and the argument [allowedNames] is not read. *)
Definition content (fuel : nat) : M (Value * option error) :=
  let w := walker fuel in
  let* tc := peek in
  let* _ := modify (fun s => set_so (mkSerObject (so_STREAM_MAGIC (so s))
                                       (so_STREAM_VERSION (so s)) tc) s) in
  let* _ :=
    (if Byte.eqb tc TC_NULL then readNullReference
     else if Byte.eqb tc TC_REFERENCE then let* _ := readPrevObject in ret tt
     else if Byte.eqb tc TC_CLASSDESC || Byte.eqb tc TC_PROXYCLASSDESC
       then let* _ := readNewClassDesc w in ret tt
     else if Byte.eqb tc TC_OBJECT then readNewObject w
     else if Byte.eqb tc TC_STRING || Byte.eqb tc TC_LONGSTRING
       then let* _ := readNewString in ret tt
     else if Byte.eqb tc TC_ARRAY then readNewArray w
     else if Byte.eqb tc TC_CLASS then readNewClass w
     else if Byte.eqb tc TC_BLOCKDATA then readBlockData
     else if Byte.eqb tc TC_ENDBLOCKDATA then ret tt
     else if Byte.eqb tc TC_RESET then handleReset
     else if Byte.eqb tc TC_BLOCKDATALONG then readLongBlockData
     else if Byte.eqb tc TC_EXCEPTION then readException
     else if Byte.eqb tc TC_ENUM then readNewEnum w
     else ret tt) in
  ret (VNil, None).

(** [end]: no byte is left in the reader (the look-ahead is not asked). *)
Definition end_ : M bool :=
  fun s => Done (match rd s with [] => true | _ => false end, s).

(** [magic] checks for the presence of the STREAM_MAGIC value. *)
Definition magic : M (option error) :=
  let* r := readUInt16 in
  let '(magicVal, err) := r in
  if match err with None => true | Some _ => false end
     && negb (magicVal =? STREAM_MAGIC)
  then ret (Some (errors_New "magic value STREAM_MAGIC not found"))
  else
    let* _ := modify (fun s => set_so (mkSerObject STREAM_MAGIC
                                         (so_STREAM_VERSION (so s))
                                         (Tc_Type (so s))) s) in
    ret err.

(** [version]: the test is [byte(ver) != STREAM_VERSION]. *)
Definition version : M (option error) :=
  let* r := readUInt16 in
  let '(ver, err) := r in
  match err with
  | Some e => ret (Some e)
  | None =>
      if negb (Byte.eqb (byte_of_Z ver) STREAM_VERSION)
      then ret (Some (errors_New "protocol version not recognized: wanted 5"))
      else
        let* _ := modify (fun s => set_so (mkSerObject (so_STREAM_MAGIC (so s))
                                             STREAM_VERSION (Tc_Type (so s))) s) in
        ret None
  end.

(** The loop of the method [ParseSerializedObject]:
    [for !this.end() { nxt, err = this.content(nil); ... }]. *)
Fixpoint ParseSerializedObject_loop (fuel : nat) (walk : nat)
  (contents : list Value) : M (list Value * option error) :=
  match fuel with
  | O => out_of_fuel
  | S fuel' =>
      let* e := end_ in
      if e : bool then ret (contents, None)
      else
        let* r := content walk in
        match r with
        | (_, Some err) =>
            if is_EOF_message (Cause err)
            then ret (contents, Some (errors_New "premature end of input"))
            else ret (contents, Some err)
        | (nxt, None) =>
            ParseSerializedObject_loop fuel' walk (contents ++ [nxt])
        end
  end.

(** [func (this *SerializedObjectParser) ParseSerializedObject()] *)
Definition ParseSerializedObject_method (fuel : nat)
  : M (list Value * option error) :=
  let* err := magic in
  match err with
  | Some e => ret ([], Some e)
  | None =>
      let* err := version in
      match err with
      | Some e => ret ([], Some e)
      | None => ParseSerializedObject_loop fuel fuel []
      end
  end.

Definition refIDMask : Z := 0x7e0000.

(** [parseReference]: [i := int(refIdx - refIDMask)] is computed at type
    [int32]; outside the table [ref] keeps its zero value and [err] is nil. *)
Definition parseReference : M (Value * option error) :=
  let* r := readInt32 in
  match r with
  | (_, Some e) => ret (VNil, Some (errors_Wrap e "error reading reference index"))
  | (refIdx, None) =>
      let i := to_int32 (refIdx - refIDMask) in
      let* s := get_state in
      if (i >? -1) && (i <? Z.of_nat (length (handles s)))
      then ret (nth (Z.to_nat i) (handles s) VNil, None)
      else ret (VNil, None)
  end.

(** ** Post-processors *)

Definition PostProc : Type :=
  gmap string Value -> list Value -> option (gmap string Value) * option error.

(** [l[lo:hi]] for [0 <= lo <= hi <= len(l)]. *)
Definition slice {A : Type} (l : list A) (lo hi : Z) : list A :=
  firstn (Z.to_nat (hi - lo)) (skipn (Z.to_nat lo) l).

(** [postProcSize] reads the object size as an int32 from the first data
    element.  The read cannot fail: four bytes are there. *)
Definition postProcSize (data : list Value) (offset : Z) : Z * option error :=
  match data with
  | [] => (0, Some (errors_New "invalid data: at least one element required"))
  | VBytes b :: _ =>
      let minLength := 4 in
      if Z.of_nat (length b) <? offset + minLength then
        (0, Some (errors_New "incorrect data at position 0"))
      else
        let size32 := to_int32 (BigEndian (firstn 4 (skipn (Z.to_nat offset) b))) in
        (size32, None)
  | _ :: _ => (0, Some (errors_New "unexpected data at position 0"))
  end.

(** [listPostProc] populates the object value with a [[]interface{}]. *)
Definition listPostProc : PostProc :=
  fun fields data =>
    match postProcSize data 0 with
    | (_, Some err) => (None, Some err)
    | (size, None) =>
        if negb (Z.of_nat (length data) =? size + 1) then
          (None, Some (errors_New "incorrect number of elements"))
        else if size >? 1 then
          (Some (<["value" := VList (slice data 1 size)]> fields), None)
        else
          (Some (<["value" := VList []]> fields), None)
    end.

(** [for i := 0; i < size; i++ { key := data[2*i+1]; value := data[2*i+2]; ... }] *)
Definition pairs_fold {B : Type} (data : list Value) (size : Z)
  (step : Value -> Value -> B -> B) (init : B) : B :=
  fold_left
    (fun m i => step (nth (2 * i + 1) data VNil) (nth (2 * i + 2) data VNil) m)
    (seq 0 (Z.to_nat size)) init.

(** [mapPostProc] populates the object value with a map of key/value pairs. *)
Definition mapPostProc : PostProc :=
  fun fields data =>
    match postProcSize data 4 with
    | (_, Some err) => (None, Some err)
    | (size, None) =>
        if size * 2 + 1 >? Z.of_nat (length data) then
          (None, Some (errors_New "incorrect number of elements"))
        else
          let m := pairs_fold data size
                     (fun key value (m : gmap string Value) =>
                        match key with
                        | VString s => <[s := value]> m
                        | _ => m
                        end) ∅ in
          (Some (<["value" := VMap m]> fields), None)
    end.

(** [enumMapPostProc]: the keys are enum constants. *)
Definition enumMapPostProc : PostProc :=
  fun fields data =>
    match postProcSize data 0 with
    | (_, Some err) => (None, Some err)
    | (size, None) =>
        if size * 2 + 1 >? Z.of_nat (length data) then
          (None, Some (errors_New "incorrect number of elements"))
        else
          let m := pairs_fold data size
                     (fun key value (m : gmap string Value) =>
                        match key with
                        | VMap mk =>
                            match mk !! "value"%string with
                            | Some (VString s) => <[s := value]> m
                            | _ => m
                            end
                        | _ => m
                        end) ∅ in
          (Some (<["value" := VMap m]> fields), None)
    end.

(** [hashSetPostProc] *)
Definition hashSetPostProc : PostProc :=
  fun fields data =>
    match postProcSize data 8 with
    | (_, Some err) => (None, Some err)
    | (size, None) =>
        if negb (Z.of_nat (length data) =? size + 1) then
          (None, Some (errors_New "incorrect number of elements"))
        else
          let m :=
            if size >? 1 then
              fold_left (fun (m : gmap string bool) key =>
                           match key with
                           | VString s => <[s := true]> m
                           | _ => m
                           end) (slice data 1 size) ∅
            else ∅ in
          (Some (<["value" := VBoolMap m]> fields), None)
    end.

(** [datePostProc]: [time.Unix(0, timestamp*int64(time.Millisecond))]. *)
Definition datePostProc : PostProc :=
  fun fields data =>
    match data with
    | [] => (None, Some (errors_New "invalid data: at least one element required"))
    | VBytes b :: _ =>
        let timestampBlockSize := 8 in
        if Z.of_nat (length b) <? timestampBlockSize then
          (None, Some (errors_New "incorrect data at position 0: wanted 8 bytes"))
        else
          let timestamp := to_int64 (BigEndian (firstn 8 b)) in
          (Some (<["value" := VTime (to_int64 (timestamp * 1000000))]> fields), None)
    | _ :: _ => (None, Some (errors_New "unexpected data at position 0"))
    end.

(** [KnownPostProcs] maps serialized object signatures to post-processors. *)
Definition KnownPostProcs (key : string) : option PostProc :=
  if String.eqb key "java.util.ArrayList@7881d21d99c7619d" then Some listPostProc
  else if String.eqb key "java.util.ArrayDeque@207cda2e240da08b" then Some listPostProc
  else if String.eqb key "java.util.Hashtable@13bb0f25214ae4b8" then Some mapPostProc
  else if String.eqb key "java.util.HashMap@0507dac1c31660d1" then Some mapPostProc
  else if String.eqb key "java.util.EnumMap@065d7df7be907ca1" then Some enumMapPostProc
  else if String.eqb key "java.util.HashSet@ba44859596b8b734" then Some hashSetPostProc
  else if String.eqb key "java.util.Date@686a81014b597419" then Some datePostProc
  else None.

(** ** Class data of the value-producing front *)

(** [primitiveHandlers] (ph.go).  A handler whose result variable has a
    static type hands back its zero value beside the error. *)
Definition primitiveHandlers (fuel : nat) (typeName : string)
  : option (M (Value * option error)) :=
  let wrap (msg : string) (err : option error) : option error :=
    match err with Some e => Some (errors_Wrap e msg) | None => None end in
  if String.eqb typeName "B" then
    Some (let* r := readInt8 in
          ret (VInt8 (fst r), wrap "error reading byte primitive" (snd r)))
  else if String.eqb typeName "C" then
    Some (let* r := readUInt16 in
          match snd r with
          | Some e => ret (VNil, Some (errors_Wrap e "error reading char primitive"))
          | None => ret (VChar (fst r), None)
          end)
  else if String.eqb typeName "D" then
    Some (let* r := readFloat64 in
          ret (VFloat64 (fst r), wrap "error reading double primitive" (snd r)))
  else if String.eqb typeName "F" then
    Some (let* r := readFloat32 in
          ret (VFloat32 (fst r), wrap "error reading float primitive" (snd r)))
  else if String.eqb typeName "I" then
    Some (let* r := readInt32 in
          ret (VInt32 (fst r), wrap "error reading int primitive" (snd r)))
  else if String.eqb typeName "J" then
    Some (let* r := readInt64 in
          ret (VInt64 (fst r), wrap "error reading long primitive" (snd r)))
  else if String.eqb typeName "S" then
    Some (let* r := readInt16 in
          ret (VInt16 (fst r), wrap "error reading short primitive" (snd r)))
  else if String.eqb typeName "Z" then
    Some (let* r := readInt8 in
          match snd r with
          | Some e => ret (VNil, Some (errors_Wrap e "error reading boolean primitive"))
          | None => ret (VBool (negb (fst r =? 0)), None)
          end)
  else if String.eqb typeName "L" then
    Some (let* r := content fuel in
          ret (fst r, wrap "error reading object primitive" (snd r)))
  else if String.eqb typeName "[" then
    Some (let* r := content fuel in
          ret (fst r, wrap "error reading array primitive" (snd r)))
  else None.

(** [values] reads primitive field values; [vals[field.name], err = handler(this)]
    stores the value before the error is looked at. *)
Fixpoint values_loop (fuel : nat) (fs : list (option field))
  (vals : gmap string Value) : M (option (gmap string Value) * option error) :=
  match fs with
  | [] => ret (Some vals, None)
  | None :: rest => values_loop fuel rest vals
  | Some f :: rest =>
      match primitiveHandlers fuel (f_typeName f) with
      | None => ret (Some vals, Some (errors_New "unknown field type"))
      | Some handler =>
          let* r := handler in
          let vals := <[f_name f := fst r]> vals in
          match snd r with
          | Some e =>
              ret (Some vals,
                   Some (errors_Wrap e "error reading primitive field value"))
          | None => values_loop fuel rest vals
          end
      end
  end.

Definition values (fuel : nat) (cls : clazz)
  : M (option (gmap string Value) * option error) :=
  values_loop fuel (c_fields cls) ∅.

(** [annotations] reads all class annotations: the loop ends when [content]
    answers the end-block marker. *)
Fixpoint annotations (fuel : nat) (walk : nat) (anns : list Value)
  : M (list Value * option error) :=
  match fuel with
  | O => out_of_fuel
  | S fuel' =>
      let* r := content walk in
      match r with
      | (_, Some e) =>
          ret (anns, Some (errors_Wrap e "error reading class annotation"))
      | (VEndBlock, None) => ret (anns, None)
      | (ann, None) => annotations fuel' walk (anns ++ [ann])
      end
  end.

(** [annotationsAsMap] reads values (when [isBlock] is false), merges the
    annotations and calls the relevant post-processor. *)
Definition annotationsAsMap (fuel : nat) (cls : clazz) (isBlock : bool)
  : M (option (gmap string Value) * option error) :=
  let* r := (if isBlock then ret (Some (∅ : gmap string Value), None)
             else values fuel cls) in
  match r with
  | (data, Some e) =>
      ret (data, Some (errors_Wrap e "error reading class data field values"))
  | (None, None) => panic "assignment to entry in nil map"
  | (Some data, None) =>
      let* a := annotations fuel fuel [] in
      match a with
      | (_, Some e) =>
          ret (Some data, Some (errors_Wrap e "error reading annotations"))
      | (anns, None) =>
          let data := <["@" := VList anns]> data in
          if negb isBlock then
            match KnownPostProcs (c_name cls ++ "@" ++ c_serialVersionUID cls) with
            | Some postproc => ret (postproc data anns)
            | None => ret (Some data, None)
            end
          else ret (Some data, None)
      end
  end.

(** [classData] reads a serialized class into a generic data structure. *)
Definition classData (fuel : nat) (cls : option clazz)
  : M (option (gmap string Value) * option error) :=
  match cls with
  | None => ret (None, Some (errors_New "invalid class definition: nil"))
  | Some cls =>
      let ScSerializableWithoutWriteMethod := 0x02 in
      let ScSerializableWithWriteMethod := 0x03 in
      let ScExternalizeWithBlockData := 0x04 in
      let ScExternalizeWithoutBlockData := 0x0c in
      let sw := Z.land (u8 (c_flags cls)) 0x0f in
      if sw =? ScSerializableWithoutWriteMethod then values fuel cls
      else if sw =? ScSerializableWithWriteMethod then annotationsAsMap fuel cls false
      else if sw =? ScExternalizeWithBlockData then
        ret (None, Some (errors_New "unable to parse version 1 external content"))
      else if sw =? ScExternalizeWithoutBlockData then annotationsAsMap fuel cls true
      else
        ret (None, Some (errors_New "unable to deserialize class with flags"))
  end.

(** ** The parsers of the value-producing front

    The functions of the table [knownParsers] and what they call.  They
    read from [this.rd] directly and enter what they parse in the handle
    table [this.handles]. *)

Definition hex_digit (n : Z) : ascii :=
  ascii_of_nat (Z.to_nat (if n <? 10 then 48 + n else 87 + n)).

(** [hex.EncodeToString] *)
Definition hex_EncodeToString (bs : list byte) : string :=
  string_of_list_ascii
    (flat_map (fun b => [hex_digit (u8 b / 16); hex_digit (u8 b mod 16)]) bs).

(** [readString] reads a string of [cnt] bytes.  [io.CopyN] answers
    [io.EOF] when the reader runs dry before [cnt] bytes were copied, after
    taking what was there. *)
Definition readString (maxDataBlockSize : Z) (cnt : Z) (asHex : bool)
  : M (string * option error) :=
  if cnt >? maxDataBlockSize then
    ret (""%string, Some (errors_New "block data exceeds size of reader buffer."))
  else
    fun s =>
      let r := rd s in
      if (length r <? Z.to_nat cnt)%nat then
        Done ((""%string, Some (errors_Wrap io_EOF "error reading string")),
              set_rd [] s)
      else
        let bs := firstn (Z.to_nat cnt) r in
        Done ((if asHex then hex_EncodeToString bs else string_of_list_byte bs,
               None),
              set_rd (skipn (Z.to_nat cnt) r) s).

(** [utf] reads a variable length string. *)
Definition utf (maxDataBlockSize : Z) : M (string * option error) :=
  let* r := readUInt16 in
  match r with
  | (_, Some e) =>
      ret (""%string,
           Some (errors_Wrap e "error reading utf: unable to read segment length"))
  | (offset, None) =>
      let* r := readString maxDataBlockSize offset false in
      match r with
      | (s, Some e) =>
          ret (s, Some (errors_Wrap e "error reading utf: unable to read segment"))
      | (s, None) => ret (s, None)
      end
  end.

(** [utfLong] reads a string with an eight byte length whose upper four
    bytes have to be zero. *)
Definition utfLong (maxDataBlockSize : Z) : M (string * option error) :=
  let* r := readUInt32 in
  match r with
  | (_, Some e) =>
      ret (""%string,
           Some (errors_Wrap e "error reading utf: unable to read first segment length"))
  | (offset, None) =>
      if negb (offset =? 0) then
        ret (""%string, Some (errors_New "unable to read string larger than 2^32 bytes"))
      else
        let* r := readUInt32 in
        match r with
        | (_, Some e) =>
            ret (""%string,
                 Some (errors_Wrap e "error reading utf long: unable to read second segment length"))
        | (offset, None) =>
            let* r := readString maxDataBlockSize offset false in
            match r with
            | (s, Some e) =>
                ret (s, Some (errors_Wrap e "error reading utf long: unable to read segment"))
            | (s, None) => ret (s, None)
            end
        end
  end.

(** [parseString]: the string is entered in the handle table when it was
    read; on an error the result variable holds the empty string. *)
Definition parseString (maxDataBlockSize : Z) : M (Value * option error) :=
  let* r := utf maxDataBlockSize in
  match r with
  | (s, Some e) => ret (VString s, Some (errors_Wrap e "error parsing string"))
  | (s, None) => let* str := newHandle (VString s) in ret (str, None)
  end.

Definition parseLongString (maxDataBlockSize : Z) : M (Value * option error) :=
  let* r := utfLong maxDataBlockSize in
  match r with
  | (s, Some e) => ret (VString s, Some (errors_Wrap e "error parsing long string"))
  | (s, None) => let* _ := newHandle (VString s) in ret (VString s, None)
  end.

Definition parseNull : M (Value * option error) := ret (VNil, None).

Definition parseEndBlockData : M (Value * option error) := ret (VEndBlock, None).

(** [parseBlockData]: a one byte size, then the bytes; the error of
    [io.ReadFull] is handed on as it is. *)
Definition parseBlockData : M (Value * option error) :=
  let* r := readUInt8 in
  match r with
  | (_, Some e) => ret (VNil, Some (errors_Wrap e "error parsing block data size"))
  | (size, None) =>
      let* d := io_ReadFull (Z.to_nat (u8 size)) in
      match d with
      | (_, Some e) => ret (VNil, Some e)
      | (data, None) => ret (VBytes data, None)
      end
  end.

(** [parseBlockDataLong]: a four byte size, refused when it is larger than
    [maxDataBlockSize]. *)
Definition parseBlockDataLong (maxDataBlockSize : Z) : M (Value * option error) :=
  let* r := readUInt32 in
  match r with
  | (_, Some e) => ret (VNil, Some (errors_Wrap e "error parsing block data long size"))
  | (size, None) =>
      if size >? maxDataBlockSize then
        ret (VNil, Some (errors_New "block data exceeds size of reader buffer."))
      else
        let* d := io_ReadFull (Z.to_nat size) in
        match d with
        | (_, Some e) => ret (VNil, Some e)
        | (data, None) => ret (VBytes data, None)
        end
  end.

(** [this.handles[idx] = obj], which panics outside the slice. *)
Definition set_handle (idx : nat) (obj : Value) : M Value :=
  fun s =>
    if (idx <? length (handles s))%nat
    then Done (obj, set_handles (<[idx := obj]> (handles s)) s)
    else Panic index_out_of_range.

(** [newDeferredHandle] reserves a slot of the handle table and returns
    the function that fills it later. *)
Definition newDeferredHandle : M (Value -> M Value) :=
  fun s =>
    let idx := length (handles s) in
    Done (set_handle idx, set_handles (handles s ++ [VNil]) s).

(** [fieldDesc] reads a single field descriptor.  [string(typeDec)] is the
    one character string of the type byte (for a byte of [0x80] and above
    Go makes a two byte string, which like the one character of the model
    is none of the type names).  The class name of an object or array
    field is asked of [content]. *)
Definition fieldDesc (maxDataBlockSize : Z) (fuel : nat)
  : M (option field * option error) :=
  let* r := readUInt8 in
  match r with
  | (_, Some e) => ret (None, Some (errors_Wrap e "error reading field type"))
  | (typeDec, None) =>
      let* r := utf maxDataBlockSize in
      match r with
      | (_, Some e) => ret (None, Some (errors_Wrap e "error reading field name"))
      | (name, None) =>
          let typeName := String (ascii_of_byte typeDec) EmptyString in
          let f := mkField "" typeName name in
          if String.eqb typeName "[" || String.eqb typeName "L" then
            let* r := content fuel in
            match r with
            | (_, Some e) =>
                ret (Some f, Some (errors_Wrap e "error reading field class name"))
            | (VString className, None) =>
                ret (Some (mkField className typeName name), None)
            | (_, None) =>
                ret (Some f, Some (errors_New "unexpected field class name type"))
            end
          else ret (Some f, None)
      end
  end.

(** [classDesc] reads a class descriptor through [content]. *)
Definition classDesc (fuel : nat) : M (option clazz * option error) :=
  let* r := content fuel in
  match r with
  | (_, Some e) => ret (None, Some (errors_Wrap e "error reading class description"))
  | (VNil, None) => ret (None, None)
  | (VClazz cls, None) => ret (Some cls, None)
  | (_, None) =>
      ret (None, Some (errors_New "unexpected type returned while reading class description"))
  end.

(** The loop of [parseClassDesc] over the field descriptors.  The class
    under construction is already in the handle table at [idx] (the table
    holds the pointer), so each field that is appended shows there. *)
Fixpoint parseClassDesc_fields (maxDataBlockSize : Z) (fuel : nat) (n : nat)
  (idx : nat) (cls : clazz) : M (clazz * option error) :=
  match n with
  | O => ret (cls, None)
  | S n' =>
      let* r := fieldDesc maxDataBlockSize fuel in
      match r with
      | (_, Some e) => ret (cls, Some (errors_Wrap e "error reading class field"))
      | (f, None) =>
          let cls' :=
            match cls with
            | mkClazz sup anns fs uid nm fl en =>
                mkClazz sup anns (fs ++ [f]) uid nm fl en
            end in
          let* _ := set_handle idx (VClazz cls') in
          parseClassDesc_fields maxDataBlockSize fuel n' idx cls'
      end
  end.

(** [parseClassDesc] parses a class descriptor.  [errors.Wrapf] of a nil
    error is nil, so a class name shorter than two bytes ends the function
    with a nil value and a nil error. *)
Definition parseClassDesc (maxDataBlockSize : Z) (fuel : nat)
  : M (Value * option error) :=
  let* r := utf maxDataBlockSize in
  match r with
  | (_, Some e) => ret (VNil, Some (errors_Wrap e "error reading class name"))
  | (name, None) =>
      let minClassNameLength := 2%nat in
      if (String.length name <? minClassNameLength)%nat then ret (VNil, None)
      else
        let serialVersionUIDLength := 8 in
        let* r := readString maxDataBlockSize serialVersionUIDLength true in
        match r with
        | (_, Some e) =>
            ret (VNil, Some (errors_Wrap e "error reading class serialVersionUID"))
        | (uid, None) =>
            let* s := get_state in
            let idx := length (handles s) in
            let* _ := newHandle (VClazz (mkClazz None [] [] uid name x00 false)) in
            let* r := readUInt8 in
            match r with
            | (_, Some e) => ret (VNil, Some (errors_Wrap e "error reading class flags"))
            | (fl, None) =>
                let cls := mkClazz None [] [] uid name fl
                             (negb (Z.land (u8 fl) 0x10 =? 0)) in
                let* _ := set_handle idx (VClazz cls) in
                let* r := readUInt16 in
                match r with
                | (_, Some e) =>
                    ret (VNil, Some (errors_Wrap e "error reading class field count"))
                | (fieldCount, None) =>
                    let* r := parseClassDesc_fields maxDataBlockSize fuel
                                (Z.to_nat fieldCount) idx cls in
                    match r with
                    | (_, Some e) => ret (VNil, Some e)
                    | (cls, None) =>
                        let* a := annotations fuel fuel [] in
                        match a with
                        | (_, Some e) =>
                            ret (VNil, Some (errors_Wrap e "error reading class annotations"))
                        | (anns, None) =>
                            let cls :=
                              match cls with
                              | mkClazz sup _ fs uid nm fl en =>
                                  mkClazz sup anns fs uid nm fl en
                              end in
                            let* _ := set_handle idx (VClazz cls) in
                            let* r := classDesc fuel in
                            match r with
                            | (_, Some e) =>
                                ret (VNil, Some (errors_Wrap e "error reading class super"))
                            | (sup, None) =>
                                let cls :=
                                  match cls with
                                  | mkClazz _ anns fs uid nm fl en =>
                                      mkClazz sup anns fs uid nm fl en
                                  end in
                                let* _ := set_handle idx (VClazz cls) in
                                ret (VClazz cls, None)
                            end
                        end
                    end
                end
            end
        end
  end.

(** ** The JSON-friendly view *)

Definition is_clazz (v : Value) : bool :=
  match v with VClazz _ => true | _ => false end.

(** [jsonFriendlyObject] recursively filters and formats object fields.
    The map case is [jsonFriendlyMap] followed by the promotion of a single
    or post-processed "value"; the array case is [jsonFriendlyArray].  The
    entry "extends" is taken away after the entries were formatted, which
    gives the same map as skipping it before. *)
Fixpoint jsonFriendlyObject (obj : Value) : Value :=
  match obj with
  | VMap m =>
      let jsonMap : gmap string Value :=
        delete "extends"%string
          (omap (fun v => if is_clazz v then None else Some (jsonFriendlyObject v)) m) in
      match jsonMap !! "value"%string with
      | Some mVal =>
          if bool_decide (is_Some (jsonMap !! "@"%string))
             || bool_decide (base.size jsonMap = 1%nat)
          then mVal
          else VMap jsonMap
      | None => VMap jsonMap
      end
  | VList arr => VList (map jsonFriendlyObject arr)
  | _ => obj
  end.

(** [jsonFriendlyArray] formats every member of an array. *)
Definition jsonFriendlyArray (arrayObj : list Value) : list Value :=
  map jsonFriendlyObject arrayObj.

(** [jsonFriendlyMap] drops the key "extends" and the values that are class
    definitions, and formats the other values. *)
Definition jsonFriendlyMap (mapObj : gmap string Value) : gmap string Value :=
  delete "extends"%string
    (omap (fun v => if is_clazz v then None else Some (jsonFriendlyObject v)) mapObj).

(** [ParseSerializedObjectMinimal], the package-level function. *)
Definition ParseSerializedObjectMinimal (fuel : nat) (buf : list byte)
  : Outcome (list Value * option error) :=
  match ParseSerializedObject fuel buf with
  | Done (content, None) => Done (jsonFriendlyArray content, None)
  | r => r
  end.

(** ** Definitions for the statements

    The inputs of the scenarios, the predicates of the specification, and
    the measure used to compare two runs of [parseStream]. *)

(** The stream of the specification's scenario 5:
    [AC ED 00 05 74 00 01 "A" 79 74 00 01 "B" 71 00 7E 00 00]. *)
Definition reset_stream : list byte :=
  [xac; xed; x00; x05; x74; x00; x01; x41; x79;
   x74; x00; x01; x42; x71; x00; x7e; x00; x00].

(** Two objects of one class: [TC_OBJECT TC_CLASSDESC "A" uid flags=02
    fields=0 TC_ENDBLOCKDATA TC_NULL], then [TC_OBJECT TC_REFERENCE 7E0000]. *)
Definition two_objects_stream : list byte :=
  [xac; xed; x00; x05;
   x73; x72; x00; x01; x41;
   x00; x00; x00; x00; x00; x00; x00; x01;
   x02; x00; x00; x78; x70;
   x73; x71; x00; x7e; x00; x00].

(** Two class details as the walker records them, with their handles. *)
Definition class_A : ClassDetails := mkClassDetails "A" 0x7e0000 x02 [].
Definition class_B : ClassDetails := mkClassDetails "B" 0x7e0001 x02 [].

(** The index that [parseReference] computes from the four bytes of the
    wire handle. *)
Definition reference_index (b1 b2 b3 b4 : byte) : Z :=
  to_int32 (to_int32 (BigEndian [b1; b2; b3; b4]) - refIDMask).

(** The four illegal combinations of the specification. *)
Definition illegal_classDescFlags (b : byte) : bool :=
  (has_flag b SC_SERIALIZABLE && has_flag b SC_EXTERNALIZABLE)
  || (has_flag b SC_SERIALIZABLE && has_flag b SC_BLOCK_DATA)
  || (has_flag b SC_EXTERNALIZABLE && has_flag b SC_WRITE_METHOD)
  || (negb (has_flag b SC_SERIALIZABLE) && negb (has_flag b SC_EXTERNALIZABLE)
      && negb (Byte.eqb b x00)).

(** The bytes of the look-ahead that are not zero: a tag that one of the
    [read...] methods takes out of the look-ahead is never zero. *)
Definition nonzero_count (d : list byte) : Z :=
  Z.of_nat (length (List.filter (fun b => negb (Byte.eqb b x00)) d)).

(** A bound on every later value of [nPos]: the bytes taken out of the
    look-ahead so far, the bytes still in the reader, and the non-zero
    bytes waiting in the look-ahead. *)
Definition reach (s : SerializedObjectParser) : Z :=
  nPos (_data s) + Z.of_nat (length (rd s)) + nonzero_count (data (_data s)).

(** What is known of the look-ahead: at most one byte, no byte, or the
    end-of-block tag. *)
Inductive Look : Type := AtMostOne | Nothing | EndTag.

Definition look (l : Look) (s : SerializedObjectParser) : Prop :=
  match l with
  | AtMostOne => (length (data (_data s)) <= 1)%nat
  | Nothing => data (_data s) = []
  | EndTag => data (_data s) = [TC_ENDBLOCKDATA]
  end.

Definition look_le (p q : Look) : bool :=
  match p, q with
  | _, AtMostOne => true
  | Nothing, Nothing => true
  | EndTag, EndTag => true
  | _, _ => false
  end.

(** [mono p m q]: started with look-ahead [p], a call of [m] that returns
    does not raise [reach] and leaves the look-ahead [q]. *)
Definition mono {A : Type} (p : Look) (m : M A) (q : Look) : Prop :=
  forall s, look p s ->
    match m s with
    | Done (_, s') => reach s' <= reach s /\ look q s'
    | _ => True
    end.

(** The three calls of a walker behave: a content element may leave a tag
    in the look-ahead, a class descriptor and a field value leave none. *)
Definition walker_mono (w : Walker) : Prop :=
  mono AtMostOne (call_readContentElement w) AtMostOne
  /\ mono AtMostOne (call_readClassDesc w) Nothing
  /\ forall tc, mono Nothing (call_readFieldValue w tc) Nothing.

(** The state in which the loop over the content elements starts. *)
Definition after_prelude (rest : list byte) : SerializedObjectParser :=
  mkParser rest [] 0x7e0000 "  " [] (mkSmooth 1 []) (mkSerObject 0 x00 x00).

(** The first step of the prelude in the words of the specification: one
    byte is consumed if it is one of [0x50] ... [0x54]; any other leading
    byte is neither consumed nor an error. *)
Definition is_rmi_byte (b : byte) : bool :=
  Byte.eqb b RMI_Call || Byte.eqb b RMI_ReturnData || Byte.eqb b RMI_Ping
  || Byte.eqb b RMI_PingAck || Byte.eqb b RMI_DgcAck.

Definition spec_rmi_byte : M unit :=
  let* b := peek in
  if is_rmi_byte b then let* _ := pop in ret tt else ret tt.

(** What a method of the walker may change besides the reader, the cursor
    and the indentation: nothing of the handle table and of the recorded
    stream header, and the handle counter and the class descriptions only
    by growing. *)
Definition walker_step (s s' : SerializedObjectParser) : Prop :=
  handles s' = handles s
  /\ so s' = so s
  /\ _handleValue s <= _handleValue s'
  /\ exists added,
       _classDataDescriptions s' = _classDataDescriptions s ++ added.

(** [keeps m]: a call of [m] that returns is a [walker_step]. *)
Definition keeps {A : Type} (m : M A) : Prop :=
  forall s,
    match m s with
    | Done (_, s') => walker_step s s'
    | _ => True
    end.

Definition walker_keeps (w : Walker) : Prop :=
  keeps (call_readContentElement w)
  /\ keeps (call_readClassDesc w)
  /\ forall tc, keeps (call_readFieldValue w tc).

(** The tags that [readContentElement] has a [case] for. *)
Definition is_content_tag (b : byte) : bool :=
  Byte.eqb b TC_OBJECT || Byte.eqb b TC_CLASS || Byte.eqb b TC_ARRAY
  || Byte.eqb b TC_STRING || Byte.eqb b TC_LONGSTRING || Byte.eqb b TC_ENUM
  || Byte.eqb b TC_CLASSDESC || Byte.eqb b TC_PROXYCLASSDESC
  || Byte.eqb b TC_REFERENCE || Byte.eqb b TC_NULL || Byte.eqb b TC_EXCEPTION
  || Byte.eqb b TC_RESET || Byte.eqb b TC_BLOCKDATA || Byte.eqb b TC_BLOCKDATALONG.

(** The number of nodes of a value, for inductions over nested values. *)
Fixpoint value_size (v : Value) : nat :=
  match v with
  | VMap m => S (map_fold (fun _ x acc => (value_size x + acc)%nat) O m)
  | VList l => S (fold_right (fun x acc => (value_size x + acc)%nat) O l)
  | _ => 1%nat
  end.

(** The elements of a stream with one object of a class [A] without
    fields, followed by a null reference. *)
Definition one_object_rest : list byte :=
  [x73; x72; x00; x01; x41;
   x00; x00; x00; x00; x00; x00; x00; x01;
   x02; x00; x00; x78; x70; x70].

(** The indentation of the trace.  [indents p m q]: started with the
    indentation [p], a call of [m] that returns leaves the indentation [q],
    and a call that panics does not do so in [decreaseIndent]. *)
Definition indentation_panic : string := "Error: Illegal indentation decrease.".

Definition indents {A : Type} (p : string) (m : M A) (q : string) : Prop :=
  forall s, _indent s = p ->
    match m s with
    | Done (_, s') => _indent s' = q
    | Panic msg => msg <> indentation_panic
    | OutOfFuel => True
    end.

(** A method is balanced when it takes back every indentation it adds. *)
Definition balanced {A : Type} (m : M A) : Prop :=
  forall i, indents i m i.

Definition walker_balanced (w : Walker) : Prop :=
  balanced (call_readContentElement w)
  /\ balanced (call_readClassDesc w)
  /\ forall tc, balanced (call_readFieldValue w tc).

(** The panics of the class data descriptions are run-time errors. *)
Definition panics_elsewhere {A : Type} (o : Outcome A) : Prop :=
  match o with
  | Panic msg => msg <> indentation_panic
  | _ => True
  end.


(** * Properties *)

(** ** Runs of the cursor and of the entry point *)

Example pop_reads_in_order :
  (let* a := pop in let* b := peek in let* c := pop in ret [a; b; c])
    (NewSerializedObjectParser [x01; x02; x03])
  = Done ([x01; x02; x02],
          mkParser [x03] [] 0x7e0000 "" [] (mkSmooth 1 []) (mkSerObject 0 x00 x00)).
Proof. reflexivity. Qed.

Example parse_empty_after_prelude :
  ParseSerializedObject 1 [xac; xed; x00; x05] = Done ([], None).
Proof. reflexivity. Qed.

Example parse_null_only :
  ParseSerializedObject 2 [xac; xed; x00; x05; x70] = Done ([], None).
Proof. reflexivity. Qed.

(** ** Facts about the machine integers *)

Lemma u8_range (b : byte) : 0 <= u8 b < 256.
Proof.
  unfold u8. pose proof (Byte.to_N_bounded b) as Hb.
  split; [apply N2Z.is_nonneg | lia].
Qed.

(** A shift by eight or more at type [uint8] leaves nothing. *)
Lemma shl_u8_high (b : byte) (n : Z) : 8 <= n -> shl_u8 b n = 0.
Proof.
  intros Hn. unfold shl_u8.
  change 0xff with (Z.ones 8).
  rewrite Z.land_ones by lia.
  rewrite Z.shiftl_mul_pow2 by lia.
  replace n with (8 + (n - 8)) by lia.
  rewrite Z.pow_add_r by lia.
  rewrite Z.mul_assoc, (Z.mul_comm (u8 b)), <- Z.mul_assoc.
  rewrite Z.mul_comm. apply Z.mod_mul. lia.
Qed.

Lemma land_u8_ff (b : byte) : Z.land (u8 b) 0xff = u8 b.
Proof.
  change 0xff with (Z.ones 8). rewrite Z.land_ones by lia.
  apply Z.mod_small. pose proof (u8_range b). lia.
Qed.

Lemma readUtf_len_low_byte (b1 b2 : byte) : readUtf_len b1 b2 = u8 b2.
Proof.
  unfold readUtf_len. rewrite shl_u8_high by lia.
  rewrite land_u8_ff. reflexivity.
Qed.

Lemma shifted_u32_low_byte (b1 b2 b3 b4 : byte) : shifted_u32 b1 b2 b3 b4 = u8 b4.
Proof.
  unfold shifted_u32. rewrite !shl_u8_high by lia.
  rewrite land_u8_ff. simpl Z.land. simpl Z.add.
  apply Z.mod_small. pose proof (u8_range b4). lia.
Qed.

(** A two byte big-endian read, as [binary.BigEndian] does it. *)
Lemma BigEndian_2 (b1 b2 : byte) : BigEndian [b1; b2] = 256 * u8 b1 + u8 b2.
Proof. unfold BigEndian. simpl. lia. Qed.

Lemma BigEndian_4 (b1 b2 b3 b4 : byte) :
  BigEndian [b1; b2; b3; b4]
  = 16777216 * u8 b1 + 65536 * u8 b2 + 256 * u8 b3 + u8 b4.
Proof. unfold BigEndian. simpl. lia. Qed.

(** ** Facts about the cursor *)

Lemma byte_of_Z_u8 (b : byte) : byte_of_Z (u8 b) = b.
Proof. destruct b; reflexivity. Qed.

Lemma readUInt8_at_eof (s : SerializedObjectParser) :
  rd s = [] ->
  readUInt8 s = Done ((x00, Some (errors_Wrap io_EOF "error reading uint8")), s).
Proof.
  intros Hrd. unfold readUInt8, binary_Read, bind, io_ReadFull. rewrite Hrd.
  reflexivity.
Qed.

Lemma readUInt8_next (s : SerializedObjectParser) (b : byte) (r : list byte) :
  rd s = b :: r -> readUInt8 s = Done ((b, None), set_rd r s).
Proof.
  intros Hrd. unfold readUInt8, binary_Read, bind, io_ReadFull. rewrite Hrd.
  cbn [length Nat.ltb Nat.leb]. rewrite skipn_cons, skipn_O, firstn_cons, firstn_O.
  unfold ret, BigEndian. cbn [fold_left fst snd].
  rewrite Z.mul_0_l, Z.add_0_l, byte_of_Z_u8. reflexivity.
Qed.

(** At the end of the input with an empty look-ahead, [pop] and [peek]
    answer a zero byte and no error. *)
Lemma pop_at_eof (s : SerializedObjectParser) :
  rd s = [] -> data (_data s) = [] -> pop s = Done (x00, s).
Proof.
  intros Hrd Hd. unfold pop, bind. rewrite Hd, (readUInt8_at_eof s Hrd).
  reflexivity.
Qed.

Lemma pop_from_reader (s : SerializedObjectParser) (b : byte) (r : list byte) :
  rd s = b :: r -> data (_data s) = [] -> pop s = Done (b, set_rd r s).
Proof.
  intros Hrd Hd. unfold pop, bind. rewrite Hd, (readUInt8_next s b r Hrd).
  reflexivity.
Qed.

Lemma pop_from_lookahead (s : SerializedObjectParser) (b : byte) (d : list byte) :
  data (_data s) = b :: d ->
  pop s = Done (b, set_data (mkSmooth (nPos (_data s) + 1) d) s).
Proof. intros Hd. unfold pop. rewrite Hd. reflexivity. Qed.

Lemma peek_at_eof (s : SerializedObjectParser) :
  rd s = [] -> data (_data s) = [] ->
  peek s = Done (x00, set_data (mkSmooth (nPos (_data s)) [x00]) s).
Proof.
  intros Hrd Hd. unfold peek, bind. rewrite Hd, (readUInt8_at_eof s Hrd).
  unfold add, modify, ret. cbn [fst]. rewrite Hd. reflexivity.
Qed.

Lemma peek_from_reader (s : SerializedObjectParser) (b : byte) (r : list byte) :
  rd s = b :: r -> data (_data s) = [] ->
  peek s = Done (b, set_data (mkSmooth (nPos (_data s)) [b]) (set_rd r s)).
Proof.
  intros Hrd Hd. unfold peek, bind. rewrite Hd, (readUInt8_next s b r Hrd).
  unfold add, modify, ret. cbn [fst set_rd _data]. rewrite Hd. reflexivity.
Qed.

Lemma peek_from_lookahead (s : SerializedObjectParser) (b : byte) (d : list byte) :
  data (_data s) = b :: d -> peek s = Done (b, s).
Proof. intros Hd. unfold peek. rewrite Hd. reflexivity. Qed.

(** ** C1: the package-level entry point *)

Lemma ParseSerializedObject_cases (fuel : nat) (buf : list byte) :
  ParseSerializedObject fuel buf = Done ([], None)
  \/ (exists msg, ParseSerializedObject fuel buf = Panic msg)
  \/ ParseSerializedObject fuel buf = OutOfFuel.
Proof.
  unfold ParseSerializedObject.
  destruct (parseStream _ fuel _) as [r | msg |]; eauto.
Qed.

(** C1 (the code departs from the claim).  The claim: the top-level
    [ParseSerializedObject] returns the ordered list of decoded top-level
    content elements, and the error when parsing fails.  The function runs
    the walker and then returns [nil, nil] whatever happened: whenever it
    returns, the contents are empty and the error is nil.  So the stream
    [AC ED 00 05 70] yields no element instead of one null, and the bad
    magic of [DE AD 00 05] is not reported, although the method of the same
    name reports it. *)
Theorem C1_ParseSerializedObject_returns_nil_nil :
  (forall fuel buf,
     ParseSerializedObject fuel buf = Done ([], None)
     \/ (exists msg, ParseSerializedObject fuel buf = Panic msg)
     \/ ParseSerializedObject fuel buf = OutOfFuel)
  /\ ParseSerializedObject 2 [xac; xed; x00; x05; x70] = Done ([], None)
  /\ ParseSerializedObject 1 [xde; xad; x00; x05] = Done ([], None)
  /\ (exists s,
        ParseSerializedObject_method 1 (NewSerializedObjectParser [xde; xad; x00; x05])
        = Done (([], Some (errors_New "magic value STREAM_MAGIC not found")), s)).
Proof.
  split; [exact ParseSerializedObject_cases |].
  repeat split; try reflexivity.
  eexists. reflexivity.
Qed.

(** ** C2: the reset tag *)

Lemma handleReset_does_nothing (s : SerializedObjectParser) :
  handleReset s = Done (tt, s).
Proof. reflexivity. Qed.

(** With a reset tag in the look-ahead, [content] changes nothing but the
    recorded tag: the tag stays in the look-ahead and the handle counter
    keeps its value. *)
Lemma content_on_reset (walk : nat) r h hv i c np o :
  content walk (mkParser r h hv i c (mkSmooth np [x79]) o)
  = Done ((VNil, None),
          mkParser r h hv i c (mkSmooth np [x79])
            (mkSerObject (so_STREAM_MAGIC o) (so_STREAM_VERSION o) x79)).
Proof. reflexivity. Qed.

Lemma method_loop_spins_on_reset (n walk : nat) :
  forall contents b r h hv i c np o,
    ParseSerializedObject_loop n walk contents
      (mkParser (b :: r) h hv i c (mkSmooth np [x79]) o) = OutOfFuel.
Proof.
  induction n as [| n IH]; intros; [reflexivity |].
  cbn [ParseSerializedObject_loop]. unfold bind at 1. cbn [end_ rd].
  unfold bind at 1. rewrite content_on_reset. apply IH.
Qed.

(** The tags that [readContentElement] leaves where they are: the two
    with an empty [case] clause, and the two whose handler has an empty
    body. *)
Lemma readContentElement_leaves_tag (w : Walker) (tag : byte) r h hv i c np o :
  In tag [TC_STRING; TC_CLASSDESC; TC_RESET; TC_EXCEPTION] ->
  readContentElement w (mkParser r h hv i c (mkSmooth np [tag]) o)
  = Done (None, mkParser r h hv i c (mkSmooth np [tag]) o).
Proof.
  intros [<- | [<- | [<- | [<- | []]]]]; reflexivity.
Qed.

(** The loop of [parseStream] never ends on such a tag: neither the
    parser nor [size()] changes. *)
Lemma walker_loop_spins (w : Walker) (tag : byte) (n : nat) (mx : Z) :
  In tag [TC_STRING; TC_CLASSDESC; TC_RESET; TC_EXCEPTION] ->
  forall r h hv i c np o,
    mx - np > 0 ->
    parseStream_contents mx w n (mkParser r h hv i c (mkSmooth np [tag]) o)
    = OutOfFuel.
Proof.
  intros Htag.
  induction n as [| n IH]; intros; [reflexivity |].
  cbn [parseStream_contents]. unfold bind at 1. cbn [size _data nPos].
  destruct (Z.gtb_spec (mx - np) 0) as [_ | Hle]; [| lia].
  unfold bind at 1. rewrite (readContentElement_leaves_tag w tag) by exact Htag.
  apply IH. lia.
Qed.

(** C2 (the code departs from the claim).  The claim: a consumed RESET tag
    empties the handle table and the class descriptions, so in
    [AC ED 00 05 74 00 01 "A" 79 74 00 01 "B" 71 00 7E 00 00] the reference
    resolves to "B".  [handleReset] has an empty body: it neither consumes
    the tag nor resets anything.  On this stream the method
    [ParseSerializedObject] reads "A" and then meets the tag [0x79] again
    and again, for every bound on the number of steps; the package-level
    function does not get that far, its walker already stays on the first
    string tag, and on a stream whose first element is the reset tag it
    stays on that tag. *)
Theorem C2_reset_tag_is_never_consumed :
  (forall s, handleReset s = Done (tt, s))
  /\ (forall fuel,
        ParseSerializedObject_method fuel (NewSerializedObjectParser reset_stream)
        = OutOfFuel)
  /\ (forall fuel, ParseSerializedObject fuel reset_stream = OutOfFuel)
  /\ (forall fuel, ParseSerializedObject fuel [xac; xed; x00; x05; x79] = OutOfFuel).
Proof.
  split; [exact handleReset_does_nothing |]. split; [| split].
  - intros [| n]; [reflexivity |].
    change (ParseSerializedObject_method (S n) (NewSerializedObjectParser reset_stream))
      with (ParseSerializedObject_loop n (S n) [VNil]
              (mkParser [x79; x74; x00; x01; x42; x71; x00; x7e; x00; x00] []
                 0x7e0001 "" [] (mkSmooth 1 [])
                 (mkSerObject STREAM_MAGIC STREAM_VERSION x74))).
    destruct n as [| n]; [reflexivity |].
    change (ParseSerializedObject_loop (S n) (S (S n)) [VNil] ?s)
      with (ParseSerializedObject_loop n (S (S n)) [VNil; VNil]
              (mkParser [x74; x00; x01; x42; x71; x00; x7e; x00; x00] []
                 0x7e0001 "" [] (mkSmooth 1 [x79])
                 (mkSerObject STREAM_MAGIC STREAM_VERSION x79))).
    apply method_loop_spins_on_reset.
  - intros fuel. unfold ParseSerializedObject.
    change (parseStream (Z.of_nat (length reset_stream)) fuel
              (NewSerializedObjectParser reset_stream))
      with ((let* _ := parseStream_contents 18 (walker fuel) fuel in decreaseIndent)
              (mkParser [x74; x00; x01; x41; x79; x74; x00; x01; x42; x71; x00; x7e; x00; x00]
                 [] 0x7e0000 "  " [] (mkSmooth 1 []) (mkSerObject 0 x00 x00))).
    destruct fuel as [| n]; [reflexivity |].
    unfold bind.
    change (parseStream_contents 18 (walker (S n)) (S n) ?s)
      with (parseStream_contents 18 (walker (S n)) n
              (mkParser [x00; x01; x41; x79; x74; x00; x01; x42; x71; x00; x7e; x00; x00]
                 [] 0x7e0000 "  " [] (mkSmooth 1 [x74]) (mkSerObject 0 x00 x00))).
    rewrite (walker_loop_spins _ TC_STRING) by (simpl; auto; lia). reflexivity.
  - intros fuel. unfold ParseSerializedObject.
    change (parseStream (Z.of_nat (length [xac; xed; x00; x05; x79])) fuel
              (NewSerializedObjectParser [xac; xed; x00; x05; x79]))
      with ((let* _ := parseStream_contents 5 (walker fuel) fuel in decreaseIndent)
              (after_prelude [x79])).
    destruct fuel as [| n]; [reflexivity |].
    unfold bind.
    change (parseStream_contents 5 (walker (S n)) (S n) ?s)
      with (parseStream_contents 5 (walker (S n)) n
              (mkParser [] [] 0x7e0000 "  " [] (mkSmooth 1 [x79])
                 (mkSerObject 0 x00 x00))).
    rewrite (walker_loop_spins _ TC_RESET) by (simpl; auto; lia). reflexivity.
Qed.

(** ** C3: a class descriptor given by reference *)

Lemma buildClassDataDescFromIndex_copies_all (cdd : ClassDataDesc) (index : Z) :
  buildClassDataDescFromIndex cdd index = cdd.
Proof. destruct cdd. reflexivity. Qed.

(** The search of [readClassDesc] looks at a description's classes from
    index 1 on and then at the index one past the end: when no class from
    index 1 on has the handle, it dereferences nil. *)
Lemma scan_classes_from (cdd : ClassDataDesc) (refHandle : Z) (n : nat) :
  forall classIndex,
    0 <= classIndex ->
    Z.of_nat n = getClassCount cdd - classIndex ->
    (forall cd, In cd (skipn (S (Z.to_nat classIndex)) (_classDetails cdd)) ->
                getHandle cd <> refHandle) ->
    (n = O /\ scan_classes n classIndex cdd refHandle = Done None)
    \/ scan_classes n classIndex cdd refHandle = Panic nil_dereference.
Proof.
  induction n as [| n IH]; intros classIndex Hpos Hn Hne; [left; split; reflexivity |].
  right. cbn [scan_classes]. unfold getClassDetails, getClassCount in *.
  destruct (Z.geb_spec (classIndex + 1) (Z.of_nat (length (_classDetails cdd))))
    as [Hge | Hlt]; [reflexivity |].
  destruct (Z.ltb_spec (classIndex + 1) 0) as [Hneg | _]; [lia |].
  replace (Z.to_nat (classIndex + 1)) with (S (Z.to_nat classIndex)) by lia.
  destruct (nth_error (_classDetails cdd) (S (Z.to_nat classIndex))) as [cd |] eqn:Hnth.
  - assert (Hin : In cd (skipn (S (Z.to_nat classIndex)) (_classDetails cdd))).
    { rewrite <- (firstn_skipn (S (Z.to_nat classIndex)) (_classDetails cdd)) in Hnth.
      rewrite nth_error_app2 in Hnth
        by (rewrite length_firstn; lia).
      eapply nth_error_In. exact Hnth. }
    destruct (Z.eqb_spec (getHandle cd) refHandle) as [Heq | _];
      [exfalso; exact (Hne cd Hin Heq) |].
    destruct (IH (classIndex + 1)) as [[Hz _] | Hp]; try lia; try exact Hp.
    intros cd' Hin'. apply Hne.
    replace (S (Z.to_nat (classIndex + 1))) with (1 + S (Z.to_nat classIndex))%nat in Hin' by lia.
    rewrite <- skipn_skipn in Hin'.
    destruct (skipn (S (Z.to_nat classIndex)) (_classDetails cdd)); [destruct Hin' |].
    right. exact Hin'.
  - reflexivity.
Qed.

(** A description of a single class, which is what the first recorded
    description always is, makes every class reference panic. *)
Lemma scan_single_class_panics (cd : ClassDetails) (rest : list ClassDataDesc)
  (refHandle : Z) :
  scan_descriptions (mkClassDataDesc [cd] :: rest) refHandle = Panic nil_dereference.
Proof. reflexivity. Qed.

(** C3 (the code departs from the claim).  The claim: a REFERENCE read by
    [readClassDesc] resolves to the recorded class with that handle, the
    first class of a description included, and yields the class list from
    the matched index on.  In the code the loop increments the index before
    it looks, so index 0 is never a candidate and the index one past the
    end is dereferenced: a reference to the class of an earlier object
    panics (first conjunct, on a well-formed stream).  When a class at an
    index from 1 on matches, [buildClassDataDescFromIndex] returns all the
    classes, not the ones from the index on (second and third conjunct),
    against its own comment. *)
Theorem C3_class_reference_skips_first_and_copies_all :
  ParseSerializedObject 5 two_objects_stream = Panic nil_dereference
  /\ scan_descriptions [mkClassDataDesc [class_A; class_B]] 0x7e0001
     = Done (Some (mkClassDataDesc [class_A; class_B]))
  /\ (forall cdd index, buildClassDataDescFromIndex cdd index = cdd)
  /\ scan_descriptions [mkClassDataDesc [class_A; class_B]] 0x7e0000
     = Panic nil_dereference.
Proof.
  repeat split; try reflexivity.
  exact buildClassDataDescFromIndex_copies_all.
Qed.

(** ** C4: a reference outside the handle table *)

Lemma readInt32_four_bytes (s : SerializedObjectParser) (b1 b2 b3 b4 : byte)
  (rest : list byte) :
  rd s = b1 :: b2 :: b3 :: b4 :: rest ->
  readInt32 s = Done ((to_int32 (BigEndian [b1; b2; b3; b4]), None), set_rd rest s).
Proof.
  intros Hrd. unfold readInt32, binary_Read, bind, io_ReadFull. rewrite Hrd.
  reflexivity.
Qed.

(** C4 (as amended).  When the handle read by [parseReference], less
    [0x7E0000] in 32-bit arithmetic, is not the index of an entry of the
    handle table, the result is the absent value [nil] and no error: the
    reference is dropped silently, by the explicit range test of the code. *)
Theorem C4_parseReference_out_of_range_yields_nil
  (s : SerializedObjectParser) (b1 b2 b3 b4 : byte) (rest : list byte) :
  rd s = b1 :: b2 :: b3 :: b4 :: rest ->
  reference_index b1 b2 b3 b4 < 0
  \/ Z.of_nat (length (handles s)) <= reference_index b1 b2 b3 b4 ->
  parseReference s = Done ((VNil, None), set_rd rest s).
Proof.
  intros Hrd Hout. unfold parseReference. unfold bind at 1.
  rewrite (readInt32_four_bytes s b1 b2 b3 b4 rest Hrd).
  unfold bind, get_state, ret. cbn [handles set_rd].
  fold (reference_index b1 b2 b3 b4).
  destruct (Z.gtb_spec (reference_index b1 b2 b3 b4) (-1)) as [Hgt | Hle];
    destruct (Z.ltb_spec (reference_index b1 b2 b3 b4) (Z.of_nat (length (handles s))))
      as [Hlt | Hge]; cbn [andb]; try reflexivity.
  lia.
Qed.

(** The handle [0x7E0005] against the empty table of a new parser. *)
Lemma C4_parseReference_out_of_range_witness :
  parseReference (NewSerializedObjectParser [x00; x7e; x00; x05])
  = Done ((VNil, None), NewSerializedObjectParser []).
Proof.
  apply (C4_parseReference_out_of_range_yields_nil
           (NewSerializedObjectParser [x00; x7e; x00; x05]) x00 x7e x00 x05 []).
  - reflexivity.
  - right. vm_compute. discriminate.
Defined.

(** Inside the table the entry is returned. *)
Lemma parseReference_in_range
  (s : SerializedObjectParser) (b1 b2 b3 b4 : byte) (rest : list byte) :
  rd s = b1 :: b2 :: b3 :: b4 :: rest ->
  0 <= reference_index b1 b2 b3 b4 < Z.of_nat (length (handles s)) ->
  parseReference s
  = Done ((nth (Z.to_nat (reference_index b1 b2 b3 b4)) (handles s) VNil, None),
          set_rd rest s).
Proof.
  intros Hrd Hin. unfold parseReference. unfold bind at 1.
  rewrite (readInt32_four_bytes s b1 b2 b3 b4 rest Hrd).
  unfold bind, get_state, ret. cbn [handles set_rd].
  fold (reference_index b1 b2 b3 b4).
  destruct (Z.gtb_spec (reference_index b1 b2 b3 b4) (-1)) as [Hgt | Hle];
    destruct (Z.ltb_spec (reference_index b1 b2 b3 b4) (Z.of_nat (length (handles s))))
      as [Hlt | Hge]; cbn [andb]; try reflexivity; lia.
Qed.

(** A handle that [newHandle] entered is found again. *)
Example parseReference_resolves_entry :
  (let* _ := newHandle (VString "A") in parseReference)
    (NewSerializedObjectParser [x00; x7e; x00; x00])
  = Done ((VString "A", None),
          mkParser [] [VString "A"] 0x7e0000 "" [] (mkSmooth 0 [])
            (mkSerObject 0 x00 x00)).
Proof. reflexivity. Qed.

(** C4 (counterexample to the claim as stated).  The wire handle
    [0x7E0005] is read against an empty handle table: index 5 is no entry,
    yet the call succeeds with [nil] and a nil error instead of failing. *)
Lemma C4_counterexample :
  reference_index x00 x7e x00 x05 = 5
  /\ handles (NewSerializedObjectParser [x00; x7e; x00; x05]) = []
  /\ parseReference (NewSerializedObjectParser [x00; x7e; x00; x05])
     = Done ((VNil, None), NewSerializedObjectParser []).
Proof. repeat split. Qed.

(** ** C5: the stream version *)

(** [readUInt16], which the value-producing front uses for the magic, the
    version and the length of [utf], decodes big-endian with [binary.Read]. *)
Lemma readUInt16_big_endian (s : SerializedObjectParser) (b1 b2 : byte)
  (rest : list byte) :
  rd s = b1 :: b2 :: rest ->
  readUInt16 s = Done ((256 * u8 b1 + u8 b2, None), set_rd rest s).
Proof.
  intros Hrd. unfold readUInt16, binary_Read, bind, io_ReadFull. rewrite Hrd.
  simpl. rewrite BigEndian_2. reflexivity.
Qed.

(** [version] accepts every 16-bit value whose low byte is 5. *)
Lemma version_accepts_low_byte_5 (s : SerializedObjectParser) (hi : byte)
  (rest : list byte) :
  rd s = hi :: x05 :: rest ->
  exists s', version s = Done (None, s').
Proof.
  intros Hrd. unfold version. unfold bind at 1.
  rewrite (readUInt16_big_endian s hi x05 rest Hrd).
  assert (Hlow : byte_of_Z (256 * u8 hi + u8 x05) = x05).
  { unfold byte_of_Z.
    replace ((256 * u8 hi + u8 x05) mod 256) with 5.
    - reflexivity.
    - rewrite Z.add_comm, Z.mul_comm, Z.mod_add by lia. reflexivity. }
  cbn beta iota. rewrite Hlow. eexists. reflexivity.
Qed.

(** C5 (the code departs from the claim).  The claim: the version is read
    as a big-endian u16 and any value other than 5 fails.  [version] reads
    the u16 but compares [byte(ver)] with 5, so the version bytes [01 05]
    (the value 261) are accepted: the method [ParseSerializedObject]
    returns without error on [AC ED 01 05].  The walker's [parseStream]
    does compare both bytes with [00 05], but only prints a line and goes
    on, so the package-level function does not fail either; a version whose
    low byte is wrong is refused by [version]. *)
Theorem C5_version_compares_the_low_byte_only :
  version (NewSerializedObjectParser [x01; x05])
  = Done (None, mkParser [] [] 0x7e0000 "" [] (mkSmooth 0 [])
                  (mkSerObject 0 STREAM_VERSION x00))
  /\ ParseSerializedObject_method 1 (NewSerializedObjectParser [xac; xed; x01; x05])
     = Done (([], None),
             mkParser [] [] 0x7e0000 "" [] (mkSmooth 0 [])
               (mkSerObject STREAM_MAGIC STREAM_VERSION x00))
  /\ ParseSerializedObject 1 [xac; xed; x01; x05] = Done ([], None)
  /\ version (NewSerializedObjectParser [x00; x04])
     = Done (Some (errors_New "protocol version not recognized: wanted 5"),
             NewSerializedObjectParser []).
Proof. repeat split. Qed.

(** ** C6: byte order of the walker's lengths *)

(** C6 (the code departs from the claim).  The claim: the UTF length of
    [readUtf] is [256*b1 + b2] and the block length of [readLongBlockData]
    is the big-endian u32 of its four bytes.  The walker shifts the bytes
    at type [uint8], where [b << 8] is already zero, so only the last byte
    counts: the length bytes [01 00] give 0, not 256, and
    [00 00 01 00] give 0 as well; [readUtf] on [01 00 41] reads the empty
    string and leaves the [41] unread. *)
Theorem C6_walker_lengths_keep_the_last_byte_only :
  (forall b1 b2, readUtf_len b1 b2 = u8 b2)
  /\ (forall b1 b2 b3 b4, readLongBlockData_len b1 b2 b3 b4 = u8 b4)
  /\ readUtf_len x01 x00 = 0
  /\ readLongBlockData_len x00 x00 x01 x00 = 0
  /\ readUtf (NewSerializedObjectParser [x01; x00; x41])
     = Done (""%string, NewSerializedObjectParser [x41]).
Proof.
  split; [exact readUtf_len_low_byte |].
  split; [exact shifted_u32_low_byte |].
  repeat split.
Qed.

(** ** C7: reading past the end of the input *)

(** C7 (the code departs from the claim).  The claim: a read past the end
    of the input fails with an unexpected-EOF error and no byte is made up.
    [Smooth.pop] and [Smooth.peek] drop the error of [readUInt8] and hand
    on its zero byte.  On [AC ED 00 05 74 00 02 41], a string of declared
    length 2 with one byte left, the method [ParseSerializedObject] reads
    the missing byte as 0 and returns one element and no error, although
    [readUInt8] itself reports the end of the input. *)
Theorem C7_pop_makes_up_a_zero_byte_at_eof :
  pop (NewSerializedObjectParser []) = Done (x00, NewSerializedObjectParser [])
  /\ readUInt8 (NewSerializedObjectParser [])
     = Done ((x00, Some (errors_Wrap io_EOF "error reading uint8")),
             NewSerializedObjectParser [])
  /\ readUtf (NewSerializedObjectParser [x00; x02; x41])
     = Done (String "A" (String "000" ""), NewSerializedObjectParser [])
  /\ ParseSerializedObject_method 2
       (NewSerializedObjectParser [xac; xed; x00; x05; x74; x00; x02; x41])
     = Done (([VNil], None),
             mkParser [] [] 0x7e0001 "" [] (mkSmooth 1 [])
               (mkSerObject STREAM_MAGIC STREAM_VERSION x74)).
Proof. repeat split. Qed.

(** ** C8: illegal class descriptor flags *)

Lemma lift_setLastClassDescFlags (b1 : byte) (cdd : ClassDataDesc)
  (s : SerializedObjectParser) :
  (exists cdd', lift (setLastClassDescFlags b1 cdd) s = Done (cdd', s))
  \/ (exists msg, lift (setLastClassDescFlags b1 cdd) s = Panic msg).
Proof.
  unfold lift, setLastClassDescFlags, on_last_class, update_last.
  destruct (rev (_classDetails cdd)); eauto.
Qed.

Lemma readClassDescInfo_illegal_flags (w : Walker) (cdd : ClassDataDesc)
  (s s1 : SerializedObjectParser) (b1 : byte) :
  pop s = Done (b1, s1) ->
  illegal_classDescFlags b1 = true ->
  exists msg, readClassDescInfo w cdd s = Panic msg.
Proof.
  intros Hpop Hbad. unfold readClassDescInfo. unfold bind at 1. rewrite Hpop.
  unfold bind at 1.
  destruct (lift_setLastClassDescFlags b1 cdd s1) as [[cdd' Hl] | [msg Hl]];
    rewrite Hl; [| eauto].
  unfold bind at 1. unfold illegal_classDescFlags in Hbad.
  destruct (has_flag b1 SC_SERIALIZABLE), (has_flag b1 SC_EXTERNALIZABLE),
    (has_flag b1 SC_BLOCK_DATA), (has_flag b1 SC_WRITE_METHOD),
    (Byte.eqb b1 SC_Fail) eqn:Hz;
    try (unfold SC_Fail in Hz; rewrite Hz in Hbad);
    cbn in Hbad; try discriminate Hbad;
    eexists; reflexivity.
Qed.

Lemma classData_illegal_flags (b1 : byte) :
  illegal_classDescFlags b1 = true ->
  forall fuel sup anns fs uid nm en st,
    classData fuel (Some (mkClazz sup anns fs uid nm b1 en)) st
    = Done ((None, Some (errors_New "unable to deserialize class with flags")), st).
Proof.
  intros Hbad fuel sup anns fs uid nm en st.
  destruct b1; vm_compute in Hbad; try discriminate Hbad; reflexivity.
Qed.

(** C8.  A flag byte with SC_SERIALIZABLE and SC_EXTERNALIZABLE, with
    SC_SERIALIZABLE and SC_BLOCK_DATA, with SC_EXTERNALIZABLE and
    SC_WRITE_METHOD, or with neither SC_SERIALIZABLE nor SC_EXTERNALIZABLE
    while it is not zero, is fatal: [readClassDescInfo], which reads the
    flags of a class descriptor, panics and produces no descriptor, and
    [classData] returns an error and no data for a class with such flags. *)
Theorem C8_illegal_classDescFlags_are_fatal (w : Walker) (cdd : ClassDataDesc)
  (s s1 : SerializedObjectParser) (b1 : byte) :
  pop s = Done (b1, s1) ->
  illegal_classDescFlags b1 = true ->
  (exists msg, readClassDescInfo w cdd s = Panic msg)
  /\ (forall fuel sup anns fs uid nm en st,
        exists e,
          classData fuel (Some (mkClazz sup anns fs uid nm b1 en)) st
          = Done ((None, Some e), st)).
Proof.
  intros Hpop Hbad. split.
  - exact (readClassDescInfo_illegal_flags w cdd s s1 b1 Hpop Hbad).
  - intros. eexists. apply classData_illegal_flags. exact Hbad.
Qed.

(** The flag byte [06], SC_SERIALIZABLE with SC_EXTERNALIZABLE. *)
Lemma C8_illegal_classDescFlags_witness :
  (exists msg,
     readClassDescInfo (walker 1) (addClass "A" NewClassDataDesc)
       (NewSerializedObjectParser [x06; x00; x00; x78; x70]) = Panic msg)
  /\ (forall fuel sup anns fs uid nm en st,
        exists e,
          classData fuel (Some (mkClazz sup anns fs uid nm x06 en)) st
          = Done ((None, Some e), st)).
Proof.
  apply (C8_illegal_classDescFlags_are_fatal (walker 1)
           (addClass "A" NewClassDataDesc)
           (NewSerializedObjectParser [x06; x00; x00; x78; x70])
           (NewSerializedObjectParser [x00; x00; x78; x70]) x06).
  - reflexivity.
  - reflexivity.
Defined.

(** A legal flag byte passes the validation: the same descriptor with
    flags [02] is read to its end. *)
Example readClassDescInfo_legal_flags :
  readClassDescInfo (walker 1) (addClass "A" NewClassDataDesc)
    (NewSerializedObjectParser [x02; x00; x00; x78; x70])
  = Done (mkClassDataDesc [mkClassDetails "A" (-1) x02 []],
          mkParser [] [] 0x7e0000 "" [] (mkSmooth 2 []) (mkSerObject 0 x00 x00)).
Proof. reflexivity. Qed.

(** ** C10: the list post-processor *)

(** When [listPostProc] succeeds, the value holds the elements
    [data[1:size]], one fewer than [size]. *)
Lemma listPostProc_value_length (fields : gmap string Value) (data : list Value)
  (fields' : gmap string Value) (size : Z) :
  postProcSize data 0 = (size, None) ->
  listPostProc fields data = (Some fields', None) ->
  exists l, fields' !! "value"%string = Some (VList l)
            /\ Z.of_nat (length l) = Z.max 0 (size - 1).
Proof.
  intros Hsz. unfold listPostProc. rewrite Hsz.
  destruct (Z.eqb_spec (Z.of_nat (length data)) (size + 1)) as [Hlen | Hlen];
    cbn [negb]; [| discriminate].
  destruct (Z.gtb_spec size 1) as [Hgt | Hle]; intros Heq; inversion Heq; subst.
  - eexists. split; [apply lookup_insert_eq |].
    unfold slice. rewrite length_firstn, length_skipn. lia.
  - exists []. split; [apply lookup_insert_eq |]. simpl. lia.
Qed.

(** C10 (the code departs from the claim).  The claim: for ArrayList and
    ArrayDeque the value is the [size] annotation elements that follow the
    first one.  [listPostProc] checks that exactly [size] elements follow
    and then takes the Go slice [data[1:size]], which stops one element
    short (and is replaced by the empty list when [size] is 1): for the
    size block [00 00 00 02] followed by "a" and "b" the value is ["a"]. *)
Theorem C10_listPostProc_drops_the_last_element :
  KnownPostProcs "java.util.ArrayList@7881d21d99c7619d" = Some listPostProc
  /\ KnownPostProcs "java.util.ArrayDeque@207cda2e240da08b" = Some listPostProc
  /\ postProcSize [VBytes [x00; x00; x00; x02]; VString "a"; VString "b"] 0
     = (2, None)
  /\ listPostProc ∅ [VBytes [x00; x00; x00; x02]; VString "a"; VString "b"]
     = (Some (<["value" := VList [VString "a"]]> ∅), None)
  /\ listPostProc ∅ [VBytes [x00; x00; x00; x01]; VString "a"]
     = (Some (<["value" := VList []]> ∅), None)
  /\ listPostProc ∅ [VBytes [x00; x00; x00; x02]; VString "a"]
     = (None, Some (errors_New "incorrect number of elements")).
Proof. repeat split. Qed.

(** ** C9: the byte in front of the magic

    [parseStream] compares [maxDataBlockSize - nPos] with zero before each
    content element, and a byte in front of the magic makes
    [maxDataBlockSize] one larger.  The two runs agree because [nPos], which
    counts the bytes taken out of the look-ahead, stays below both bounds:
    [reach] bounds every later value of [nPos]. *)

Lemma nonzero_count_nonneg (d : list byte) : 0 <= nonzero_count d.
Proof. unfold nonzero_count. lia. Qed.

Lemma nPos_le_reach (s : SerializedObjectParser) : nPos (_data s) <= reach s.
Proof. unfold reach. pose proof (nonzero_count_nonneg (data (_data s))). lia. Qed.

Lemma look_weaken (p q : Look) (s : SerializedObjectParser) :
  look_le p q = true -> look p s -> look q s.
Proof.
  destruct p, q; simpl; try discriminate; intros _ H; try exact H;
    rewrite H; simpl; lia.
Qed.

Lemma mono_pre {A : Type} (p p' q : Look) (m : M A) :
  look_le p' p = true -> mono p m q -> mono p' m q.
Proof. intros Hle Hm s Hs. apply Hm. exact (look_weaken p' p s Hle Hs). Qed.

Lemma mono_post {A : Type} (p q q' : Look) (m : M A) :
  look_le q q' = true -> mono p m q -> mono p m q'.
Proof.
  intros Hle Hm s Hs. specialize (Hm s Hs).
  destruct (m s) as [[a s'] | |]; [| exact I | exact I].
  destruct Hm as [Hr Hq]. split; [exact Hr | exact (look_weaken q q' s' Hle Hq)].
Qed.

Lemma mono_ret {A : Type} (p q : Look) (a : A) :
  look_le p q = true -> mono p (ret a) q.
Proof.
  intros Hle s Hs. unfold ret. split; [lia | exact (look_weaken p q s Hle Hs)].
Qed.

Lemma mono_bind {A B : Type} (p q r : Look) (m : M A) (k : A -> M B) :
  mono p m q -> (forall a, mono q (k a) r) -> mono p (bind m k) r.
Proof.
  intros Hm Hk s Hs. unfold bind. specialize (Hm s Hs).
  destruct (m s) as [[a s'] | |]; [| exact I | exact I].
  destruct Hm as [Hr Hq]. specialize (Hk a s' Hq).
  destruct (k a s') as [[b s''] | |]; [| exact I | exact I].
  destruct Hk as [Hr' Hq']. split; [lia | exact Hq'].
Qed.

Lemma mono_panic {A : Type} (p q : Look) (msg : string) : mono p (@panic A msg) q.
Proof. intros s _. exact I. Qed.

Lemma mono_out_of_fuel {A : Type} (p q : Look) : mono p (@out_of_fuel A) q.
Proof. intros s _. exact I. Qed.

Lemma mono_lift {A : Type} (p : Look) (o : Outcome A) : mono p (lift o) p.
Proof.
  intros s Hs. unfold lift. destruct o; [| exact I | exact I].
  split; [lia | exact Hs].
Qed.

Lemma mono_get_state (p : Look) : mono p get_state p.
Proof. intros s Hs. unfold get_state. split; [lia | exact Hs]. Qed.

(** A change of the parser that leaves the reader and the cursor alone. *)
Lemma mono_modify (p : Look) (f : SerializedObjectParser -> SerializedObjectParser) :
  (forall s, rd (f s) = rd s /\ _data (f s) = _data s) -> mono p (modify f) p.
Proof.
  intros Hf s Hs. unfold modify. destruct (Hf s) as [Hrd Hd].
  unfold reach. rewrite Hrd, Hd. split; [lia |].
  destruct p; unfold look in *; rewrite Hd; exact Hs.
Qed.

Lemma mono_increaseIndent (p : Look) : mono p increaseIndent p.
Proof. apply mono_modify. intros s. split; reflexivity. Qed.

Lemma mono_decreaseIndent (p : Look) : mono p decreaseIndent p.
Proof.
  intros s Hs. unfold decreaseIndent.
  destruct (String.length (_indent s) <? 2)%nat; [exact I |].
  split; [unfold reach; simpl; lia | destruct p; exact Hs].
Qed.

Lemma mono_newHandle1 (p : Look) : mono p newHandle1 p.
Proof.
  intros s Hs. unfold newHandle1.
  split; [unfold reach; simpl; lia | destruct p; exact Hs].
Qed.

Lemma mono_record_description (p : Look) (cdd : ClassDataDesc) :
  mono p (record_description cdd) p.
Proof. apply mono_modify. intros s. split; reflexivity. Qed.

Lemma mono_iterate_n {A : Type} (p : Look) (body : A -> M A) (n : nat) :
  (forall a, mono p (body a) p) -> forall a, mono p (iterate_n n body a) p.
Proof.
  intros Hb. induction n as [| n IH]; intros a; simpl.
  - apply mono_ret. destruct p; reflexivity.
  - eapply mono_bind; [apply Hb | exact IH].
Qed.

Lemma mono_repeat_n (p : Look) (body : M unit) (n : nat) :
  mono p body p -> mono p (repeat_n n body) p.
Proof. intros Hb. unfold repeat_n. apply mono_iterate_n. intros _. exact Hb. Qed.

Lemma mono_for_each {A : Type} (p : Look) (body : A -> M unit) (l : list A) :
  (forall a, mono p (body a) p) -> mono p (for_each l body) p.
Proof.
  intros Hb. induction l as [| x l IH]; simpl.
  - apply mono_ret. destruct p; reflexivity.
  - eapply mono_bind; [apply Hb | intros _; exact IH].
Qed.

(** The cursor. *)

Lemma nonzero_count_one (b : byte) : 0 <= nonzero_count [b] <= 1.
Proof. unfold nonzero_count. simpl. destruct (negb _); simpl; lia. Qed.

Lemma nonzero_count_tag (b : byte) : b <> x00 -> nonzero_count [b] = 1.
Proof.
  intros Hb. unfold nonzero_count. simpl.
  destruct (Byte.eqb b x00) eqn:Hz; [apply Byte.byte_dec_bl in Hz; contradiction |].
  reflexivity.
Qed.

Lemma mono_pop_nothing : mono Nothing pop Nothing.
Proof.
  intros s Hs. simpl in Hs. destruct (rd s) as [| b r] eqn:Hrd.
  - rewrite (pop_at_eof s Hrd Hs). split; [lia | exact Hs].
  - rewrite (pop_from_reader s b r Hrd Hs). unfold reach. simpl.
    rewrite Hrd. simpl length. split; [lia | exact Hs].
Qed.

Lemma mono_pop_end_tag : mono EndTag pop Nothing.
Proof.
  intros s Hs. simpl in Hs. rewrite (pop_from_lookahead s _ _ Hs).
  unfold reach. simpl. rewrite Hs.
  rewrite (nonzero_count_tag TC_ENDBLOCKDATA) by discriminate.
  unfold nonzero_count. simpl. split; [lia | reflexivity].
Qed.

(** After [peek] the look-ahead holds exactly the byte it returned. *)
Lemma peek_result (s : SerializedObjectParser) :
  look AtMostOne s ->
  exists x s', peek s = Done (x, s') /\ data (_data s') = [x]
               /\ reach s' <= reach s.
Proof.
  intros Hs. simpl in Hs. destruct (data (_data s)) as [| b d] eqn:Hd.
  - destruct (rd s) as [| b r] eqn:Hrd.
    + rewrite (peek_at_eof s Hrd Hd). eexists _, _. split; [reflexivity |].
      unfold reach. simpl. rewrite Hrd, Hd. unfold nonzero_count. simpl.
      split; [reflexivity | lia].
    + rewrite (peek_from_reader s b r Hrd Hd). eexists _, _. split; [reflexivity |].
      unfold reach. simpl. rewrite Hrd, Hd.
      pose proof (nonzero_count_one b). unfold nonzero_count at 2. simpl length.
      split; [reflexivity | lia].
  - destruct d; [| simpl in Hs; lia].
    rewrite (peek_from_lookahead s b [] Hd). eexists _, _.
    split; [reflexivity |]. split; [exact Hd | lia].
Qed.

Lemma mono_peek : mono AtMostOne peek AtMostOne.
Proof.
  intros s Hs. destruct (peek_result s Hs) as (x & s' & Hp & Hd & Hr).
  rewrite Hp. split; [exact Hr |]. simpl. rewrite Hd. simpl. lia.
Qed.

(** A tag that is checked after it was taken is not zero, so taking it out
    of the look-ahead does not raise [reach]. *)
Lemma mono_expect (tag : byte) (msg : string) :
  tag <> x00 -> mono AtMostOne (expect tag msg) Nothing.
Proof.
  intros Htag s Hs. simpl in Hs. unfold expect, bind.
  destruct (data (_data s)) as [| b d] eqn:Hd.
  - pose proof (mono_pop_nothing s Hd) as Hp.
    destruct (pop s) as [[b s'] | |]; [| exact I | exact I].
    destruct (Byte.eqb b tag); cbn; [exact Hp | exact I].
  - destruct d; [| simpl in Hs; lia].
    rewrite (pop_from_lookahead s b [] Hd).
    destruct (Byte.eqb b tag) eqn:Hb; cbn; [| exact I].
    apply Byte.byte_dec_bl in Hb. subst b.
    unfold reach. simpl. rewrite Hd, (nonzero_count_tag tag Htag).
    unfold nonzero_count. simpl. split; [lia | reflexivity].
Qed.

(** The leaves of the walker. *)

Create HintDb mono.

#[local] Hint Resolve mono_increaseIndent mono_decreaseIndent mono_newHandle1
  mono_pop_nothing mono_pop_end_tag mono_peek mono_lift mono_get_state
  mono_record_description mono_repeat_n : mono.
#[local] Hint Extern 1 (mono _ (expect _ _) _) =>
  apply mono_expect; discriminate : mono.

Ltac mono_leaf :=
  first [ solve [eauto 3 with mono]
        | (eapply mono_pre; [ | solve [eauto 3 with mono] ]); reflexivity ].

(** Walks down a chain of binds, closing each call with a lemma of the
    hint database; a guard that only returns or panics keeps the look-ahead. *)
Ltac mono_auto :=
  lazymatch goal with
  | |- mono ?p (bind ?m _) _ =>
      first [ eapply mono_bind; [ mono_leaf | intros; mono_auto ]
            | eapply (mono_bind p p); [ solve [mono_auto] | intros; mono_auto ] ]
  | |- mono _ (ret _) _ => apply mono_ret; reflexivity
  | |- mono _ (panic _) _ => apply mono_panic
  | |- mono _ out_of_fuel _ => apply mono_out_of_fuel
  | |- mono _ (if ?c then _ else _) _ => destruct c; mono_auto
  | |- mono _ (match ?x with _ => _ end) _ => destruct x; mono_auto
  | |- _ => first [ mono_leaf
                  | (eapply mono_post; [ | mono_leaf ]); reflexivity
                  | idtac ]
  end.

Lemma mono_skip_byte : mono Nothing (let* _ := pop in ret tt) Nothing.
Proof. mono_auto. Qed.

#[local] Hint Resolve mono_skip_byte : mono.

Lemma mono_read_chars (n : nat) : mono Nothing (read_chars n) Nothing.
Proof. unfold read_chars. apply mono_iterate_n. intros content. mono_auto. Qed.

#[local] Hint Resolve mono_read_chars : mono.

Lemma mono_readUtf : mono Nothing readUtf Nothing.
Proof. unfold readUtf. mono_auto. Qed.

Lemma mono_readLongUtf : mono Nothing readLongUtf Nothing.
Proof. unfold readLongUtf. mono_auto. Qed.

#[local] Hint Resolve mono_readUtf mono_readLongUtf : mono.

Lemma mono_readTC_STRING : mono AtMostOne readTC_STRING Nothing.
Proof. unfold readTC_STRING. mono_auto. Qed.

Lemma mono_readTC_LONGSTRING : mono AtMostOne readTC_LONGSTRING Nothing.
Proof. unfold readTC_LONGSTRING. mono_auto. Qed.

Lemma mono_readPrevObject : mono AtMostOne readPrevObject Nothing.
Proof. unfold readPrevObject. mono_auto. Qed.

Lemma mono_readNullReference : mono AtMostOne readNullReference Nothing.
Proof. unfold readNullReference. mono_auto. Qed.

Lemma mono_readException (p : Look) : mono p readException p.
Proof. unfold readException. apply mono_ret. destruct p; reflexivity. Qed.

Lemma mono_handleReset (p : Look) : mono p handleReset p.
Proof. unfold handleReset. apply mono_ret. destruct p; reflexivity. Qed.

Lemma mono_readBlockData : mono AtMostOne readBlockData Nothing.
Proof. unfold readBlockData. mono_auto. Qed.

Lemma mono_readLongBlockData : mono AtMostOne readLongBlockData Nothing.
Proof. unfold readLongBlockData. mono_auto. Qed.

#[local] Hint Resolve mono_readTC_STRING mono_readTC_LONGSTRING mono_readPrevObject
  mono_readNullReference mono_readException mono_handleReset mono_readBlockData
  mono_readLongBlockData : mono.

Lemma mono_readNewString : mono AtMostOne readNewString Nothing.
Proof. unfold readNewString. mono_auto. Qed.

#[local] Hint Resolve mono_readNewString : mono.

Lemma mono_readFieldDesc (cdd : ClassDataDesc) :
  mono Nothing (readFieldDesc cdd) Nothing.
Proof. unfold readFieldDesc. mono_auto. Qed.

#[local] Hint Resolve mono_readFieldDesc : mono.

Lemma mono_readFields (cdd : ClassDataDesc) : mono Nothing (readFields cdd) Nothing.
Proof.
  unfold readFields.
  eapply mono_bind; [mono_leaf | intros b1].
  eapply mono_bind; [mono_leaf | intros b2].
  destruct (readUtf_len b1 b2 >? 0); [| mono_auto].
  eapply mono_bind; [mono_leaf | intros _].
  eapply (mono_bind Nothing Nothing); [| intros; mono_auto].
  apply mono_iterate_n. intros. mono_auto.
Qed.

Lemma mono_readByteField : mono Nothing readByteField Nothing.
Proof. unfold readByteField. mono_auto. Qed.
Lemma mono_readCharField : mono Nothing readCharField Nothing.
Proof. unfold readCharField. mono_auto. Qed.
Lemma mono_readFloatField : mono Nothing readFloatField Nothing.
Proof. unfold readFloatField. mono_auto. Qed.
Lemma mono_readIntField : mono Nothing readIntField Nothing.
Proof. unfold readIntField. mono_auto. Qed.
Lemma mono_readLongField : mono Nothing readLongField Nothing.
Proof. unfold readLongField. mono_auto. Qed.
Lemma mono_readShortField : mono Nothing readShortField Nothing.
Proof. unfold readShortField. mono_auto. Qed.
Lemma mono_readBooleanField : mono Nothing readBooleanField Nothing.
Proof. unfold readBooleanField. mono_auto. Qed.
Lemma mono_readDoubleField : mono Nothing readDoubleField Nothing.
Proof. unfold readDoubleField. mono_auto. Qed.

#[local] Hint Resolve mono_readFields mono_readByteField mono_readCharField
  mono_readFloatField mono_readIntField mono_readLongField mono_readShortField
  mono_readBooleanField mono_readDoubleField : mono.

(** The loop that runs up to the end-of-block tag stops with that tag in
    the look-ahead. *)
Lemma mono_until_ENDBLOCKDATA (body : M (option error)) (n : nat) :
  mono AtMostOne body AtMostOne ->
  mono AtMostOne (until_ENDBLOCKDATA n body) EndTag.
Proof.
  intros Hbody. induction n as [| n IH]; simpl; [apply mono_out_of_fuel |].
  intros s Hs. unfold bind.
  destruct (peek_result s Hs) as (x & s' & Hp & Hd & Hr). rewrite Hp.
  destruct (Byte.eqb x TC_ENDBLOCKDATA) eqn:Hx.
  - apply Byte.byte_dec_bl in Hx. subst x. unfold ret.
    split; [exact Hr | exact Hd].
  - assert (Hs' : look AtMostOne s') by (simpl; rewrite Hd; simpl; lia).
    specialize (Hbody s' Hs').
    destruct (body s') as [[e s''] | |]; [| exact I | exact I].
    destruct Hbody as [Hr' Hs''].
    specialize (IH s'' Hs'').
    destruct (until_ENDBLOCKDATA n body s'') as [[u s3] | |]; [| exact I | exact I].
    destruct IH as [Hr3 Hs3]. split; [lia | exact Hs3].
Qed.

(** The recursive descent, for a walker whose three calls behave. *)

Section DescentReach.

Variable w : Walker.
Hypothesis call_readContentElement_mono :
  mono AtMostOne (call_readContentElement w) AtMostOne.
Hypothesis call_readClassDesc_mono :
  mono AtMostOne (call_readClassDesc w) Nothing.
Hypothesis call_readFieldValue_mono :
  forall tc, mono Nothing (call_readFieldValue w tc) Nothing.

#[local] Hint Resolve call_readContentElement_mono call_readClassDesc_mono
  call_readFieldValue_mono mono_until_ENDBLOCKDATA : mono.

Lemma mono_readClassAnnotation : mono AtMostOne (readClassAnnotation w) Nothing.
Proof. unfold readClassAnnotation. mono_auto. Qed.

Lemma mono_readSuperClassDesc : mono AtMostOne (readSuperClassDesc w) Nothing.
Proof. unfold readSuperClassDesc. mono_auto. Qed.

#[local] Hint Resolve mono_readClassAnnotation mono_readSuperClassDesc : mono.

Lemma mono_readClassDescInfo (cdd : ClassDataDesc) :
  mono Nothing (readClassDescInfo w cdd) Nothing.
Proof. unfold readClassDescInfo. mono_auto. Qed.

#[local] Hint Resolve mono_readClassDescInfo : mono.

Lemma mono_readTC_CLASSDESC : mono AtMostOne (readTC_CLASSDESC w) Nothing.
Proof. unfold readTC_CLASSDESC. mono_auto. Qed.

Lemma mono_readProxyClassDescInfo (cdd : ClassDataDesc) :
  mono Nothing (readProxyClassDescInfo w cdd) Nothing.
Proof.
  unfold readProxyClassDescInfo.
  do 5 (eapply mono_bind; [mono_leaf | intros]).
  eapply (mono_bind Nothing Nothing); [| intros; mono_auto].
  apply mono_repeat_n. mono_auto.
Qed.

#[local] Hint Resolve mono_readTC_CLASSDESC mono_readProxyClassDescInfo : mono.

Lemma mono_readTC_PROXYCLASSDESC : mono AtMostOne (readTC_PROXYCLASSDESC w) Nothing.
Proof. unfold readTC_PROXYCLASSDESC. mono_auto. Qed.

#[local] Hint Resolve mono_readTC_PROXYCLASSDESC : mono.

Lemma mono_readNewClassDesc : mono AtMostOne (readNewClassDesc w) Nothing.
Proof. unfold readNewClassDesc. mono_auto. Qed.

#[local] Hint Resolve mono_readNewClassDesc : mono.

Lemma mono_readClassDesc : mono AtMostOne (readClassDesc w) Nothing.
Proof. unfold readClassDesc. mono_auto. Qed.

#[local] Hint Resolve mono_readClassDesc : mono.

Lemma mono_readNewEnum : mono AtMostOne (readNewEnum w) Nothing.
Proof. unfold readNewEnum. mono_auto. Qed.

Lemma mono_readNewClass : mono AtMostOne (readNewClass w) Nothing.
Proof. unfold readNewClass. mono_auto. Qed.

Lemma mono_readNewArray : mono AtMostOne (readNewArray w) Nothing.
Proof.
  unfold readNewArray.
  do 3 (eapply mono_bind; [mono_leaf | intros]).
  destruct a1 as [cdd |]; [| apply mono_panic].
  destruct (negb _); [apply mono_panic |].
  eapply mono_bind; [mono_leaf | intros cd].
  destruct cd as [cd |]; [| apply mono_panic].
  eapply mono_bind; [mono_leaf | intros c].
  destruct (negb _); [apply mono_panic |].
  do 6 (eapply mono_bind; [mono_leaf | intros]).
  eapply (mono_bind Nothing Nothing); [| intros; mono_auto].
  apply mono_repeat_n. mono_auto.
Qed.

Lemma mono_readClassDataField (cf : ClassField) :
  mono Nothing (readClassDataField w cf) Nothing.
Proof. unfold readClassDataField. mono_auto. Qed.

#[local] Hint Resolve mono_readNewEnum mono_readNewClass mono_readNewArray
  mono_readClassDataField : mono.

Lemma mono_readClassData (cdd : option ClassDataDesc) :
  mono Nothing (readClassData w cdd) Nothing.
Proof.
  unfold readClassData.
  eapply mono_bind; [mono_leaf | intros _].
  eapply (mono_bind Nothing Nothing); [| intros; mono_auto].
  destruct cdd as [cdd |]; [| mono_auto].
  apply mono_for_each. intros cd.
  eapply mono_bind; [mono_leaf | intros _].
  eapply (mono_bind Nothing Nothing).
  { destruct (isSC_SERIALIZABLE cd); [| mono_auto].
    eapply mono_bind; [mono_leaf | intros _].
    eapply (mono_bind Nothing Nothing); [| intros; mono_auto].
    apply mono_for_each. intros cf. mono_leaf. }
  intros _. mono_auto.
Qed.

#[local] Hint Resolve mono_readClassData : mono.

Lemma mono_readNewObject : mono AtMostOne (readNewObject w) Nothing.
Proof. unfold readNewObject. mono_auto. Qed.

#[local] Hint Resolve mono_readNewObject : mono.

Lemma mono_readArrayField : mono Nothing (readArrayField w) Nothing.
Proof.
  unfold readArrayField.
  eapply mono_bind; [mono_leaf | intros _].
  eapply mono_bind; [mono_leaf | intros b].
  eapply (mono_bind AtMostOne Nothing); [| intros; mono_auto].
  mono_auto.
Qed.

Lemma mono_readObjectField : mono Nothing (readObjectField w) Nothing.
Proof.
  unfold readObjectField.
  eapply mono_bind; [mono_leaf | intros _].
  eapply mono_bind; [mono_leaf | intros b].
  eapply (mono_bind AtMostOne Nothing); [| intros; mono_auto].
  mono_auto.
Qed.

#[local] Hint Resolve mono_readArrayField mono_readObjectField : mono.

Lemma mono_readFieldValue (typeCode : byte) :
  mono Nothing (readFieldValue w typeCode) Nothing.
Proof. unfold readFieldValue. destruct typeCode; mono_auto. Qed.

Lemma mono_readContentElement : mono AtMostOne (readContentElement w) AtMostOne.
Proof. unfold readContentElement. mono_auto. Qed.

End DescentReach.

Lemma walker_is_mono (fuel : nat) : walker_mono (walker fuel).
Proof.
  induction fuel as [| fuel IH].
  - repeat split; intros; apply mono_out_of_fuel.
  - destruct IH as (Hce & Hcd & Hfv). cbn [walker]. repeat split; cbn.
    + apply mono_readContentElement; assumption.
    + apply mono_readClassDesc; assumption.
    + intros tc. apply mono_readFieldValue; assumption.
Qed.

(** The loop over the content elements does not depend on the bound, as
    long as both bounds are above [reach]. *)
Lemma parseStream_contents_bound (w : Walker) (m1 m2 : Z) (n : nat) :
  walker_mono w ->
  forall s, look AtMostOne s -> reach s < m1 -> reach s < m2 ->
    parseStream_contents m1 w n s = parseStream_contents m2 w n s.
Proof.
  intros (Hce & Hcd & Hfv).
  induction n as [| n IH]; intros s Hs H1 H2; [reflexivity |].
  cbn [parseStream_contents]. unfold bind at 1 3. unfold size.
  pose proof (nPos_le_reach s) as Hn.
  destruct (Z.gtb_spec (m1 - nPos (_data s)) 0) as [_ | Hle]; [| lia].
  destruct (Z.gtb_spec (m2 - nPos (_data s)) 0) as [_ | Hle]; [| lia].
  unfold bind.
  pose proof (mono_readContentElement w Hce Hcd Hfv s Hs) as Hm.
  destruct (readContentElement w s) as [[err s'] | |]; try reflexivity.
  destruct Hm as [Hr Hs'].
  destruct err as [e |]; [reflexivity |].
  apply IH; [exact Hs' | lia | lia].
Qed.

Lemma parseStream_plain (mx : Z) (fuel : nat) (rest : list byte) :
  parseStream mx fuel (NewSerializedObjectParser (xac :: xed :: x00 :: x05 :: rest))
  = (let* _ := parseStream_contents mx (walker fuel) fuel in decreaseIndent)
      (after_prelude rest).
Proof. reflexivity. Qed.

Lemma parseStream_rmi_byte_takes (p : byte) (rest : list byte) :
  Byte.eqb p STREAM_MAGIC1 = false ->
  parseStream_rmi_byte (NewSerializedObjectParser (p :: rest))
  = Done (tt, mkParser rest [] 0x7e0000 "" [] (mkSmooth 1 [])
                (mkSerObject 0 x00 x00)).
Proof.
  intros Hp. unfold parseStream_rmi_byte. unfold bind at 1.
  rewrite (peek_from_reader _ p rest) by reflexivity.
  rewrite Hp. cbn [negb]. unfold bind.
  rewrite (pop_from_lookahead _ p []) by reflexivity.
  reflexivity.
Qed.

Lemma parseStream_framed (mx : Z) (fuel : nat) (p : byte) (rest : list byte) :
  Byte.eqb p STREAM_MAGIC1 = false ->
  parseStream mx fuel
    (NewSerializedObjectParser (p :: xac :: xed :: x00 :: x05 :: rest))
  = (let* _ := parseStream_contents mx (walker fuel) fuel in decreaseIndent)
      (after_prelude rest).
Proof.
  intros Hp. unfold parseStream. unfold bind at 1.
  rewrite (parseStream_rmi_byte_takes p _ Hp). reflexivity.
Qed.

(** C9 (as amended).  Every leading byte other than [0xAC], the RMI bytes
    [0x50] ... [0x54] among them, is taken out of the input before the magic
    is checked, and no error is raised for it; parsing such a byte followed
    by [AC ED 00 05] and the rest of the stream gives the same result as
    parsing the stream without it: [parseStream] ends in the same way and
    with the same reader, cursor, handle counter and class descriptions
    (only the bound [maxDataBlockSize] it was started with is one larger,
    and the trace has one more line), hence [ParseSerializedObject] gives
    the same answer, for every bound on the number of steps. *)
Theorem C9_leading_byte_is_skipped (p : byte) (rest : list byte) (fuel : nat) :
  Byte.eqb p STREAM_MAGIC1 = false ->
  parseStream_rmi_byte
    (NewSerializedObjectParser (p :: xac :: xed :: x00 :: x05 :: rest))
  = Done (tt, mkParser (xac :: xed :: x00 :: x05 :: rest) [] 0x7e0000 "" []
                (mkSmooth 1 []) (mkSerObject 0 x00 x00))
  /\ parseStream (Z.of_nat (length (p :: xac :: xed :: x00 :: x05 :: rest))) fuel
       (NewSerializedObjectParser (p :: xac :: xed :: x00 :: x05 :: rest))
     = parseStream (Z.of_nat (length (xac :: xed :: x00 :: x05 :: rest))) fuel
         (NewSerializedObjectParser (xac :: xed :: x00 :: x05 :: rest))
  /\ ParseSerializedObject fuel (p :: xac :: xed :: x00 :: x05 :: rest)
     = ParseSerializedObject fuel (xac :: xed :: x00 :: x05 :: rest).
Proof.
  intros Hp.
  assert (Hsame :
    parseStream (Z.of_nat (length (p :: xac :: xed :: x00 :: x05 :: rest))) fuel
      (NewSerializedObjectParser (p :: xac :: xed :: x00 :: x05 :: rest))
    = parseStream (Z.of_nat (length (xac :: xed :: x00 :: x05 :: rest))) fuel
        (NewSerializedObjectParser (xac :: xed :: x00 :: x05 :: rest))).
  { rewrite parseStream_framed by exact Hp. rewrite parseStream_plain.
    unfold bind.
    rewrite (parseStream_contents_bound (walker fuel)
               (Z.of_nat (length (p :: xac :: xed :: x00 :: x05 :: rest)))
               (Z.of_nat (length (xac :: xed :: x00 :: x05 :: rest))) fuel
               (walker_is_mono fuel) (after_prelude rest)).
    - reflexivity.
    - simpl. lia.
    - unfold reach, nonzero_count. cbn [after_prelude _data nPos data rd length List.filter].
      cbn [length]. lia.
    - unfold reach, nonzero_count. cbn [after_prelude _data nPos data rd length List.filter].
      cbn [length]. lia. }
  split; [exact (parseStream_rmi_byte_takes p _ Hp) |].
  split; [exact Hsame |].
  unfold ParseSerializedObject. cbv zeta. rewrite Hsame. reflexivity.
Qed.

(** The RMI byte [0x50] in front of a stream with one null element. *)
Lemma C9_leading_byte_is_skipped_witness :
  parseStream_rmi_byte (NewSerializedObjectParser [x50; xac; xed; x00; x05; x70])
  = Done (tt, mkParser [xac; xed; x00; x05; x70] [] 0x7e0000 "" []
                (mkSmooth 1 []) (mkSerObject 0 x00 x00))
  /\ parseStream 6 2 (NewSerializedObjectParser [x50; xac; xed; x00; x05; x70])
     = parseStream 5 2 (NewSerializedObjectParser [xac; xed; x00; x05; x70])
  /\ ParseSerializedObject 2 [x50; xac; xed; x00; x05; x70]
     = ParseSerializedObject 2 [xac; xed; x00; x05; x70].
Proof.
  apply (C9_leading_byte_is_skipped x50 [x70] 2). reflexivity.
Defined.

(** C9 (counterexample to the claim as stated).  The leading byte [0x00]
    is neither an RMI byte nor the magic.  As the claim words it, it stays
    in the input; [parseStream] takes it out, and then accepts the magic
    that follows and reads the stream to its end. *)
Lemma C9_counterexample :
  is_rmi_byte x00 = false
  /\ Byte.eqb x00 STREAM_MAGIC1 = false
  /\ spec_rmi_byte (NewSerializedObjectParser [x00; xac; xed; x00; x05; x70])
     = Done (tt, mkParser [xac; xed; x00; x05; x70] [] 0x7e0000 "" []
                   (mkSmooth 0 [x00]) (mkSerObject 0 x00 x00))
  /\ parseStream_rmi_byte (NewSerializedObjectParser [x00; xac; xed; x00; x05; x70])
     = Done (tt, mkParser [xac; xed; x00; x05; x70] [] 0x7e0000 "" []
                   (mkSmooth 1 []) (mkSerObject 0 x00 x00))
  /\ parseStream 6 2 (NewSerializedObjectParser [x00; xac; xed; x00; x05; x70])
     = Done (tt, mkParser [] [] 0x7e0000 "" [] (mkSmooth 2 [x00])
                   (mkSerObject 0 x00 x00)).
Proof. repeat split. Qed.

(** * Further properties of the code *)

(** ** Class data descriptions (ClassDetailsImp.go) *)

Lemma update_last_snoc {A : Type} (f : A -> Outcome A) (l : list A) (x y : A) :
  f x = Done y -> update_last f (l ++ [x]) = Done (l ++ [y]).
Proof.
  intros Hf. unfold update_last. rewrite rev_app_distr. simpl.
  rewrite Hf, rev_involutive. reflexivity.
Qed.

Lemma update_last_nil {A : Type} (f : A -> Outcome A) :
  update_last f [] = Panic index_out_of_range.
Proof. reflexivity. Qed.

Lemma getClassDetails_app_left (l1 l2 : list ClassDetails) (i : Z) :
  0 <= i < Z.of_nat (length l1) ->
  getClassDetails i (mkClassDataDesc (l1 ++ l2))
  = getClassDetails i (mkClassDataDesc l1).
Proof.
  intros Hi. unfold getClassDetails. cbn [_classDetails].
  rewrite length_app.
  destruct (Z.geb_spec i (Z.of_nat (length l1 + length l2))) as [H | _]; [lia |].
  destruct (Z.geb_spec i (Z.of_nat (length l1))) as [H | _]; [lia |].
  destruct (Z.ltb_spec i 0) as [H | _]; [lia |].
  rewrite nth_error_app1 by lia. reflexivity.
Qed.

Lemma getClassDetails_app_right (l1 l2 : list ClassDetails) (i : Z) :
  Z.of_nat (length l1) <= i ->
  getClassDetails i (mkClassDataDesc (l1 ++ l2))
  = getClassDetails (i - Z.of_nat (length l1)) (mkClassDataDesc l2).
Proof.
  intros Hi. unfold getClassDetails. cbn [_classDetails].
  rewrite length_app.
  destruct (Z.geb_spec i (Z.of_nat (length l1 + length l2))) as [H | H];
    destruct (Z.geb_spec (i - Z.of_nat (length l1)) (Z.of_nat (length l2)))
      as [H' | H']; try lia; [reflexivity |].
  destruct (Z.ltb_spec i 0) as [H0 | _]; [lia |].
  destruct (Z.ltb_spec (i - Z.of_nat (length l1)) 0) as [H0 | _]; [lia |].
  rewrite nth_error_app2 by lia. f_equal. f_equal. lia.
Qed.

(** A class added by name and given its handle is the last class of the
    description, found again by [getClassDetails] with the handle and with
    no flags and no fields; the classes before it are as they were. *)
Theorem addClass_setLastClassHandle_lookup (cdd : ClassDataDesc)
  (className : string) (handle : Z) :
  exists cdd',
    setLastClassHandle handle (addClass className cdd) = Done cdd'
    /\ getClassCount cdd' = getClassCount cdd + 1
    /\ getClassDetails (getClassCount cdd) cdd'
       = Done (Some (mkClassDetails className handle x00 []))
    /\ forall i, 0 <= i < getClassCount cdd ->
         getClassDetails i cdd' = getClassDetails i cdd.
Proof.
  destruct cdd as [l]. unfold setLastClassHandle, on_last_class, addClass.
  cbn [_classDetails].
  rewrite (update_last_snoc _ l (NewClassDetails className)
             (setHandle handle (NewClassDetails className))) by reflexivity.
  eexists. split; [reflexivity |]. unfold getClassCount. cbn [_classDetails].
  split; [rewrite length_app; simpl; lia |]. split.
  - rewrite getClassDetails_app_right by lia.
    rewrite Z.sub_diag. reflexivity.
  - intros i Hi. apply getClassDetails_app_left. exact Hi.
Qed.

(** The setters that write to "the last class" panic on a description
    without classes, and the setters of "the last field" panic on a class
    that was just added, which has no field yet. *)
Theorem setLast_without_target_panics (cdd : ClassDataDesc) (className name : string)
  (handle : Z) (b : byte) :
  setLastClassHandle handle NewClassDataDesc = Panic index_out_of_range
  /\ setLastClassDescFlags b NewClassDataDesc = Panic index_out_of_range
  /\ addFieldToLastClass b NewClassDataDesc = Panic index_out_of_range
  /\ setLastFieldName name (addClass className cdd) = Panic index_out_of_range
  /\ setLastFieldClassName1 name (addClass className cdd) = Panic index_out_of_range.
Proof.
  repeat split; try reflexivity.
  - destruct cdd as [l]. unfold setLastFieldName, on_last_class, addClass, update_last.
    cbn [_classDetails]. rewrite rev_app_distr. reflexivity.
  - destruct cdd as [l]. unfold setLastFieldClassName1, on_last_class, addClass,
      update_last.
    cbn [_classDetails]. rewrite rev_app_distr. reflexivity.
Qed.

(** A field is described in three steps: its type code is added to the
    last class, then its name and the name of its class are set.  The last
    class ends with exactly that field after its earlier fields, and no
    other class changes. *)
Theorem field_description_round_trip (before : list ClassDetails) (cd : ClassDetails)
  (typeCode : byte) (name cn1 : string) :
  let cdd := mkClassDataDesc (before ++ [cd]) in
  exists c1 c2 c3,
    addFieldToLastClass typeCode cdd = Done c1
    /\ setLastFieldName name c1 = Done c2
    /\ setLastFieldClassName1 cn1 c2 = Done c3
    /\ c3 = mkClassDataDesc
              (before ++ [mkClassDetails (_className cd) (_refHandle cd)
                            (_classDescFlags cd)
                            (getFields cd ++ [mkClassField typeCode name cn1])]).
Proof.
  cbv zeta.
  unfold addFieldToLastClass, setLastFieldName, setLastFieldClassName1, on_last_class.
  cbn [_classDetails].
  rewrite (update_last_snoc _ before cd (addField (NewClassField typeCode) cd))
    by reflexivity.
  eexists. eexists. eexists. split; [reflexivity |]. cbn [_classDetails].
  erewrite (update_last_snoc _ before (addField (NewClassField typeCode) cd)).
  2: { unfold setLastFieldName_cd, addField. cbn [_fieldDescriptions].
       rewrite (update_last_snoc _ (_fieldDescriptions cd) (NewClassField typeCode)
                  (setName name (NewClassField typeCode))) by reflexivity.
       reflexivity. }
  split; [reflexivity |]. cbn [_classDetails].
  erewrite (update_last_snoc _ before).
  2: { unfold setLastFieldClassName1_cd. cbn [_fieldDescriptions].
       rewrite (update_last_snoc _ (_fieldDescriptions cd)
                  (setName name (NewClassField typeCode))
                  (setClassName1 cn1 (setName name (NewClassField typeCode))))
         by reflexivity.
       reflexivity. }
  split; reflexivity.
Qed.

(** [addSuperClassDesc] puts the classes of the super description behind
    those of the description: the counts add up, the own classes keep
    their indices and the super classes are found after them; a nil super
    description changes nothing. *)
Theorem addSuperClassDesc_lookup (this scdd : ClassDataDesc) :
  getClassCount (addSuperClassDesc (Some scdd) this)
  = getClassCount this + getClassCount scdd
  /\ (forall i, 0 <= i < getClassCount this ->
        getClassDetails i (addSuperClassDesc (Some scdd) this)
        = getClassDetails i this)
  /\ (forall i, getClassCount this <= i ->
        getClassDetails i (addSuperClassDesc (Some scdd) this)
        = getClassDetails (i - getClassCount this) scdd)
  /\ addSuperClassDesc None this = this.
Proof.
  destruct this as [l1], scdd as [l2].
  unfold addSuperClassDesc, GetClassDataDesc, getClassCount. cbn [_classDetails].
  split; [rewrite length_app; lia |].
  split; [intros i Hi; apply getClassDetails_app_left; exact Hi |].
  split; [intros i Hi; apply getClassDetails_app_right; exact Hi | reflexivity].
Qed.

(** ** What the walker leaves alone *)

Lemma walker_step_refl (s : SerializedObjectParser) : walker_step s s.
Proof.
  repeat split; try lia. exists []. rewrite app_nil_r. reflexivity.
Qed.

Lemma walker_step_trans (s1 s2 s3 : SerializedObjectParser) :
  walker_step s1 s2 -> walker_step s2 s3 -> walker_step s1 s3.
Proof.
  intros (Hh & Hso & Hv & a & Ha) (Hh' & Hso' & Hv' & a' & Ha').
  repeat split; try congruence; try lia.
  exists (a ++ a'). rewrite Ha', Ha, app_assoc. reflexivity.
Qed.

(** A change of the reader, the cursor or the indentation only. *)
Lemma walker_step_same (s s' : SerializedObjectParser) :
  handles s' = handles s -> so s' = so s -> _handleValue s' = _handleValue s ->
  _classDataDescriptions s' = _classDataDescriptions s ->
  walker_step s s'.
Proof.
  intros Hh Hso Hv Hc. repeat split; try assumption; try lia.
  exists []. rewrite app_nil_r. exact Hc.
Qed.

Lemma keeps_ret {A : Type} (a : A) : keeps (ret a).
Proof. intros s. apply walker_step_refl. Qed.

Lemma keeps_bind {A B : Type} (m : M A) (k : A -> M B) :
  keeps m -> (forall a, keeps (k a)) -> keeps (bind m k).
Proof.
  intros Hm Hk s. unfold bind. specialize (Hm s).
  destruct (m s) as [[a s'] | |]; [| exact I | exact I].
  specialize (Hk a s').
  destruct (k a s') as [[b s''] | |]; [| exact I | exact I].
  exact (walker_step_trans s s' s'' Hm Hk).
Qed.

Lemma keeps_panic {A : Type} (msg : string) : keeps (@panic A msg).
Proof. intros s. exact I. Qed.

Lemma keeps_out_of_fuel {A : Type} : keeps (@out_of_fuel A).
Proof. intros s. exact I. Qed.

Lemma keeps_lift {A : Type} (o : Outcome A) : keeps (lift o).
Proof.
  intros s. unfold lift. destruct o; [apply walker_step_refl | exact I | exact I].
Qed.

Lemma keeps_get_state : keeps get_state.
Proof. intros s. apply walker_step_refl. Qed.

Lemma keeps_increaseIndent : keeps increaseIndent.
Proof. intros s. apply walker_step_same; reflexivity. Qed.

Lemma keeps_decreaseIndent : keeps decreaseIndent.
Proof.
  intros s. unfold decreaseIndent.
  destruct (String.length (_indent s) <? 2)%nat; [exact I |].
  apply walker_step_same; reflexivity.
Qed.

Lemma keeps_newHandle1 : keeps newHandle1.
Proof.
  intros s. unfold newHandle1. repeat split; simpl; try lia.
  exists []. rewrite app_nil_r. reflexivity.
Qed.

Lemma keeps_record_description (cdd : ClassDataDesc) : keeps (record_description cdd).
Proof.
  intros s. unfold record_description, modify. repeat split; simpl; try lia.
  exists [cdd]. reflexivity.
Qed.

Lemma keeps_pop : keeps pop.
Proof.
  intros s. destruct (data (_data s)) as [| b d] eqn:Hd.
  - destruct (rd s) as [| b r] eqn:Hrd.
    + rewrite (pop_at_eof s Hrd Hd). apply walker_step_refl.
    + rewrite (pop_from_reader s b r Hrd Hd). apply walker_step_same; reflexivity.
  - rewrite (pop_from_lookahead s b d Hd). apply walker_step_same; reflexivity.
Qed.

Lemma keeps_peek : keeps peek.
Proof.
  intros s. destruct (data (_data s)) as [| b d] eqn:Hd.
  - destruct (rd s) as [| b r] eqn:Hrd.
    + rewrite (peek_at_eof s Hrd Hd). apply walker_step_same; reflexivity.
    + rewrite (peek_from_reader s b r Hrd Hd). apply walker_step_same; reflexivity.
  - rewrite (peek_from_lookahead s b d Hd). apply walker_step_refl.
Qed.

Lemma keeps_iterate_n {A : Type} (body : A -> M A) (n : nat) :
  (forall a, keeps (body a)) -> forall a, keeps (iterate_n n body a).
Proof.
  intros Hb. induction n as [| n IH]; intros a; simpl.
  - apply keeps_ret.
  - apply keeps_bind; [apply Hb | exact IH].
Qed.

Lemma keeps_repeat_n (body : M unit) (n : nat) :
  keeps body -> keeps (repeat_n n body).
Proof. intros Hb. unfold repeat_n. apply keeps_iterate_n. intros _. exact Hb. Qed.

Lemma keeps_for_each {A : Type} (body : A -> M unit) (l : list A) :
  (forall a, keeps (body a)) -> keeps (for_each l body).
Proof.
  intros Hb. induction l as [| x l IH]; simpl.
  - apply keeps_ret.
  - apply keeps_bind; [apply Hb | intros _; exact IH].
Qed.

Lemma keeps_until_ENDBLOCKDATA (body : M (option error)) (n : nat) :
  keeps body -> keeps (until_ENDBLOCKDATA n body).
Proof.
  intros Hb. induction n as [| n IH]; simpl; [apply keeps_out_of_fuel |].
  apply keeps_bind; [apply keeps_peek | intros x].
  destruct (Byte.eqb x TC_ENDBLOCKDATA); [apply keeps_ret |].
  apply keeps_bind; [exact Hb | intros _; exact IH].
Qed.

Create HintDb keeps.

#[local] Hint Resolve keeps_ret keeps_panic keeps_out_of_fuel keeps_lift
  keeps_get_state keeps_increaseIndent keeps_decreaseIndent keeps_newHandle1
  keeps_record_description keeps_pop keeps_peek : keeps.

(** Walks down a chain of binds and branches; the calls are closed with
    the lemmas of the hint database. *)
Ltac keeps_auto :=
  lazymatch goal with
  | |- keeps (bind _ _) =>
      apply keeps_bind; [ keeps_auto | intros; keeps_auto ]
  | |- keeps (if ?c then _ else _) => destruct c; keeps_auto
  | |- keeps (iterate_n _ _ _) => apply keeps_iterate_n; intros; keeps_auto
  | |- keeps (repeat_n _ _) => apply keeps_repeat_n; keeps_auto
  | |- keeps (for_each _ _) => apply keeps_for_each; intros; keeps_auto
  | |- keeps (until_ENDBLOCKDATA _ _) => apply keeps_until_ENDBLOCKDATA; keeps_auto
  | |- keeps (match ?x with _ => _ end) => destruct x; keeps_auto
  | |- _ => first [ solve [eauto 2 with keeps] | idtac ]
  end.

Lemma keeps_expect (tag : byte) (msg : string) : keeps (expect tag msg).
Proof. unfold expect. keeps_auto. Qed.

Lemma keeps_read_chars (n : nat) : keeps (read_chars n).
Proof. unfold read_chars. keeps_auto. Qed.

#[local] Hint Resolve keeps_expect keeps_read_chars : keeps.

Lemma keeps_readUtf : keeps readUtf.
Proof. unfold readUtf. keeps_auto. Qed.

Lemma keeps_readLongUtf : keeps readLongUtf.
Proof. unfold readLongUtf. keeps_auto. Qed.

#[local] Hint Resolve keeps_readUtf keeps_readLongUtf : keeps.

Lemma keeps_readTC_STRING : keeps readTC_STRING.
Proof. unfold readTC_STRING. keeps_auto. Qed.

Lemma keeps_readTC_LONGSTRING : keeps readTC_LONGSTRING.
Proof. unfold readTC_LONGSTRING. keeps_auto. Qed.

Lemma keeps_readPrevObject : keeps readPrevObject.
Proof. unfold readPrevObject. keeps_auto. Qed.

Lemma keeps_readNullReference : keeps readNullReference.
Proof. unfold readNullReference. keeps_auto. Qed.

Lemma keeps_readException : keeps readException.
Proof. unfold readException. keeps_auto. Qed.

Lemma keeps_handleReset : keeps handleReset.
Proof. unfold handleReset. keeps_auto. Qed.

Lemma keeps_readBlockData : keeps readBlockData.
Proof. unfold readBlockData. keeps_auto. Qed.

Lemma keeps_readLongBlockData : keeps readLongBlockData.
Proof. unfold readLongBlockData. keeps_auto. Qed.

#[local] Hint Resolve keeps_readTC_STRING keeps_readTC_LONGSTRING
  keeps_readPrevObject keeps_readNullReference keeps_readException
  keeps_handleReset keeps_readBlockData keeps_readLongBlockData : keeps.

Lemma keeps_readNewString : keeps readNewString.
Proof. unfold readNewString. keeps_auto. Qed.

#[local] Hint Resolve keeps_readNewString : keeps.

Lemma keeps_readFieldDesc (cdd : ClassDataDesc) : keeps (readFieldDesc cdd).
Proof. unfold readFieldDesc. keeps_auto. Qed.

#[local] Hint Resolve keeps_readFieldDesc : keeps.

Lemma keeps_readFields (cdd : ClassDataDesc) : keeps (readFields cdd).
Proof. unfold readFields. keeps_auto. Qed.

Lemma keeps_readByteField : keeps readByteField.
Proof. unfold readByteField. keeps_auto. Qed.
Lemma keeps_readCharField : keeps readCharField.
Proof. unfold readCharField. keeps_auto. Qed.
Lemma keeps_readFloatField : keeps readFloatField.
Proof. unfold readFloatField. keeps_auto. Qed.
Lemma keeps_readIntField : keeps readIntField.
Proof. unfold readIntField. keeps_auto. Qed.
Lemma keeps_readLongField : keeps readLongField.
Proof. unfold readLongField. keeps_auto. Qed.
Lemma keeps_readShortField : keeps readShortField.
Proof. unfold readShortField. keeps_auto. Qed.
Lemma keeps_readBooleanField : keeps readBooleanField.
Proof. unfold readBooleanField. keeps_auto. Qed.
Lemma keeps_readDoubleField : keeps readDoubleField.
Proof. unfold readDoubleField. keeps_auto. Qed.

#[local] Hint Resolve keeps_readFields keeps_readByteField keeps_readCharField
  keeps_readFloatField keeps_readIntField keeps_readLongField keeps_readShortField
  keeps_readBooleanField keeps_readDoubleField : keeps.

Section DescentKeeps.

Variable w : Walker.
Hypothesis call_readContentElement_keeps : keeps (call_readContentElement w).
Hypothesis call_readClassDesc_keeps : keeps (call_readClassDesc w).
Hypothesis call_readFieldValue_keeps : forall tc, keeps (call_readFieldValue w tc).

#[local] Hint Resolve call_readContentElement_keeps call_readClassDesc_keeps
  call_readFieldValue_keeps : keeps.

Lemma keeps_readClassAnnotation : keeps (readClassAnnotation w).
Proof. unfold readClassAnnotation. keeps_auto. Qed.

Lemma keeps_readSuperClassDesc : keeps (readSuperClassDesc w).
Proof. unfold readSuperClassDesc. keeps_auto. Qed.

#[local] Hint Resolve keeps_readClassAnnotation keeps_readSuperClassDesc : keeps.

Lemma keeps_readClassDescInfo (cdd : ClassDataDesc) : keeps (readClassDescInfo w cdd).
Proof. unfold readClassDescInfo. keeps_auto. Qed.

#[local] Hint Resolve keeps_readClassDescInfo : keeps.

Lemma keeps_readTC_CLASSDESC : keeps (readTC_CLASSDESC w).
Proof. unfold readTC_CLASSDESC. keeps_auto. Qed.

Lemma keeps_readProxyClassDescInfo (cdd : ClassDataDesc) :
  keeps (readProxyClassDescInfo w cdd).
Proof. unfold readProxyClassDescInfo. keeps_auto. Qed.

#[local] Hint Resolve keeps_readTC_CLASSDESC keeps_readProxyClassDescInfo : keeps.

Lemma keeps_readTC_PROXYCLASSDESC : keeps (readTC_PROXYCLASSDESC w).
Proof. unfold readTC_PROXYCLASSDESC. keeps_auto. Qed.

#[local] Hint Resolve keeps_readTC_PROXYCLASSDESC : keeps.

Lemma keeps_readNewClassDesc : keeps (readNewClassDesc w).
Proof. unfold readNewClassDesc. keeps_auto. Qed.

#[local] Hint Resolve keeps_readNewClassDesc : keeps.

Lemma keeps_readClassDesc : keeps (readClassDesc w).
Proof. unfold readClassDesc. keeps_auto. Qed.

#[local] Hint Resolve keeps_readClassDesc : keeps.

Lemma keeps_readNewEnum : keeps (readNewEnum w).
Proof. unfold readNewEnum. keeps_auto. Qed.

Lemma keeps_readNewClass : keeps (readNewClass w).
Proof. unfold readNewClass. keeps_auto. Qed.

Lemma keeps_readNewArray : keeps (readNewArray w).
Proof. unfold readNewArray. keeps_auto. Qed.

Lemma keeps_readClassDataField (cf : ClassField) : keeps (readClassDataField w cf).
Proof. unfold readClassDataField. keeps_auto. Qed.

#[local] Hint Resolve keeps_readNewEnum keeps_readNewClass keeps_readNewArray
  keeps_readClassDataField : keeps.

Lemma keeps_readClassData (cdd : option ClassDataDesc) : keeps (readClassData w cdd).
Proof. unfold readClassData. keeps_auto. Qed.

#[local] Hint Resolve keeps_readClassData : keeps.

Lemma keeps_readNewObject : keeps (readNewObject w).
Proof. unfold readNewObject. keeps_auto. Qed.

#[local] Hint Resolve keeps_readNewObject : keeps.

Lemma keeps_readArrayField : keeps (readArrayField w).
Proof. unfold readArrayField. keeps_auto. Qed.

Lemma keeps_readObjectField : keeps (readObjectField w).
Proof. unfold readObjectField. keeps_auto. Qed.

#[local] Hint Resolve keeps_readArrayField keeps_readObjectField : keeps.

Lemma keeps_readFieldValue (typeCode : byte) : keeps (readFieldValue w typeCode).
Proof. unfold readFieldValue. destruct typeCode; keeps_auto. Qed.

Lemma keeps_readContentElement : keeps (readContentElement w).
Proof. unfold readContentElement. keeps_auto. Qed.

End DescentKeeps.

Lemma walker_is_keeping (fuel : nat) : walker_keeps (walker fuel).
Proof.
  induction fuel as [| fuel IH].
  - repeat split; intros; apply keeps_out_of_fuel.
  - destruct IH as (Hce & Hcd & Hfv). cbn [walker]. repeat split; cbn.
    + apply keeps_readContentElement; assumption.
    + apply keeps_readClassDesc; assumption.
    + intros tc. apply keeps_readFieldValue; assumption.
Qed.

(** ** The walker behind the two entry points *)

Lemma keeps_walker_readContentElement (fuel : nat) :
  keeps (readContentElement (walker fuel)).
Proof.
  destruct (walker_is_keeping fuel) as (H1 & H2 & H3).
  apply keeps_readContentElement; assumption.
Qed.

Lemma keeps_walker_readNewClassDesc (fuel : nat) :
  keeps (readNewClassDesc (walker fuel)).
Proof.
  destruct (walker_is_keeping fuel) as (H1 & H2 & H3).
  apply keeps_readNewClassDesc; assumption.
Qed.

Lemma keeps_walker_readNewObject (fuel : nat) :
  keeps (readNewObject (walker fuel)).
Proof.
  destruct (walker_is_keeping fuel) as (H1 & H2 & H3).
  apply keeps_readNewObject; assumption.
Qed.

Lemma keeps_walker_readNewArray (fuel : nat) :
  keeps (readNewArray (walker fuel)).
Proof.
  destruct (walker_is_keeping fuel) as (H1 & H2 & H3).
  apply keeps_readNewArray; assumption.
Qed.

Lemma keeps_walker_readNewClass (fuel : nat) :
  keeps (readNewClass (walker fuel)).
Proof.
  destruct (walker_is_keeping fuel) as (H1 & H2 & H3).
  apply keeps_readNewClass; assumption.
Qed.

Lemma keeps_walker_readNewEnum (fuel : nat) :
  keeps (readNewEnum (walker fuel)).
Proof.
  destruct (walker_is_keeping fuel) as (H1 & H2 & H3).
  apply keeps_readNewEnum; assumption.
Qed.

#[local] Hint Resolve keeps_walker_readContentElement keeps_walker_readNewClassDesc
  keeps_walker_readNewObject keeps_walker_readNewArray keeps_walker_readNewClass
  keeps_walker_readNewEnum : keeps.

Lemma keeps_size (mx : Z) : keeps (size mx).
Proof. intros s. apply walker_step_refl. Qed.

#[local] Hint Resolve keeps_size : keeps.

Lemma keeps_parseStream_contents (mx : Z) (walk n : nat) :
  keeps (parseStream_contents mx (walker walk) n).
Proof.
  induction n as [| n IH]; cbn [parseStream_contents]; keeps_auto.
Qed.

Lemma keeps_parseStream_rmi_byte : keeps parseStream_rmi_byte.
Proof. unfold parseStream_rmi_byte. keeps_auto. Qed.

#[local] Hint Resolve keeps_parseStream_contents keeps_parseStream_rmi_byte : keeps.

Lemma keeps_parseStream (mx : Z) (fuel : nat) : keeps (parseStream mx fuel).
Proof. unfold parseStream. keeps_auto. Qed.

(** The tracing walker never writes the handle table and the recorded
    stream header.  A run of [parseStream] that returns, from any state and
    with any bound, leaves [handles] and [so] as they were; the handle
    counter has not gone down and the class descriptions recorded before
    are still there, in front of the new ones. *)
Theorem parseStream_leaves_the_handle_table (mx : Z) (fuel : nat)
  (s s' : SerializedObjectParser) :
  parseStream mx fuel s = Done (tt, s') ->
  handles s' = handles s
  /\ so s' = so s
  /\ _handleValue s <= _handleValue s'
  /\ exists added,
       _classDataDescriptions s' = _classDataDescriptions s ++ added.
Proof.
  intros H. pose proof (keeps_parseStream mx fuel s) as K.
  rewrite H in K. exact K.
Qed.

Lemma readContentElement_error (w : Walker) (s s' : SerializedObjectParser)
  (e : error) :
  readContentElement w s = Done (Some e, s') ->
  exists b, peek s = Done (b, s') /\ is_content_tag b = false.
Proof.
  unfold readContentElement. unfold bind at 1.
  destruct (peek s) as [[b s1] | |]; try discriminate.
  unfold is_content_tag.
  repeat match goal with
         | |- context [if Byte.eqb b ?t then _ else _] =>
             destruct (Byte.eqb b t) eqn:?
         end;
    try solve [ intros H; unfold bind, ret in H;
                repeat match type of H with
                       | context [match ?x with _ => _ end] => destruct x
                       end;
                discriminate ].
  intros H. injection H as _ <-. exists b. split; [reflexivity |].
  repeat match goal with
         | E : Byte.eqb b _ = false |- _ => rewrite E; clear E
         end.
  reflexivity.
Qed.

(** The loop over the content elements, started below the bound, is never
    ended by its guard [size() > 0]. *)
Lemma parseStream_contents_exit (mx : Z) (w : Walker) (n : nat) :
  walker_mono w ->
  forall s s', look AtMostOne s -> reach s < mx ->
    parseStream_contents mx w n s = Done (tt, s') ->
    exists b, data (_data s') = [b] /\ is_content_tag b = false
              /\ reach s' <= reach s.
Proof.
  intros (Hce & Hcd & Hfv).
  induction n as [| n IH]; intros s s' Hs Hmx; [discriminate |].
  cbn [parseStream_contents]. unfold bind at 1. unfold size.
  pose proof (nPos_le_reach s) as Hn.
  destruct (Z.gtb_spec (mx - nPos (_data s)) 0) as [_ | Hle]; [| lia].
  unfold bind.
  pose proof (mono_readContentElement w Hce Hcd Hfv s Hs) as Hm.
  destruct (readContentElement w s) as [[err s1] | |] eqn:Hrun; try discriminate.
  destruct Hm as [Hr Hs1].
  destruct err as [e |].
  - intros H. injection H as <-.
    destruct (readContentElement_error w s s1 e Hrun) as (b & Hpeek & Htag).
    destruct (peek_result s Hs) as (x & s2 & Hp & Hd & _).
    rewrite Hp in Hpeek. injection Hpeek as -> ->.
    exists b. repeat split; assumption.
  - intros H. destruct (IH s1 s' Hs1 ltac:(lia) H) as (b & Hd & Htag & Hr').
    exists b. repeat split; try assumption. lia.
Qed.

Lemma parseStream_after_magic (mx : Z) (fuel : nat) (v1 v2 : byte)
  (rest : list byte) :
  parseStream mx fuel (NewSerializedObjectParser (xac :: xed :: v1 :: v2 :: rest))
  = (let* _ := parseStream_contents mx (walker fuel) fuel in decreaseIndent)
      (after_prelude rest).
Proof. reflexivity. Qed.

(** On a buffer that begins with the magic (the two bytes after it are
    not checked), a run of the package-level walker that returns was ended
    by the error of [readContentElement] and never by the guard
    [size() > 0] of its loop: the look-ahead holds one byte for which
    [readContentElement] has no [case], and [nPos] is still below the
    length of the buffer.  (At the end of the input that byte is the zero
    that the cursor makes up.) *)
Theorem parseStream_stops_only_at_an_illegal_tag (fuel : nat) (v1 v2 : byte)
  (rest : list byte) (s' : SerializedObjectParser) :
  parseStream (Z.of_nat (length (xac :: xed :: v1 :: v2 :: rest))) fuel
    (NewSerializedObjectParser (xac :: xed :: v1 :: v2 :: rest)) = Done (tt, s') ->
  exists b,
    data (_data s') = [b] /\ is_content_tag b = false
    /\ nPos (_data s') < Z.of_nat (length (xac :: xed :: v1 :: v2 :: rest)).
Proof.
  rewrite parseStream_after_magic. unfold bind at 1.
  destruct (parseStream_contents _ (walker fuel) fuel (after_prelude rest))
    as [[[] s1] | |] eqn:Hrun; try discriminate.
  assert (Hreach : reach (after_prelude rest) = 1 + Z.of_nat (length rest)).
  { unfold reach, nonzero_count.
    cbn [after_prelude _data nPos data rd length List.filter]. lia. }
  destruct (parseStream_contents_exit
              (Z.of_nat (length (xac :: xed :: v1 :: v2 :: rest)))
              (walker fuel) fuel (walker_is_mono fuel)
              (after_prelude rest) s1) as (b & Hd & Htag & Hr).
  - simpl. lia.
  - rewrite Hreach. cbn [length]. lia.
  - exact Hrun.
  - unfold decreaseIndent.
    destruct (String.length (_indent s1) <? 2)%nat; [discriminate |].
    intros H. injection H as <-. exists b. cbn [_data set_indent].
    repeat split; try assumption.
    pose proof (nPos_le_reach s1). rewrite Hreach in Hr. cbn [length]. lia.
Qed.

(** One object of a class [A] and a null reference. *)
Lemma parseStream_stops_only_at_an_illegal_tag_witness :
  exists b,
    data (_data (mkParser [] [] 0x7e0002 ""
                   [mkClassDataDesc [mkClassDetails "A" 0x7e0000 x02 []]]
                   (mkSmooth 6 [x00]) (mkSerObject 0 x00 x00))) = [b]
    /\ is_content_tag b = false
    /\ nPos (_data (mkParser [] [] 0x7e0002 ""
                   [mkClassDataDesc [mkClassDetails "A" 0x7e0000 x02 []]]
                   (mkSmooth 6 [x00]) (mkSerObject 0 x00 x00)))
       < Z.of_nat (length (xac :: xed :: x00 :: x05 :: one_object_rest)).
Proof.
  apply (parseStream_stops_only_at_an_illegal_tag 10 x00 x05 one_object_rest).
  reflexivity.
Defined.

Lemma parseStream_leaves_the_handle_table_witness :
  handles (mkParser [] [VString "kept"] 0x7e0002 ""
             [mkClassDataDesc [mkClassDetails "A" 0x7e0000 x02 []]]
             (mkSmooth 6 [x00]) (mkSerObject 0 x00 x00))
  = handles (mkParser (xac :: xed :: x00 :: x05 :: one_object_rest)
               [VString "kept"] 0x7e0000 "" [] (mkSmooth 0 [])
               (mkSerObject 0 x00 x00))
  /\ so (mkParser [] [VString "kept"] 0x7e0002 ""
             [mkClassDataDesc [mkClassDetails "A" 0x7e0000 x02 []]]
             (mkSmooth 6 [x00]) (mkSerObject 0 x00 x00))
     = so (mkParser (xac :: xed :: x00 :: x05 :: one_object_rest)
               [VString "kept"] 0x7e0000 "" [] (mkSmooth 0 [])
               (mkSerObject 0 x00 x00))
  /\ _handleValue (mkParser (xac :: xed :: x00 :: x05 :: one_object_rest)
               [VString "kept"] 0x7e0000 "" [] (mkSmooth 0 [])
               (mkSerObject 0 x00 x00))
     <= _handleValue (mkParser [] [VString "kept"] 0x7e0002 ""
             [mkClassDataDesc [mkClassDetails "A" 0x7e0000 x02 []]]
             (mkSmooth 6 [x00]) (mkSerObject 0 x00 x00))
  /\ exists added,
       _classDataDescriptions (mkParser [] [VString "kept"] 0x7e0002 ""
             [mkClassDataDesc [mkClassDetails "A" 0x7e0000 x02 []]]
             (mkSmooth 6 [x00]) (mkSerObject 0 x00 x00))
       = _classDataDescriptions (mkParser (xac :: xed :: x00 :: x05 :: one_object_rest)
               [VString "kept"] 0x7e0000 "" [] (mkSmooth 0 [])
               (mkSerObject 0 x00 x00)) ++ added.
Proof.
  apply (parseStream_leaves_the_handle_table 23 10). reflexivity.
Defined.

(** ** The value-producing front rests on the walker *)

(** What [content] hands back, whatever it read. *)
Lemma content_result (fuel : nat) (s s' : SerializedObjectParser)
  (r : Value * option error) :
  content fuel s = Done (r, s') ->
  r = (VNil, None) /\ handles s' = handles s.
Proof.
  unfold content. cbv zeta. unfold bind at 1.
  pose proof (keeps_peek s) as K1.
  destruct (peek s) as [[tc s1] | |]; try discriminate.
  unfold bind at 1. unfold modify.
  set (s2 := set_so _ s1).
  unfold bind at 1.
  match goal with
  | |- match ?m s2 with _ => _ end = _ -> _ =>
      assert (K2 : keeps m) by keeps_auto;
      specialize (K2 s2); destruct (m s2) as [[u s3] | |]; try discriminate
  end.
  intros H. injection H as <- <-.
  destruct K1 as (H1 & _). destruct K2 as (H2 & _).
  split; [reflexivity |]. rewrite H2. subst s2. cbn [handles set_so]. exact H1.
Qed.


Lemma binary_Read_handles (n : nat) (wrap : string)
  (s s' : SerializedObjectParser) (r : Z * option error) :
  binary_Read n wrap s = Done (r, s') ->
  handles s' = handles s /\ _data s' = _data s.
Proof.
  unfold binary_Read, bind, io_ReadFull.
  destruct n; [intros H; injection H as _ <-; auto |].
  destruct (rd s); [intros H; injection H as _ <-; auto |].
  destruct (_ <? _)%nat; intros H; injection H as _ <-; auto.
Qed.





Lemma bind_not_done {A B : Type} (m : M A) (k : A -> M B)
  (s : SerializedObjectParser) :
  (forall r, m s <> Done r) -> forall r, bind m k s <> Done r.
Proof.
  intros Hm r. unfold bind. destruct (m s) as [[a s1] | |]; try discriminate.
  exfalso. exact (Hm (a, s1) eq_refl).
Qed.

Lemma annotations_not_done (fuel walk : nat) :
  forall (anns : list Value) (s : SerializedObjectParser) r,
    annotations fuel walk anns s <> Done r.
Proof.
  induction fuel as [| fuel IH]; intros anns s r; [discriminate |].
  cbn [annotations]. unfold bind.
  destruct (content walk s) as [[r1 s1] | |] eqn:Hc; try discriminate.
  destruct (content_result walk s s1 r1 Hc) as (-> & _).
  apply IH.
Qed.

(** [annotations] does not return.  Its loop ends when [content] answers
    the end-block marker or an error, and [content] answers neither: for
    every bound on the number of steps the call runs out of steps or
    panics. *)
Theorem annotations_never_returns (fuel walk : nat) (anns : list Value)
  (s : SerializedObjectParser) :
  annotations fuel walk anns s = OutOfFuel
  \/ exists msg, annotations fuel walk anns s = Panic msg.
Proof.
  pose proof (annotations_not_done fuel walk anns s) as H.
  destruct (annotations fuel walk anns s) as [r | msg |].
  - exfalso. exact (H r eq_refl).
  - right. exists msg. reflexivity.
  - left. reflexivity.
Qed.

Lemma readString_handles (mx cnt : Z) (asHex : bool)
  (s s' : SerializedObjectParser) (r : string * option error) :
  readString mx cnt asHex s = Done (r, s') -> handles s' = handles s.
Proof.
  unfold readString. destruct (cnt >? mx); [intros H; injection H as _ <-; auto |].
  destruct (_ <? _)%nat; intros H; injection H as _ <-; auto.
Qed.

Lemma utf_handles (mx : Z) (s s' : SerializedObjectParser)
  (r : string * option error) :
  utf mx s = Done (r, s') -> handles s' = handles s.
Proof.
  unfold utf. unfold bind at 1. unfold readUInt16.
  destruct (binary_Read 2 _ s) as [[[v e] s1] | |] eqn:Hr; try discriminate.
  destruct (binary_Read_handles _ _ _ _ _ Hr) as [Hh _].
  destruct e; [intros H; injection H as _ <-; exact Hh |].
  unfold bind.
  destruct (readString mx v false s1) as [[[str e] s2] | |] eqn:Hs; try discriminate.
  pose proof (readString_handles _ _ _ _ _ _ Hs) as Hh2.
  destruct e; intros H; injection H as _ <-; congruence.
Qed.

(** [parseClassDesc] never yields a class.  A call that returns hands back
    [nil]; it returns without an error only for a class name shorter than
    two bytes, and then the handle table is as before.  (After the field
    descriptors the function calls [annotations], which does not
    return.) *)
Theorem parseClassDesc_never_yields_a_class (mx : Z) (fuel : nat)
  (s s' : SerializedObjectParser) (v : Value) (err : option error) :
  parseClassDesc mx fuel s = Done ((v, err), s') ->
  v = VNil
  /\ (err = None ->
      handles s' = handles s
      /\ exists name, utf mx s = Done ((name, None), s')
                      /\ (String.length name < 2)%nat).
Proof.
  unfold parseClassDesc. unfold bind at 1.
  destruct (utf mx s) as [[[name e] s1] | |] eqn:Hu; try discriminate.
  pose proof (utf_handles _ _ _ _ Hu) as Hh.
  destruct e as [e |]; [intros H; injection H as <- <- <-; split; [auto | discriminate] |].
  cbv zeta.
  destruct (Nat.ltb_spec (String.length name) 2) as [Hlt | Hge].
  { intros H. injection H as <- <- <-. split; [reflexivity |]. intros _.
    split; [exact Hh |]. exists name. split; [reflexivity | exact Hlt]. }
  unfold bind at 1.
  destruct (readString mx 8 true s1) as [[[uid e] s2] | |]; try discriminate.
  destruct e as [e |]; [intros H; injection H as <- <- <-; split; [auto | discriminate] |].
  unfold bind at 1. unfold get_state. unfold bind at 1. unfold newHandle.
  unfold bind at 1.
  destruct (readUInt8 _) as [[[fl e] s3] | |]; try discriminate.
  destruct e as [e |]; [intros H; injection H as <- <- <-; split; [auto | discriminate] |].
  unfold bind at 1.
  destruct (set_handle _ _ s3) as [[u s4] | |]; try discriminate.
  unfold bind at 1.
  destruct (readUInt16 s4) as [[[cnt e] s5] | |]; try discriminate.
  destruct e as [e |]; [intros H; injection H as <- <- <-; split; [auto | discriminate] |].
  unfold bind at 1.
  destruct (parseClassDesc_fields _ _ _ _ _ s5) as [[[cls e] s6] | |]; try discriminate.
  destruct e as [e |]; [intros H; injection H as <- <- <-; split; [auto | discriminate] |].
  intros H. exfalso. revert H. apply bind_not_done. apply annotations_not_done.
Qed.

(** The class name of one byte. *)
Lemma parseClassDesc_never_yields_a_class_witness :
  VNil = VNil
  /\ (@None error = None ->
      handles (NewSerializedObjectParser [x70])
      = handles (NewSerializedObjectParser [x00; x01; x41; x70])
      /\ exists name,
           utf 4 (NewSerializedObjectParser [x00; x01; x41; x70])
           = Done ((name, None), NewSerializedObjectParser [x70])
           /\ (String.length name < 2)%nat).
Proof.
  apply (parseClassDesc_never_yields_a_class 4 3
           (NewSerializedObjectParser [x00; x01; x41; x70])).
  reflexivity.
Defined.

(** [fieldDesc] succeeds on primitive fields only.  For the type codes
    [[] and [L] the class name is asked of [content], which answers [nil]
    and not a string: whenever [fieldDesc] returns without an error, the
    field is neither an array nor an object and has no class name. *)
Theorem fieldDesc_succeeds_on_primitive_fields_only (mx : Z) (fuel : nat)
  (s s' : SerializedObjectParser) (f : option field) :
  fieldDesc mx fuel s = Done ((f, None), s') ->
  exists fd, f = Some fd
    /\ f_className fd = ""%string
    /\ String.eqb (f_typeName fd) "[" = false
    /\ String.eqb (f_typeName fd) "L" = false
    /\ handles s' = handles s.
Proof.
  unfold fieldDesc. unfold bind at 1. unfold readUInt8. unfold bind at 1.
  destruct (binary_Read 1 _ s) as [[[v e] s1] | |] eqn:Hr; try discriminate.
  destruct (binary_Read_handles _ _ _ _ _ Hr) as [Hh1 _].
  unfold ret at 1. cbn [fst snd].
  destruct e as [e |]; [discriminate |].
  unfold bind at 1.
  destruct (utf mx s1) as [[[name e] s2] | |] eqn:Hu; try discriminate.
  pose proof (utf_handles _ _ _ _ Hu) as Hh2.
  destruct e as [e |]; [discriminate |].
  cbv zeta.
  destruct (String.eqb _ "[") eqn:E1; cbn [orb].
  { unfold bind.
    destruct (content fuel s2) as [[r1 s3] | |] eqn:Hc; try discriminate.
    destruct (content_result fuel s2 s3 r1 Hc) as (-> & _). discriminate. }
  destruct (String.eqb _ "L") eqn:E2.
  { unfold bind.
    destruct (content fuel s2) as [[r1 s3] | |] eqn:Hc; try discriminate.
    destruct (content_result fuel s2 s3 r1 Hc) as (-> & _). discriminate. }
  intros H. injection H as <- <-. eexists. split; [reflexivity |].
  cbn [f_className f_typeName]. repeat split; try assumption. congruence.
Qed.

(** An [int] field named [n]. *)
Lemma fieldDesc_succeeds_on_primitive_fields_only_witness :
  exists fd, Some (mkField "" "I" "n") = Some fd
    /\ f_className fd = ""%string
    /\ String.eqb (f_typeName fd) "[" = false
    /\ String.eqb (f_typeName fd) "L" = false
    /\ handles (NewSerializedObjectParser [])
       = handles (NewSerializedObjectParser [x49; x00; x01; x6e]).
Proof.
  apply (fieldDesc_succeeds_on_primitive_fields_only 4 3
           (NewSerializedObjectParser [x49; x00; x01; x6e])).
  reflexivity.
Defined.

(** [classData] succeeds for one kind of class only.  Whenever it returns
    without an error, the class is serializable without a write method
    (the low four bits of its flags are [0x02]) and the data are the
    field values read by [values]: for the flags [0x03] and [0x0c] the
    function reads the annotations and does not return. *)
Theorem classData_succeeds_without_annotations_only (fuel : nat)
  (cls : option clazz) (s s' : SerializedObjectParser)
  (data : option (gmap string Value)) :
  classData fuel cls s = Done ((data, None), s') ->
  exists c, cls = Some c
    /\ Z.land (u8 (c_flags c)) 0x0f = 0x02
    /\ values fuel c s = Done ((data, None), s').
Proof.
  unfold classData. destruct cls as [c |]; [| discriminate]. cbv zeta.
  destruct (Z.eqb_spec (Z.land (u8 (c_flags c)) 15) 2) as [E2 | _].
  { intros H. exists c. auto. }
  assert (Hann : forall b r, annotationsAsMap fuel c b s = Done r -> snd (fst r) <> None).
  { intros b [[d e] s1]. unfold annotationsAsMap. unfold bind at 1.
    match goal with
    | |- match ?m s with _ => _ end = _ -> _ =>
        destruct (m s) as [[[d1 e1] s2] | |]; try discriminate
    end.
    destruct d1 as [d1 |]; destruct e1 as [e1 |];
      try (intros H; injection H as <- <- <-; discriminate); [| discriminate].
    intros H. exfalso. revert H. apply bind_not_done. apply annotations_not_done. }
  destruct (_ =? 3).
  { intros H. exfalso. exact (Hann false _ H eq_refl). }
  destruct (_ =? 4); [discriminate |].
  destruct (_ =? 12); [| discriminate].
  intros H. exfalso. exact (Hann true _ H eq_refl).
Qed.

(** One serializable class with an [int] field. *)
Lemma classData_succeeds_without_annotations_only_witness :
  exists c,
    Some (mkClazz None [] [Some (mkField "" "I" "n")] "01" "A" x02 false) = Some c
    /\ Z.land (u8 (c_flags c)) 0x0f = 0x02
    /\ values 3 c (NewSerializedObjectParser [x00; x00; x00; x07])
       = Done ((Some (<["n"%string := VInt32 7]> ∅), None),
               NewSerializedObjectParser []).
Proof.
  apply (classData_succeeds_without_annotations_only 3
           (Some (mkClazz None [] [Some (mkField "" "I" "n")] "01" "A" x02 false))
           (NewSerializedObjectParser [x00; x00; x00; x07])).
  vm_compute. reflexivity.
Defined.

(** ** The stream header and the cursor *)

Lemma u8_inj (a b : byte) : u8 a = u8 b -> a = b.
Proof.
  intros H. rewrite <- (byte_of_Z_u8 a), <- (byte_of_Z_u8 b), H. reflexivity.
Qed.

(** [magic] accepts the two bytes [AC ED] and no others.  With two bytes
    to read it takes both; it answers no error and records the magic in
    [so] exactly when they are [AC ED], and otherwise answers "magic value
    STREAM_MAGIC not found" and leaves [so] alone. *)
Theorem magic_accepts_exactly_AC_ED (s : SerializedObjectParser) (b1 b2 : byte)
  (rest : list byte) :
  rd s = b1 :: b2 :: rest ->
  (b1 = xac /\ b2 = xed
   /\ magic s
      = Done (None, set_so (mkSerObject STREAM_MAGIC (so_STREAM_VERSION (so s))
                              (Tc_Type (so s))) (set_rd rest s)))
  \/ ((b1 <> xac \/ b2 <> xed)
      /\ magic s
         = Done (Some (errors_New "magic value STREAM_MAGIC not found"),
                 set_rd rest s)).
Proof.
  intros Hrd.
  assert (Hm : magic s
               = if negb (256 * u8 b1 + u8 b2 =? STREAM_MAGIC)
                 then Done (Some (errors_New "magic value STREAM_MAGIC not found"),
                            set_rd rest s)
                 else Done (None,
                            set_so (mkSerObject STREAM_MAGIC
                                      (so_STREAM_VERSION (so s))
                                      (Tc_Type (so s))) (set_rd rest s))).
  { unfold magic. unfold bind at 1.
    rewrite (readUInt16_big_endian s b1 b2 rest Hrd). cbn [andb].
    destruct (negb _); reflexivity. }
  rewrite Hm. clear Hm.
  pose proof (u8_range b1) as R1. pose proof (u8_range b2) as R2.
  destruct (Z.eqb_spec (256 * u8 b1 + u8 b2) STREAM_MAGIC) as [E | N]; cbn [negb].
  - left. unfold STREAM_MAGIC in E.
    assert (u8 b1 = u8 xac) as E1 by (change (u8 xac) with 172; lia).
    assert (u8 b2 = u8 xed) as E2 by (change (u8 xed) with 237; lia).
    apply u8_inj in E1. apply u8_inj in E2. auto.
  - right. split; [| reflexivity].
    destruct (Byte.eqb b1 xac) eqn:E1;
      [apply Byte.byte_dec_bl in E1; subst b1
      | left; intros ->; discriminate E1].
    destruct (Byte.eqb b2 xed) eqn:E2;
      [apply Byte.byte_dec_bl in E2; subst b2
      | right; intros ->; discriminate E2].
    exfalso. apply N. reflexivity.
Qed.

Lemma magic_accepts_exactly_AC_ED_witness :
  (xac = xac /\ xed = xed
   /\ magic (NewSerializedObjectParser [xac; xed; x00; x05])
      = Done (None, mkParser [x00; x05] [] 0x7e0000 "" [] (mkSmooth 0 [])
                      (mkSerObject 0xaced x00 x00)))
  \/ ((xac <> xac \/ xed <> xed)
      /\ magic (NewSerializedObjectParser [xac; xed; x00; x05])
         = Done (Some (errors_New "magic value STREAM_MAGIC not found"),
                 mkParser [x00; x05] [] 0x7e0000 "" [] (mkSmooth 0 [])
                   (mkSerObject 0 x00 x00))).
Proof.
  apply (magic_accepts_exactly_AC_ED
           (NewSerializedObjectParser [xac; xed; x00; x05]) xac xed [x00; x05]).
  reflexivity.
Defined.

(** The look-ahead cursor.  [peek] never fails; a second [peek] changes
    nothing and answers the same byte, and so does the [pop] that follows:
    it takes the byte out of the look-ahead and counts it in [nPos].  What
    is left is the look-ahead without its first byte, and the reader
    without its first byte when the look-ahead was empty. *)
Theorem peek_then_pop (s : SerializedObjectParser) :
  exists b s1 s2,
    peek s = Done (b, s1)
    /\ peek s1 = Done (b, s1)
    /\ pop s1 = Done (b, s2)
    /\ nPos (_data s2) = nPos (_data s) + 1
    /\ data (_data s2) = tl (data (_data s))
    /\ rd s2 = match data (_data s) with [] => tl (rd s) | _ => rd s end
    /\ (data (_data s) = [] -> rd s = [] -> b = x00).
Proof.
  destruct (data (_data s)) as [| b d] eqn:Hd.
  - destruct (rd s) as [| b r] eqn:Hrd.
    + eexists _, _, _. rewrite (peek_at_eof s Hrd Hd).
      split; [reflexivity |].
      split; [apply (peek_from_lookahead _ x00 []); reflexivity |].
      split; [apply (pop_from_lookahead _ x00 []); reflexivity |].
      cbn. rewrite Hrd. auto.
    + eexists _, _, _. rewrite (peek_from_reader s b r Hrd Hd).
      split; [reflexivity |].
      split; [apply (peek_from_lookahead _ b []); reflexivity |].
      split; [apply (pop_from_lookahead _ b []); reflexivity |].
      cbn. repeat split; auto. discriminate.
  - eexists _, _, _. rewrite (peek_from_lookahead s b d Hd).
    split; [reflexivity |].
    split; [apply (peek_from_lookahead s b d Hd) |].
    split; [apply (pop_from_lookahead s b d Hd) |].
    cbn. repeat split; auto. discriminate.
Qed.

(** [pop] without a [peek] before it reads the reader and does not count:
    with an empty look-ahead and a byte in the reader, [pop] answers that
    byte and leaves [nPos] as it was, while [peek] followed by [pop]
    answers the same byte with the same reader and has raised [nPos]. *)
Theorem pop_counts_peeked_bytes_only (s : SerializedObjectParser) (b : byte)
  (r : list byte) :
  rd s = b :: r -> data (_data s) = [] ->
  pop s = Done (b, set_rd r s)
  /\ (let* _ := peek in pop) s
     = Done (b, set_data (mkSmooth (nPos (_data s) + 1) []) (set_rd r s)).
Proof.
  intros Hrd Hd. split; [exact (pop_from_reader s b r Hrd Hd) |].
  unfold bind. rewrite (peek_from_reader s b r Hrd Hd).
  rewrite (pop_from_lookahead _ b []) by reflexivity. reflexivity.
Qed.

Lemma pop_counts_peeked_bytes_only_witness :
  pop (NewSerializedObjectParser [x70; x71])
  = Done (x70, NewSerializedObjectParser [x71])
  /\ (let* _ := peek in pop) (NewSerializedObjectParser [x70; x71])
     = Done (x70, mkParser [x71] [] 0x7e0000 "" [] (mkSmooth 1 [])
                    (mkSerObject 0 x00 x00)).
Proof.
  apply (pop_counts_peeked_bytes_only (NewSerializedObjectParser [x70; x71])
           x70 [x71]); reflexivity.
Defined.

(** ** Strings, block data and the handle table of the value-producing front *)

Lemma readString_exact (mx : Z) (asHex : bool) (s : SerializedObjectParser)
  (bs rest : list byte) :
  rd s = bs ++ rest -> Z.of_nat (length bs) <= mx ->
  readString mx (Z.of_nat (length bs)) asHex s
  = Done ((if asHex then hex_EncodeToString bs else string_of_list_byte bs, None),
          set_rd rest s).
Proof.
  intros Hrd Hmx. unfold readString.
  destruct (Z.gtb_spec (Z.of_nat (length bs)) mx) as [Hgt | _]; [lia |].
  rewrite Hrd, Nat2Z.id.
  destruct (Nat.ltb_spec (length (bs ++ rest)) (length bs)) as [Hlt | _].
  { rewrite length_app in Hlt. lia. }
  rewrite take_app_length, drop_app_length. reflexivity.
Qed.

(** [utf] decodes a length-prefixed string.  The two length bytes are
    read big-endian; when that many bytes follow and the length is within
    [maxDataBlockSize], the result is the string of exactly these bytes
    and the reader stands behind them. *)
Theorem utf_reads_a_length_prefixed_string (mx : Z) (s : SerializedObjectParser)
  (b1 b2 : byte) (bs rest : list byte) :
  rd s = b1 :: b2 :: bs ++ rest ->
  Z.of_nat (length bs) = 256 * u8 b1 + u8 b2 ->
  Z.of_nat (length bs) <= mx ->
  utf mx s = Done ((string_of_list_byte bs, None), set_rd rest s).
Proof.
  intros Hrd Hlen Hmx. unfold utf. unfold bind at 1.
  rewrite (readUInt16_big_endian s b1 b2 (bs ++ rest) Hrd).
  rewrite <- Hlen. unfold bind.
  rewrite (readString_exact mx false (set_rd (bs ++ rest) s) bs rest eq_refl Hmx).
  reflexivity.
Qed.

(** A string of 256 bytes: the length bytes are [01 00]. *)
Lemma utf_reads_a_length_prefixed_string_witness :
  utf 300 (NewSerializedObjectParser (x01 :: x00 :: repeat x41 256 ++ [x70]))
  = Done ((string_of_list_byte (repeat x41 256), None),
          set_rd [x70]
            (NewSerializedObjectParser (x01 :: x00 :: repeat x41 256 ++ [x70]))).
Proof.
  apply (utf_reads_a_length_prefixed_string 300
           (NewSerializedObjectParser (x01 :: x00 :: repeat x41 256 ++ [x70]))
           x01 x00 (repeat x41 256) [x70]).
  - reflexivity.
  - vm_compute. reflexivity.
  - vm_compute. discriminate.
Defined.

(** [utf] refuses a string it cannot hold or cannot read.  A declared
    length above [maxDataBlockSize] is an error before any byte of the
    string is taken; a declared length above what is left is an error
    whose cause is [io.EOF], and the reader is drained. *)
Theorem utf_refuses_long_and_short_strings (mx : Z) (s : SerializedObjectParser)
  (b1 b2 : byte) (rest : list byte) :
  rd s = b1 :: b2 :: rest ->
  (mx < 256 * u8 b1 + u8 b2 ->
   exists e, utf mx s = Done ((""%string, Some e), set_rd rest s)
             /\ Cause e = errors_New "block data exceeds size of reader buffer.")
  /\ (256 * u8 b1 + u8 b2 <= mx ->
      Z.of_nat (length rest) < 256 * u8 b1 + u8 b2 ->
      exists e, utf mx s = Done ((""%string, Some e), set_rd [] s)
                /\ Cause e = io_EOF).
Proof.
  intros Hrd. split.
  - intros Hgt. eexists. unfold utf. unfold bind at 1.
    rewrite (readUInt16_big_endian s b1 b2 rest Hrd). unfold bind, readString.
    destruct (Z.gtb_spec (256 * u8 b1 + u8 b2) mx) as [_ | Hle]; [| lia].
    split; reflexivity.
  - intros Hle Hshort. eexists. unfold utf. unfold bind at 1.
    rewrite (readUInt16_big_endian s b1 b2 rest Hrd). unfold bind, readString.
    destruct (Z.gtb_spec (256 * u8 b1 + u8 b2) mx) as [Hgt | _]; [lia |].
    cbn [rd set_rd].
    destruct (Nat.ltb_spec (length rest) (Z.to_nat (256 * u8 b1 + u8 b2)))
      as [_ | Hge]; [| lia].
    split; reflexivity.
Qed.

Lemma utf_refuses_long_and_short_strings_witness :
  (4 < 256 * u8 x00 + u8 x05 ->
   exists e, utf 4 (NewSerializedObjectParser [x00; x05; x41; x42])
             = Done ((""%string, Some e),
                     set_rd [x41; x42] (NewSerializedObjectParser [x00; x05; x41; x42]))
             /\ Cause e = errors_New "block data exceeds size of reader buffer.")
  /\ (256 * u8 x00 + u8 x05 <= 4 ->
      Z.of_nat (length [x41; x42]) < 256 * u8 x00 + u8 x05 ->
      exists e, utf 4 (NewSerializedObjectParser [x00; x05; x41; x42])
                = Done ((""%string, Some e),
                        set_rd [] (NewSerializedObjectParser [x00; x05; x41; x42]))
                /\ Cause e = io_EOF).
Proof.
  apply (utf_refuses_long_and_short_strings 4
           (NewSerializedObjectParser [x00; x05; x41; x42]) x00 x05 [x41; x42]).
  reflexivity.
Defined.

(** A handle entered by [newHandle] is found by [parseReference].  The
    object gets the next index of the table: the reference that follows
    resolves to the object when its index is the former length of the
    table, and to the entry that was there before for a smaller index. *)
Theorem newHandle_then_parseReference (s : SerializedObjectParser) (obj : Value)
  (b1 b2 b3 b4 : byte) (rest : list byte) :
  rd s = b1 :: b2 :: b3 :: b4 :: rest ->
  0 <= reference_index b1 b2 b3 b4 <= Z.of_nat (length (handles s)) ->
  (let* _ := newHandle obj in parseReference) s
  = Done ((if reference_index b1 b2 b3 b4 =? Z.of_nat (length (handles s))
           then obj
           else nth (Z.to_nat (reference_index b1 b2 b3 b4)) (handles s) VNil,
           None),
          set_rd rest (set_handles (handles s ++ [obj]) s)).
Proof.
  intros Hrd Hin. unfold bind at 1. unfold newHandle.
  rewrite (parseReference_in_range _ b1 b2 b3 b4 rest).
  - cbn [handles set_handles]. f_equal. f_equal. f_equal.
    destruct (Z.eqb_spec (reference_index b1 b2 b3 b4) (Z.of_nat (length (handles s))))
      as [E | N].
    + rewrite E, Nat2Z.id, app_nth2 by lia. rewrite Nat.sub_diag. reflexivity.
    + apply app_nth1. lia.
  - exact Hrd.
  - cbn [handles set_handles]. rewrite length_app. cbn [length]. lia.
Qed.

(** The second entry of the table, through the wire handle [0x7E0001]. *)
Lemma newHandle_then_parseReference_witness :
  (let* _ := newHandle (VString "B") in parseReference)
    (set_handles [VString "A"] (NewSerializedObjectParser [x00; x7e; x00; x01]))
  = Done ((VString "B", None),
          set_rd []
            (set_handles ([VString "A"] ++ [VString "B"])
               (set_handles [VString "A"]
                  (NewSerializedObjectParser [x00; x7e; x00; x01])))).
Proof.
  apply (newHandle_then_parseReference
           (set_handles [VString "A"] (NewSerializedObjectParser [x00; x7e; x00; x01]))
           (VString "B") x00 x7e x00 x01 []).
  - reflexivity.
  - vm_compute. split; discriminate.
Defined.

(** [newDeferredHandle] reserves a slot and fills it later.  The call
    appends a [nil] entry; the function it returns, called after any
    number of further entries were appended, writes the object into the
    reserved slot and leaves every other entry alone. *)
Theorem newDeferredHandle_fills_its_slot (s : SerializedObjectParser)
  (obj : Value) :
  exists fill s1,
    newDeferredHandle s = Done (fill, s1)
    /\ handles s1 = handles s ++ [VNil]
    /\ forall s2 later,
         handles s2 = handles s ++ VNil :: later ->
         fill obj s2
         = Done (obj, set_handles (handles s ++ obj :: later) s2).
Proof.
  eexists _, _. split; [reflexivity |]. split; [reflexivity |].
  intros s2 later H2. unfold set_handle. rewrite H2.
  destruct (Nat.ltb_spec (length (handles s)) (length (handles s ++ VNil :: later)))
    as [_ | Hge].
  - rewrite insert_app_r_alt, Nat.sub_diag by lia. reflexivity.
  - rewrite length_app in Hge. cbn [length] in Hge. lia.
Qed.

Lemma set_rd_same (s : SerializedObjectParser) (r : list byte) :
  rd s = r -> set_rd r s = s.
Proof. intros <-. destruct s. reflexivity. Qed.

Lemma io_ReadFull_exact (s : SerializedObjectParser) (bs rest : list byte) :
  rd s = bs ++ rest ->
  io_ReadFull (length bs) s = Done ((bs, None), set_rd rest s).
Proof.
  intros Hrd. unfold io_ReadFull. destruct bs as [| b bs].
  - cbn [length]. rewrite (set_rd_same s rest Hrd). reflexivity.
  - cbn [length]. rewrite Hrd.
    change (S (length bs)) with (length (b :: bs)).
    rewrite take_app_length, drop_app_length.
    destruct (Nat.ltb_spec (length ((b :: bs) ++ rest)) (length (b :: bs)))
      as [Hlt | _]; [| reflexivity].
    rewrite length_app in Hlt. lia.
Qed.

Lemma io_ReadFull_short (s : SerializedObjectParser) (n : nat) :
  (length (rd s) < n)%nat ->
  io_ReadFull n s
  = Done ((rd s, Some (match rd s with
                       | [] => io_EOF
                       | _ => io_ErrUnexpectedEOF
                       end)), set_rd [] s).
Proof.
  intros Hlt. unfold io_ReadFull. destruct n as [| n]; [lia |].
  destruct (rd s) as [| b r] eqn:Hrd.
  - rewrite (set_rd_same s [] Hrd). reflexivity.
  - destruct (Nat.ltb_spec (length (b :: r)) (S n)) as [_ | Hge]; [reflexivity | lia].
Qed.

(** [parseBlockData] reads a block of up to 255 bytes.  The first byte is
    the size; when that many bytes follow, the result is exactly these
    bytes; when fewer follow, the reader is drained and the error is the
    bare [io.ErrUnexpectedEOF], or [io.EOF] when none follows. *)
Theorem parseBlockData_reads_the_block (s : SerializedObjectParser) (n : byte)
  (bs rest : list byte) :
  rd s = n :: bs ++ rest ->
  (Z.of_nat (length bs) = u8 n ->
   parseBlockData s = Done ((VBytes bs, None), set_rd rest s))
  /\ (rest = [] -> Z.of_nat (length bs) < u8 n ->
      parseBlockData s
      = Done ((VNil, Some (match bs with
                           | [] => io_EOF
                           | _ => io_ErrUnexpectedEOF
                           end)), set_rd [] s)).
Proof.
  intros Hrd. split.
  - intros Hlen. unfold parseBlockData. unfold bind at 1.
    rewrite (readUInt8_next s n (bs ++ rest) Hrd). unfold bind.
    rewrite <- Hlen, Nat2Z.id.
    rewrite (io_ReadFull_exact (set_rd (bs ++ rest) s) bs rest eq_refl).
    reflexivity.
  - intros -> Hlt. rewrite app_nil_r in Hrd.
    unfold parseBlockData. unfold bind at 1.
    rewrite (readUInt8_next s n bs Hrd). unfold bind.
    rewrite io_ReadFull_short by (cbn [rd set_rd]; lia).
    reflexivity.
Qed.

Lemma parseBlockData_reads_the_block_witness :
  (Z.of_nat (length [x41; x42]) = u8 x02 ->
   parseBlockData (NewSerializedObjectParser ([x02; x41; x42] ++ [x70]))
   = Done ((VBytes [x41; x42], None),
           set_rd [x70] (NewSerializedObjectParser ([x02; x41; x42] ++ [x70]))))
  /\ ([x70] = [] -> Z.of_nat (length [x41; x42]) < u8 x02 ->
      parseBlockData (NewSerializedObjectParser ([x02; x41; x42] ++ [x70]))
      = Done ((VNil, Some io_ErrUnexpectedEOF),
              set_rd [] (NewSerializedObjectParser ([x02; x41; x42] ++ [x70])))).
Proof.
  apply (parseBlockData_reads_the_block
           (NewSerializedObjectParser ([x02; x41; x42] ++ [x70])) x02 [x41; x42] [x70]).
  reflexivity.
Defined.

(** ** Field values and long blocks *)

Lemma io_ReadFull_inv (n : nat) (s s' : SerializedObjectParser) (bs : list byte) :
  io_ReadFull n s = Done ((bs, None), s') ->
  rd s = bs ++ rd s' /\ length bs = n /\ handles s' = handles s.
Proof.
  unfold io_ReadFull. destruct n as [| n].
  - intros H. injection H as <- <-. auto.
  - destruct (rd s) as [| b r] eqn:Hrd; [discriminate |].
    destruct (Nat.ltb_spec (length (b :: r)) (S n)) as [Hlt | Hge]; [discriminate |].
    intros H. injection H as <- <-.
    split; [exact (eq_sym (take_drop (S n) (b :: r))) |].
    split; [| reflexivity].
    cbn [length] in *. pose proof (length_firstn n r) as Hl. lia.
Qed.

(** [parseBlockDataLong] never hands back a block larger than
    [maxDataBlockSize].  Whenever it returns without an error, the input
    began with a four byte big-endian size that is within the bound,
    the result is the block of exactly that many bytes that followed, and
    the reader stands behind it. *)
Theorem parseBlockDataLong_stays_within_the_bound (mx : Z)
  (s s' : SerializedObjectParser) (v : Value) :
  parseBlockDataLong mx s = Done ((v, None), s') ->
  exists b1 b2 b3 b4 bs,
    rd s = b1 :: b2 :: b3 :: b4 :: bs ++ rd s'
    /\ v = VBytes bs
    /\ Z.of_nat (length bs) = BigEndian [b1; b2; b3; b4]
    /\ Z.of_nat (length bs) <= mx.
Proof.
  unfold parseBlockDataLong. unfold bind at 1. unfold readUInt32, binary_Read.
  unfold bind at 1.
  destruct (io_ReadFull 4 s) as [[[hd e] s1] | |] eqn:Hhd; try discriminate.
  destruct e as [e |]; [discriminate |].
  destruct (io_ReadFull_inv 4 s s1 hd Hhd) as (Hrd & Hlen & _).
  destruct hd as [| b1 [| b2 [| b3 [| b4 [| b5 hd]]]]]; try discriminate Hlen.
  unfold ret at 1.
  pose proof (u8_range b1). pose proof (u8_range b2).
  pose proof (u8_range b3). pose proof (u8_range b4).
  pose proof (BigEndian_4 b1 b2 b3 b4) as HBE.
  destruct (Z.gtb_spec (BigEndian [b1; b2; b3; b4]) mx) as [Hgt | Hle];
    [discriminate |].
  unfold bind.
  destruct (io_ReadFull _ s1) as [[[bs e] s2] | |] eqn:Hbs; try discriminate.
  destruct e as [e |]; [discriminate |].
  destruct (io_ReadFull_inv _ s1 s2 bs Hbs) as (Hrd1 & Hlen1 & _).
  intros Hdone. injection Hdone as <- <-.
  exists b1, b2, b3, b4, bs. rewrite Hrd, Hrd1. cbn [app].
  repeat split; lia.
Qed.

Lemma parseBlockDataLong_stays_within_the_bound_witness :
  exists b1 b2 b3 b4 bs,
    rd (NewSerializedObjectParser [x00; x00; x00; x02; x41; x42; x70])
    = b1 :: b2 :: b3 :: b4 :: bs ++ rd (NewSerializedObjectParser [x70])
    /\ VBytes [x41; x42] = VBytes bs
    /\ Z.of_nat (length bs) = BigEndian [b1; b2; b3; b4]
    /\ Z.of_nat (length bs) <= 7.
Proof.
  apply (parseBlockDataLong_stays_within_the_bound 7
           (NewSerializedObjectParser [x00; x00; x00; x02; x41; x42; x70])).
  reflexivity.
Defined.

Lemma readUInt32_four_bytes (s : SerializedObjectParser) (b1 b2 b3 b4 : byte)
  (rest : list byte) :
  rd s = b1 :: b2 :: b3 :: b4 :: rest ->
  readUInt32 s = Done ((BigEndian [b1; b2; b3; b4], None), set_rd rest s).
Proof.
  intros Hrd. unfold readUInt32, binary_Read, bind, io_ReadFull. rewrite Hrd.
  reflexivity.
Qed.

(** [utfLong] reads an eight byte length of which it supports the lower
    half.  When the first four bytes are not all zero the call fails
    after taking these four bytes; when they are zero, the next four are
    the big-endian length and the string of that many bytes is decoded
    as by [utf]. *)
Theorem utfLong_reads_the_lower_half (mx : Z) (s : SerializedObjectParser)
  (h1 h2 h3 h4 : byte) (rest : list byte) :
  rd s = h1 :: h2 :: h3 :: h4 :: rest ->
  (BigEndian [h1; h2; h3; h4] <> 0 ->
   utfLong mx s
   = Done ((""%string,
            Some (errors_New "unable to read string larger than 2^32 bytes")),
           set_rd rest s))
  /\ (BigEndian [h1; h2; h3; h4] = 0 ->
      forall b1 b2 b3 b4 bs rest',
        rest = b1 :: b2 :: b3 :: b4 :: bs ++ rest' ->
        Z.of_nat (length bs) = BigEndian [b1; b2; b3; b4] ->
        Z.of_nat (length bs) <= mx ->
        utfLong mx s = Done ((string_of_list_byte bs, None), set_rd rest' s)).
Proof.
  intros Hrd. split.
  - intros Hne. unfold utfLong. unfold bind at 1.
    rewrite (readUInt32_four_bytes s h1 h2 h3 h4 rest Hrd).
    destruct (Z.eqb_spec (BigEndian [h1; h2; h3; h4]) 0) as [E | _]; [contradiction |].
    reflexivity.
  - intros Hz b1 b2 b3 b4 bs rest' -> Hlen Hmx. unfold utfLong. unfold bind at 1.
    rewrite (readUInt32_four_bytes s h1 h2 h3 h4 _ Hrd), Hz. cbn [Z.eqb negb].
    unfold bind at 1.
    rewrite (readUInt32_four_bytes
               (set_rd (b1 :: b2 :: b3 :: b4 :: bs ++ rest') s)
               b1 b2 b3 b4 (bs ++ rest') eq_refl).
    rewrite <- Hlen. unfold bind.
    rewrite (readString_exact mx false
               (set_rd (bs ++ rest')
                  (set_rd (b1 :: b2 :: b3 :: b4 :: bs ++ rest') s))
               bs rest' eq_refl Hmx).
    reflexivity.
Qed.

Lemma utfLong_reads_the_lower_half_witness :
  (BigEndian [x00; x00; x00; x00] <> 0 ->
   utfLong 12 (NewSerializedObjectParser
                 [x00; x00; x00; x00; x00; x00; x00; x02; x41; x42; x70])
   = Done ((""%string,
            Some (errors_New "unable to read string larger than 2^32 bytes")),
           set_rd [x00; x00; x00; x02; x41; x42; x70]
             (NewSerializedObjectParser
                [x00; x00; x00; x00; x00; x00; x00; x02; x41; x42; x70])))
  /\ (BigEndian [x00; x00; x00; x00] = 0 ->
      forall b1 b2 b3 b4 bs rest',
        [x00; x00; x00; x02; x41; x42; x70] = b1 :: b2 :: b3 :: b4 :: bs ++ rest' ->
        Z.of_nat (length bs) = BigEndian [b1; b2; b3; b4] ->
        Z.of_nat (length bs) <= 12 ->
        utfLong 12 (NewSerializedObjectParser
                      [x00; x00; x00; x00; x00; x00; x00; x02; x41; x42; x70])
        = Done ((string_of_list_byte bs, None),
                set_rd rest'
                  (NewSerializedObjectParser
                     [x00; x00; x00; x00; x00; x00; x00; x02; x41; x42; x70]))).
Proof.
  apply (utfLong_reads_the_lower_half 12
           (NewSerializedObjectParser
              [x00; x00; x00; x00; x00; x00; x00; x02; x41; x42; x70])
           x00 x00 x00 x00).
  reflexivity.
Defined.

Lemma values_loop_keys (fuel : nat) (fs : list (option field)) :
  forall (vals0 : gmap string Value) (s s' : SerializedObjectParser)
         (vals : option (gmap string Value)),
    values_loop fuel fs vals0 s = Done ((vals, None), s') ->
    exists m, vals = Some m
      /\ forall k, is_Some (m !! k)
                   <-> is_Some (vals0 !! k)
                       \/ exists f, In (Some f) fs /\ f_name f = k.
Proof.
  induction fs as [| [f |] fs IH]; intros vals0 s s' vals; cbn [values_loop].
  - intros H. injection H as <- <-. exists vals0. split; [reflexivity |].
    intros k. split; [auto |]. intros [H | (f & [] & _)]. exact H.
  - destruct (primitiveHandlers fuel (f_typeName f)) as [handler |]; [| discriminate].
    unfold bind.
    destruct (handler s) as [[[v e] s1] | |]; try discriminate.
    cbn [fst snd]. destruct e as [e |]; [discriminate |].
    intros H. destruct (IH _ _ _ _ H) as (m & -> & Hm).
    exists m. split; [reflexivity |]. intros k. rewrite Hm. split.
    + intros [Hk | (g & Hg & Hn)].
      * destruct (String.eqb_spec (f_name f) k) as [E | N].
        -- right. exists f. split; [left; reflexivity | exact E].
        -- left. rewrite lookup_insert_ne in Hk by exact N. exact Hk.
      * right. exists g. split; [right; exact Hg | exact Hn].
    + intros [Hk | (g & [Hg | Hg] & Hn)].
      * left. destruct (String.eqb_spec (f_name f) k) as [E | N].
        -- rewrite E, lookup_insert_eq. eauto.
        -- rewrite lookup_insert_ne by exact N. exact Hk.
      * injection Hg as <-. left. rewrite Hn, lookup_insert_eq. eauto.
      * right. exists g. split; [exact Hg | exact Hn].
  - intros H. destruct (IH _ _ _ _ H) as (m & -> & Hm).
    exists m. split; [reflexivity |]. intros k. rewrite Hm. split.
    + intros [Hk | (g & Hg & Hn)]; [left; exact Hk |].
      right. exists g. split; [right; exact Hg | exact Hn].
    + intros [Hk | (g & [Hg | Hg] & Hn)]; [left; exact Hk | discriminate |].
      right. exists g. split; [exact Hg | exact Hn].
Qed.

(** [values] binds the names of the class's fields and nothing else.
    Whenever it returns without an error, the map it hands back has an
    entry for a name exactly when the class has a field of that name
    (the nil entries of the field list are skipped). *)
Theorem values_binds_the_field_names (fuel : nat) (cls : clazz)
  (s s' : SerializedObjectParser) (vals : option (gmap string Value)) :
  values fuel cls s = Done ((vals, None), s') ->
  exists m, vals = Some m
    /\ forall k, is_Some (m !! k)
                 <-> exists f, In (Some f) (c_fields cls) /\ f_name f = k.
Proof.
  intros H. destruct (values_loop_keys fuel _ _ _ _ _ H) as (m & -> & Hm).
  exists m. split; [reflexivity |]. intros k. rewrite Hm. split.
  - intros [Hk | Hk]; [| exact Hk]. rewrite lookup_empty in Hk.
    destruct Hk as [x Hx]. discriminate.
  - intros Hk. right. exact Hk.
Qed.

(** A class with an [int] and a [boolean] field. *)
Lemma values_binds_the_field_names_witness :
  exists m : gmap string Value,
    Some (<["b"%string := VBool true]> (<["n"%string := VInt32 7]> ∅)) = Some m
    /\ forall k, is_Some (m !! k)
                 <-> exists f,
                       In (Some f)
                          (c_fields (mkClazz None []
                                       [Some (mkField "" "I" "n"); None;
                                        Some (mkField "" "Z" "b")]
                                       "01" "A" x02 false))
                       /\ f_name f = k.
Proof.
  apply (values_binds_the_field_names 3
           (mkClazz None [] [Some (mkField "" "I" "n"); None;
                             Some (mkField "" "Z" "b")] "01" "A" x02 false)
           (NewSerializedObjectParser [x00; x00; x00; x07; x01])
           (NewSerializedObjectParser [])).
  vm_compute. reflexivity.
Defined.

(** ** The JSON-friendly view *)

Lemma value_size_lookup (m : gmap string Value) (k : string) (v : Value) :
  m !! k = Some v -> (value_size v < value_size (VMap m))%nat.
Proof.
  intros H. cbn [value_size]. apply Nat.lt_succ_r.
  rewrite <- (insert_delete_id m k v H).
  rewrite map_fold_insert_L.
  - lia.
  - intros. lia.
  - apply lookup_delete_eq.
Qed.

Lemma value_size_In (l : list Value) (v : Value) :
  In v l -> (value_size v < value_size (VList l))%nat.
Proof.
  cbn [value_size]. induction l as [| x l IH]; intros Hin; [destruct Hin |].
  cbn [fold_right]. destruct Hin as [-> | Hin]; [lia |].
  specialize (IH Hin). lia.
Qed.

(** Induction over nested values. *)
Lemma Value_size_ind (P : Value -> Prop) :
  (forall v, (forall x, (value_size x < value_size v)%nat -> P x) -> P v) ->
  forall v, P v.
Proof.
  intros Hstep v.
  assert (H : forall n x, (value_size x < n)%nat -> P x).
  { induction n as [| n IH]; intros x Hx; [lia |].
    apply Hstep. intros y Hy. apply IH. lia. }
  exact (H (S (value_size v)) v (Nat.lt_succ_diag_r _)).
Qed.

Lemma jsonFriendlyObject_map (m : gmap string Value) :
  jsonFriendlyObject (VMap m)
  = match jsonFriendlyMap m !! "value"%string with
    | Some mVal =>
        if bool_decide (is_Some (jsonFriendlyMap m !! "@"%string))
           || bool_decide (base.size (jsonFriendlyMap m) = 1%nat)
        then mVal
        else VMap (jsonFriendlyMap m)
    | None => VMap (jsonFriendlyMap m)
    end.
Proof. reflexivity. Qed.

Lemma jsonFriendlyObject_list (l : list Value) :
  jsonFriendlyObject (VList l) = VList (jsonFriendlyArray l).
Proof. reflexivity. Qed.

Lemma jsonFriendlyMap_lookup (m : gmap string Value) (k : string) :
  jsonFriendlyMap m !! k
  = if String.eqb k "extends" then None
    else match m !! k with
         | Some v => if is_clazz v then None else Some (jsonFriendlyObject v)
         | None => None
         end.
Proof.
  unfold jsonFriendlyMap. destruct (String.eqb_spec k "extends") as [-> | Hne].
  - apply lookup_delete_eq.
  - rewrite lookup_delete_ne by congruence. rewrite lookup_omap.
    destruct (m !! k); reflexivity.
Qed.

Lemma jsonFriendlyMap_lookup_Some (m : gmap string Value) (k : string) (y : Value) :
  jsonFriendlyMap m !! k = Some y ->
  exists v, m !! k = Some v /\ is_clazz v = false /\ y = jsonFriendlyObject v
            /\ k <> "extends"%string.
Proof.
  rewrite jsonFriendlyMap_lookup.
  destruct (String.eqb_spec k "extends") as [-> | Hne]; [discriminate |].
  destruct (m !! k) as [v |]; [| discriminate].
  destruct (is_clazz v) eqn:Hc; [discriminate |].
  intros H. injection H as <-. exists v. auto.
Qed.

(** A value that is no class definition is none after formatting. *)
Lemma jsonFriendlyObject_not_clazz (v : Value) :
  is_clazz v = false -> is_clazz (jsonFriendlyObject v) = false.
Proof.
  induction v as [v IH] using Value_size_ind. intros Hv.
  destruct v; try exact Hv; try reflexivity.
  rewrite jsonFriendlyObject_map.
  destruct (jsonFriendlyMap m !! "value"%string) as [mVal |] eqn:Hval; [| reflexivity].
  destruct (_ || _); [| reflexivity].
  destruct (jsonFriendlyMap_lookup_Some m _ _ Hval) as (x & Hx & Hc & -> & _).
  apply IH; [exact (value_size_lookup m _ x Hx) | exact Hc].
Qed.

(** [jsonFriendlyMap] filters what it says.  The result has no key
    "extends" and none of its values is a class definition; every other
    entry of the input is there, formatted. *)
Theorem jsonFriendlyMap_filters (mapObj : gmap string Value) :
  jsonFriendlyMap mapObj !! "extends"%string = None
  /\ map_Forall (fun _ v => is_clazz v = false) (jsonFriendlyMap mapObj)
  /\ map_Forall (fun k v =>
                   k = "extends"%string \/ is_clazz v = true
                   \/ jsonFriendlyMap mapObj !! k = Some (jsonFriendlyObject v))
                mapObj.
Proof.
  split; [rewrite jsonFriendlyMap_lookup; reflexivity |]. split.
  - intros k y Hy.
    destruct (jsonFriendlyMap_lookup_Some mapObj k y Hy) as (v & _ & Hc & -> & _).
    exact (jsonFriendlyObject_not_clazz v Hc).
  - intros k v Hv. rewrite jsonFriendlyMap_lookup, Hv.
    destruct (String.eqb_spec k "extends") as [-> | Hne]; [auto |].
    destruct (is_clazz v); auto.
Qed.

Lemma jsonFriendlyMap_fixed (m : gmap string Value) :
  (forall k v, m !! k = Some v -> is_clazz v = false ->
               jsonFriendlyObject (jsonFriendlyObject v) = jsonFriendlyObject v) ->
  jsonFriendlyMap (jsonFriendlyMap m) = jsonFriendlyMap m.
Proof.
  intros IH. apply map_eq. intros k.
  rewrite (jsonFriendlyMap_lookup (jsonFriendlyMap m) k).
  destruct (String.eqb k "extends") eqn:Hk.
  - rewrite jsonFriendlyMap_lookup, Hk. reflexivity.
  - destruct (jsonFriendlyMap m !! k) as [y |] eqn:Hy; [| reflexivity].
    destruct (jsonFriendlyMap_lookup_Some m k y Hy) as (v & Hv & Hc & -> & _).
    rewrite (jsonFriendlyObject_not_clazz v Hc), (IH k v Hv Hc). reflexivity.
Qed.

(** Formatting twice is formatting once: [jsonFriendlyObject] is
    idempotent on every value, through nested maps and arrays and through
    the promotion of a "value" entry. *)
Theorem jsonFriendlyObject_idempotent (obj : Value) :
  jsonFriendlyObject (jsonFriendlyObject obj) = jsonFriendlyObject obj.
Proof.
  induction obj as [v IH] using Value_size_ind.
  destruct v; try reflexivity.
  - rewrite !jsonFriendlyObject_list.
    f_equal. unfold jsonFriendlyArray. rewrite map_map. apply map_ext_in.
    intros x Hx. apply IH. exact (value_size_In l x Hx).
  - assert (Hfix : jsonFriendlyMap (jsonFriendlyMap m) = jsonFriendlyMap m).
    { apply jsonFriendlyMap_fixed. intros k x Hx _. apply IH.
      exact (value_size_lookup m k x Hx). }
    rewrite jsonFriendlyObject_map.
    destruct (jsonFriendlyMap m !! "value"%string) as [mVal |] eqn:Hval.
    + destruct (_ || _) eqn:Hp.
      * destruct (jsonFriendlyMap_lookup_Some m _ _ Hval) as (x & Hx & _ & -> & _).
        apply IH. exact (value_size_lookup m _ x Hx).
      * rewrite jsonFriendlyObject_map, Hfix, Hval, Hp. reflexivity.
    + rewrite jsonFriendlyObject_map, Hfix, Hval. reflexivity.
Qed.

(** The promotion of a post-processed value.  An object map with the
    entries "value" and "@" (the raw annotations), neither a class
    definition, is replaced by its formatted "value"; the other fields are
    dropped with the map. *)
Theorem jsonFriendlyObject_promotes_value (m : gmap string Value)
  (v raw : Value) :
  m !! "value"%string = Some v -> is_clazz v = false ->
  m !! "@"%string = Some raw -> is_clazz raw = false ->
  jsonFriendlyObject (VMap m) = jsonFriendlyObject v.
Proof.
  intros Hv Hcv Hraw Hcraw.
  assert (Hval : jsonFriendlyMap m !! "value"%string = Some (jsonFriendlyObject v))
    by (rewrite jsonFriendlyMap_lookup, Hv, Hcv; reflexivity).
  assert (Hat : jsonFriendlyMap m !! "@"%string = Some (jsonFriendlyObject raw))
    by (rewrite jsonFriendlyMap_lookup, Hraw, Hcraw; reflexivity).
  rewrite jsonFriendlyObject_map, Hval, Hat.
  rewrite bool_decide_eq_true_2 by eauto. reflexivity.
Qed.

Lemma jsonFriendlyObject_promotes_value_witness :
  jsonFriendlyObject
    (VMap (<["value"%string := VList [VString "a"]]>
             (<["@"%string := VList [VBytes [x00]; VString "a"]]>
                (<["size"%string := VInt32 1]> ∅))))
  = jsonFriendlyObject (VList [VString "a"]).
Proof.
  apply (jsonFriendlyObject_promotes_value _ (VList [VString "a"])
           (VList [VBytes [x00]; VString "a"])); reflexivity.
Defined.

(** ** The post-processors *)

Lemma slice_one (data : list Value) (size : Z) :
  Z.of_nat (length data) = size + 1 ->
  slice data 1 size = removelast (tl data).
Proof.
  intros Hlen. unfold slice. change (Z.to_nat 1) with 1%nat.
  destruct data as [| x l]; [rewrite skipn_nil, firstn_nil; reflexivity |].
  cbn [tl]. rewrite skipn_cons, skipn_O.
  cbn [length] in Hlen. rewrite removelast_firstn_len.
  f_equal. lia.
Qed.

(** [listPostProc] on all inputs.  When the first element gives the size
    and exactly [size] elements follow it, the value is the list of the
    elements after the first without the last of them (the Go slice
    [data[1:size]]), and the other fields are left as they are. *)
Theorem listPostProc_value (fields : gmap string Value) (data : list Value)
  (size : Z) :
  postProcSize data 0 = (size, None) ->
  Z.of_nat (length data) = size + 1 ->
  listPostProc fields data
  = (Some (<["value"%string := VList (removelast (tl data))]> fields), None).
Proof.
  intros Hsz Hlen. unfold listPostProc. rewrite Hsz.
  destruct (Z.eqb_spec (Z.of_nat (length data)) (size + 1)) as [_ | N]; [| lia].
  cbn [negb]. destruct (Z.gtb_spec size 1) as [Hgt | Hle].
  - rewrite (slice_one data size Hlen). reflexivity.
  - destruct data as [| x [| y [| z l]]]; try reflexivity.
    cbn [length] in Hlen. lia.
Qed.

Lemma listPostProc_value_witness :
  listPostProc (<["size"%string := VInt32 3]> ∅)
    [VBytes [x00; x00; x00; x03]; VString "a"; VString "b"; VString "c"]
  = (Some (<["value"%string :=
              VList (removelast (tl [VBytes [x00; x00; x00; x03];
                                     VString "a"; VString "b"; VString "c"]))]>
             (<["size"%string := VInt32 3]> ∅)), None).
Proof.
  apply (listPostProc_value _ _ 3); reflexivity.
Defined.

Lemma In_VString_dec (l : list Value) (k : string) :
  In (VString k) l \/ ~ In (VString k) l.
Proof.
  induction l as [| x l [IH | IH]]; [right; intros [] | left; right; exact IH |].
  destruct x; try (right; intros [Hx | Hx]; [discriminate | exact (IH Hx)]).
  destruct (String.eqb_spec s k) as [-> | Hne]; [left; left; reflexivity |].
  right. intros [Hx | Hx]; [congruence | exact (IH Hx)].
Qed.

Lemma string_set_fold (l : list Value) (k : string) :
  forall m0 : gmap string bool,
    (In (VString k) l ->
     fold_left (fun (m : gmap string bool) key =>
                  match key with
                  | VString s => <[s := true]> m
                  | _ => m
                  end) l m0 !! k = Some true)
    /\ (~ In (VString k) l ->
        fold_left (fun (m : gmap string bool) key =>
                     match key with
                     | VString s => <[s := true]> m
                     | _ => m
                     end) l m0 !! k = m0 !! k).
Proof.
  induction l as [| x l IH]; intros m0; cbn [fold_left].
  - split; [intros [] | reflexivity].
  - split.
    + intros Hin. destruct (In_VString_dec l k) as [Hl | Hl].
      * apply IH. exact Hl.
      * destruct Hin as [-> | Hin]; [| contradiction].
        rewrite (proj2 (IH _) Hl). apply lookup_insert_eq.
    + intros Hnot. rewrite (proj2 (IH _)) by (intros H; apply Hnot; right; exact H).
      destruct x; try reflexivity.
      apply lookup_insert_ne. intros ->. apply Hnot. left. reflexivity.
Qed.

(** [hashSetPostProc] on all inputs.  When the first element gives the
    size (read at offset 8) and exactly [size] elements follow it, the
    value is a set that holds a string exactly when it is one of the
    elements after the first and before the last: the last element is not
    looked at, and elements that are no strings are skipped. *)
Theorem hashSetPostProc_value (fields : gmap string Value) (data : list Value)
  (size : Z) :
  postProcSize data 8 = (size, None) ->
  Z.of_nat (length data) = size + 1 ->
  exists m : gmap string bool,
    hashSetPostProc fields data
    = (Some (<["value"%string := VBoolMap m]> fields), None)
    /\ forall k,
         (In (VString k) (removelast (tl data)) -> m !! k = Some true)
         /\ (~ In (VString k) (removelast (tl data)) -> m !! k = None).
Proof.
  intros Hsz Hlen. unfold hashSetPostProc. rewrite Hsz.
  destruct (Z.eqb_spec (Z.of_nat (length data)) (size + 1)) as [_ | N]; [| lia].
  cbn [negb]. eexists. split; [reflexivity |]. intros k.
  destruct (Z.gtb_spec size 1) as [Hgt | Hle].
  - rewrite (slice_one data size Hlen).
    destruct (string_set_fold (removelast (tl data)) k ∅) as [H1 H2].
    split; [exact H1 |]. intros Hnot. rewrite (H2 Hnot). apply lookup_empty.
  - destruct data as [| x [| y [| z l]]];
      try (cbn [length] in Hlen; lia);
      cbn [tl removelast]; (split; [intros [] | intros _; apply lookup_empty]).
Qed.

Lemma hashSetPostProc_value_witness :
  exists m : gmap string bool,
    hashSetPostProc ∅
      [VBytes [x00; x00; x00; x10; x3f; x40; x00; x00; x00; x00; x00; x02];
       VString "a"; VString "b"]
    = (Some (<["value"%string := VBoolMap m]> ∅), None)
    /\ forall k,
         (In (VString k)
             (removelast
                (tl [VBytes [x00; x00; x00; x10; x3f; x40; x00; x00;
                             x00; x00; x00; x02];
                     VString "a"; VString "b"])) -> m !! k = Some true)
         /\ (~ In (VString k)
                (removelast
                   (tl [VBytes [x00; x00; x00; x10; x3f; x40; x00; x00;
                                x00; x00; x00; x02];
                        VString "a"; VString "b"])) -> m !! k = None).
Proof.
  apply (hashSetPostProc_value _ _ 2); reflexivity.
Defined.

Lemma pairs_fold_S {B : Type} (data : list Value) (n : nat)
  (step : Value -> Value -> B -> B) (init : B) :
  fold_left
    (fun m i => step (nth (2 * i + 1) data VNil) (nth (2 * i + 2) data VNil) m)
    (seq 0 (S n)) init
  = step (nth (2 * n + 1) data VNil) (nth (2 * n + 2) data VNil)
      (fold_left
         (fun m i => step (nth (2 * i + 1) data VNil) (nth (2 * i + 2) data VNil) m)
         (seq 0 n) init).
Proof. rewrite seq_S, fold_left_app. reflexivity. Qed.

(** The map built from the pairs: the entry of a key is the value of the
    last pair with that key. *)
Lemma string_map_fold (data : list Value) (k : string) (v : Value) (n : nat) :
  fold_left
    (fun (m : gmap string Value) i =>
       match nth (2 * i + 1) data VNil with
       | VString s => <[s := nth (2 * i + 2) data VNil]> m
       | _ => m
       end) (seq 0 n) ∅ !! k = Some v
  <-> exists i, (i < n)%nat
        /\ nth (2 * i + 1) data VNil = VString k
        /\ nth (2 * i + 2) data VNil = v
        /\ forall j, (i < j < n)%nat -> nth (2 * j + 1) data VNil <> VString k.
Proof.
  induction n as [| n IH].
  - cbn [seq fold_left]. rewrite lookup_empty. split; [discriminate |].
    intros (i & Hi & _). lia.
  - rewrite seq_S, fold_left_app. cbn [fold_left Nat.add].
    assert (Hold :
      (exists i, (i < n)%nat
         /\ nth (2 * i + 1) data VNil = VString k
         /\ nth (2 * i + 2) data VNil = v
         /\ forall j, (i < j < n)%nat -> nth (2 * j + 1) data VNil <> VString k)
      -> nth (2 * n + 1) data VNil <> VString k
      -> exists i, (i < S n)%nat
           /\ nth (2 * i + 1) data VNil = VString k
           /\ nth (2 * i + 2) data VNil = v
           /\ forall j, (i < j < S n)%nat -> nth (2 * j + 1) data VNil <> VString k).
    { intros (i & Hi & Hk & Hv & Hlast) Hn. exists i.
      repeat split; try assumption; [lia |].
      intros j Hj. destruct (Nat.eq_dec j n) as [-> | Hne]; [exact Hn |].
      apply Hlast. lia. }
    assert (Hnew :
      (exists i, (i < S n)%nat
         /\ nth (2 * i + 1) data VNil = VString k
         /\ nth (2 * i + 2) data VNil = v
         /\ forall j, (i < j < S n)%nat -> nth (2 * j + 1) data VNil <> VString k)
      -> nth (2 * n + 1) data VNil <> VString k
      -> exists i, (i < n)%nat
           /\ nth (2 * i + 1) data VNil = VString k
           /\ nth (2 * i + 2) data VNil = v
           /\ forall j, (i < j < n)%nat -> nth (2 * j + 1) data VNil <> VString k).
    { intros (i & Hi & Hk & Hv & Hlast) Hn.
      destruct (Nat.eq_dec i n) as [-> | Hne]; [contradiction |].
      exists i. repeat split; try assumption; [lia |].
      intros j Hj. apply Hlast. lia. }
    destruct (nth (2 * n + 1) data VNil) eqn:Hkey;
      try (rewrite IH; split; intros H;
           [apply Hold | apply Hnew]; (exact H || discriminate)).
    destruct (String.eqb_spec s k) as [-> | Hne].
    + rewrite lookup_insert_eq. split.
      * intros H. injection H as <-. exists n.
        repeat split; try assumption; [lia |]. intros j Hj. lia.
      * intros (i & Hi & Hk & Hv & Hlast).
        destruct (Nat.eq_dec i n) as [-> | Hne]; [congruence |].
        exfalso. apply (Hlast n); [lia | exact Hkey].
    + rewrite lookup_insert_ne by exact Hne. rewrite IH. split; intros H;
        [apply Hold | apply Hnew]; try exact H; congruence.
Qed.

(** [mapPostProc] on all inputs.  When the first element gives the size
    (read at offset 4) and at least [size] pairs follow it, the value is a
    map in which a string key has the value of the last of the [size]
    pairs that has this key; pairs whose key is no string are skipped,
    elements after the pairs are not looked at, and the other fields are
    left as they are. *)
Theorem mapPostProc_value (fields : gmap string Value) (data : list Value)
  (size : Z) :
  postProcSize data 4 = (size, None) ->
  size * 2 + 1 <= Z.of_nat (length data) ->
  exists m : gmap string Value,
    mapPostProc fields data = (Some (<["value"%string := VMap m]> fields), None)
    /\ forall k v,
         m !! k = Some v
         <-> exists i, (i < Z.to_nat size)%nat
               /\ nth (2 * i + 1) data VNil = VString k
               /\ nth (2 * i + 2) data VNil = v
               /\ forall j, (i < j < Z.to_nat size)%nat ->
                            nth (2 * j + 1) data VNil <> VString k.
Proof.
  intros Hsz Hlen. unfold mapPostProc. rewrite Hsz.
  destruct (Z.gtb_spec (size * 2 + 1) (Z.of_nat (length data))) as [Hgt | _]; [lia |].
  eexists. split; [reflexivity |]. intros k v. unfold pairs_fold.
  apply string_map_fold.
Qed.

(** A key that is written twice keeps the second value. *)
Lemma mapPostProc_value_witness :
  exists m : gmap string Value,
    mapPostProc ∅
      [VBytes [x00; x00; x00; x10; x00; x00; x00; x02];
       VString "k"; VInt32 1; VString "k"; VInt32 2]
    = (Some (<["value"%string := VMap m]> ∅), None)
    /\ forall k v,
         m !! k = Some v
         <-> exists i, (i < Z.to_nat 2)%nat
               /\ nth (2 * i + 1)
                    [VBytes [x00; x00; x00; x10; x00; x00; x00; x02];
                     VString "k"; VInt32 1; VString "k"; VInt32 2] VNil
                  = VString k
               /\ nth (2 * i + 2)
                    [VBytes [x00; x00; x00; x10; x00; x00; x00; x02];
                     VString "k"; VInt32 1; VString "k"; VInt32 2] VNil
                  = v
               /\ forall j, (i < j < Z.to_nat 2)%nat ->
                    nth (2 * j + 1)
                      [VBytes [x00; x00; x00; x10; x00; x00; x00; x02];
                       VString "k"; VInt32 1; VString "k"; VInt32 2] VNil
                    <> VString k.
Proof.
  apply (mapPostProc_value _ _ 2); [reflexivity | vm_compute; discriminate].
Defined.

(** Every known post-processor wants a byte block first.  When the data
    are empty or begin with anything but a byte block, each of the
    post-processors of [KnownPostProcs] answers an error and no map. *)
Theorem KnownPostProcs_want_a_byte_block (key : string) (pp : PostProc)
  (fields : gmap string Value) (data : list Value) :
  KnownPostProcs key = Some pp ->
  (forall b, head data <> Some (VBytes b)) ->
  exists e, pp fields data = (None, Some e).
Proof.
  intros Hpp Hhead.
  assert (Hsz : forall off, exists e, postProcSize data off = (0, Some e)).
  { intros off. unfold postProcSize. destruct data as [| x l]; [eauto |].
    destruct x; eauto. exfalso. eapply Hhead. reflexivity. }
  unfold KnownPostProcs in Hpp.
  repeat match type of Hpp with
         | (if ?c then _ else _) = _ => destruct c
         end;
    try discriminate; injection Hpp as <-.
  - destruct (Hsz 0) as [e He]. exists e. unfold listPostProc. rewrite He. reflexivity.
  - destruct (Hsz 0) as [e He]. exists e. unfold listPostProc. rewrite He. reflexivity.
  - destruct (Hsz 4) as [e He]. exists e. unfold mapPostProc. rewrite He. reflexivity.
  - destruct (Hsz 4) as [e He]. exists e. unfold mapPostProc. rewrite He. reflexivity.
  - destruct (Hsz 0) as [e He]. exists e. unfold enumMapPostProc. rewrite He. reflexivity.
  - destruct (Hsz 8) as [e He]. exists e. unfold hashSetPostProc. rewrite He. reflexivity.
  - unfold datePostProc. destruct data as [| x l]; [eauto |].
    destruct x; eauto. exfalso. eapply Hhead. reflexivity.
Qed.

Lemma KnownPostProcs_want_a_byte_block_witness :
  exists e, datePostProc ∅ [VString "a"] = (None, Some e).
Proof.
  apply (KnownPostProcs_want_a_byte_block "java.util.Date@686a81014b597419").
  - reflexivity.
  - intros b. discriminate.
Defined.

(** ** The indentation of the trace *)

Lemma indents_ret {A : Type} (a : A) (i : string) : indents i (ret a) i.
Proof. intros s Hs. exact Hs. Qed.

Lemma indents_bind {A B : Type} (m : M A) (k : A -> M B) (p q r : string) :
  indents p m q -> (forall a, indents q (k a) r) -> indents p (bind m k) r.
Proof.
  intros Hm Hk s Hs. unfold bind. specialize (Hm s Hs).
  destruct (m s) as [[a s'] | msg |]; [| exact Hm | exact I].
  exact (Hk a s' Hm).
Qed.

Lemma indents_panic {A : Type} (msg : string) (p q : string) :
  String.eqb msg indentation_panic = false -> indents p (@panic A msg) q.
Proof. intros Hmsg s _. apply String.eqb_neq. exact Hmsg. Qed.

Lemma indents_out_of_fuel {A : Type} (p q : string) : indents p (@out_of_fuel A) q.
Proof. intros s _. exact I. Qed.

Lemma indents_lift {A : Type} (o : Outcome A) (i : string) :
  panics_elsewhere o -> indents i (lift o) i.
Proof.
  intros Ho s Hs. unfold lift. destruct o; [exact Hs | exact Ho | exact I].
Qed.

Lemma update_last_elsewhere {A : Type} (f : A -> Outcome A) (l : list A) :
  (forall x, panics_elsewhere (f x)) -> panics_elsewhere (update_last f l).
Proof.
  intros Hf. unfold update_last. destruct (rev l) as [| x r].
  - apply String.eqb_neq. reflexivity.
  - specialize (Hf x). destruct (f x); [exact I | exact Hf | exact I].
Qed.

Lemma on_last_class_elsewhere (f : ClassDetails -> Outcome ClassDetails)
  (cdd : ClassDataDesc) :
  (forall x, panics_elsewhere (f x)) -> panics_elsewhere (on_last_class f cdd).
Proof.
  intros Hf. unfold on_last_class.
  pose proof (update_last_elsewhere f (_classDetails cdd) Hf) as H.
  destruct (update_last f (_classDetails cdd)); [exact I | exact H | exact I].
Qed.

Lemma setLastClassHandle_elsewhere (h : Z) (cdd : ClassDataDesc) :
  panics_elsewhere (setLastClassHandle h cdd).
Proof. apply on_last_class_elsewhere. intros x. exact I. Qed.

Lemma setLastClassDescFlags_elsewhere (b : byte) (cdd : ClassDataDesc) :
  panics_elsewhere (setLastClassDescFlags b cdd).
Proof. apply on_last_class_elsewhere. intros x. exact I. Qed.

Lemma addFieldToLastClass_elsewhere (b : byte) (cdd : ClassDataDesc) :
  panics_elsewhere (addFieldToLastClass b cdd).
Proof. apply on_last_class_elsewhere. intros x. exact I. Qed.

Lemma setLastFieldName_elsewhere (name : string) (cdd : ClassDataDesc) :
  panics_elsewhere (setLastFieldName name cdd).
Proof.
  apply on_last_class_elsewhere. intros x. unfold setLastFieldName_cd.
  pose proof (update_last_elsewhere (fun cf => Done (setName name cf))
                (_fieldDescriptions x) (fun _ => I)) as H.
  destruct (update_last _ _); [exact I | exact H | exact I].
Qed.

Lemma setLastFieldClassName1_elsewhere (cn1 : string) (cdd : ClassDataDesc) :
  panics_elsewhere (setLastFieldClassName1 cn1 cdd).
Proof.
  apply on_last_class_elsewhere. intros x. unfold setLastFieldClassName1_cd.
  pose proof (update_last_elsewhere (fun cf => Done (setClassName1 cn1 cf))
                (_fieldDescriptions x) (fun _ => I)) as H.
  destruct (update_last _ _); [exact I | exact H | exact I].
Qed.

Lemma getClassDetails_elsewhere (index : Z) (cdd : ClassDataDesc) :
  panics_elsewhere (getClassDetails index cdd).
Proof.
  unfold getClassDetails. destruct (_ >=? _); [exact I |].
  destruct (_ <? _); [| exact I]. apply String.eqb_neq. reflexivity.
Qed.

Lemma scan_classes_elsewhere (n : nat) (cdd : ClassDataDesc) (refHandle : Z) :
  forall classIndex, panics_elsewhere (scan_classes n classIndex cdd refHandle).
Proof.
  induction n as [| n IH]; intros classIndex; cbn [scan_classes]; [exact I |].
  pose proof (getClassDetails_elsewhere (classIndex + 1) cdd) as H.
  destruct (getClassDetails (classIndex + 1) cdd) as [[cd |] | msg |];
    [| apply String.eqb_neq; reflexivity | exact H | exact I].
  destruct (_ =? _); [exact I | apply IH].
Qed.

Lemma scan_descriptions_elsewhere (cdds : list ClassDataDesc) (refHandle : Z) :
  panics_elsewhere (scan_descriptions cdds refHandle).
Proof.
  induction cdds as [| cdd rest IH]; cbn [scan_descriptions]; [exact I |].
  pose proof (scan_classes_elsewhere (Z.to_nat (getClassCount cdd)) cdd refHandle 0)
    as H.
  destruct (scan_classes _ 0 cdd refHandle) as [[x |] | msg |];
    [exact I | exact IH | exact H | exact I].
Qed.

Lemma first_byte_elsewhere (name : string) : panics_elsewhere (first_byte name).
Proof.
  destruct name; [apply String.eqb_neq; reflexivity | exact I].
Qed.

Lemma indents_get_state (i : string) : indents i get_state i.
Proof. intros s Hs. exact Hs. Qed.

Lemma indents_increaseIndent (i : string) :
  indents i increaseIndent (i ++ "  ")%string.
Proof. intros s Hs. cbn. rewrite Hs. reflexivity. Qed.

Lemma substring_append (i x : string) :
  substring 0 (String.length i) (i ++ x) = i.
Proof.
  induction i as [| a i IH].
  - destruct x; reflexivity.
  - change (String.length (String a i)) with (S (String.length i)).
    change (String a i ++ x)%string with (String a (i ++ x)).
    cbn [substring]. rewrite IH. reflexivity.
Qed.

Lemma length_append (i x : string) :
  String.length (i ++ x) = (String.length i + String.length x)%nat.
Proof.
  induction i as [| a i IH]; [reflexivity |].
  change (String a i ++ x)%string with (String a (i ++ x)).
  cbn [String.length]. rewrite IH. reflexivity.
Qed.

(** After an [increaseIndent] the guard of [decreaseIndent] holds. *)
Lemma indents_decreaseIndent (i : string) :
  indents (i ++ "  ")%string decreaseIndent i.
Proof.
  intros s Hs. unfold decreaseIndent. rewrite Hs, length_append.
  cbn [String.length].
  destruct (Nat.ltb_spec (String.length i + 2) 2) as [Hlt | _]; [lia |].
  cbn [_indent set_indent].
  replace (String.length i + 2 - 2)%nat with (String.length i) by lia.
  apply substring_append.
Qed.

Lemma indents_newHandle1 (i : string) : indents i newHandle1 i.
Proof. intros s Hs. exact Hs. Qed.

Lemma indents_record_description (cdd : ClassDataDesc) (i : string) :
  indents i (record_description cdd) i.
Proof. intros s Hs. exact Hs. Qed.

Lemma indents_pop (i : string) : indents i pop i.
Proof.
  intros s Hs. destruct (data (_data s)) as [| b d] eqn:Hd.
  - destruct (rd s) as [| b r] eqn:Hrd.
    + rewrite (pop_at_eof s Hrd Hd). exact Hs.
    + rewrite (pop_from_reader s b r Hrd Hd). exact Hs.
  - rewrite (pop_from_lookahead s b d Hd). exact Hs.
Qed.

Lemma indents_peek (i : string) : indents i peek i.
Proof.
  intros s Hs. destruct (data (_data s)) as [| b d] eqn:Hd.
  - destruct (rd s) as [| b r] eqn:Hrd.
    + rewrite (peek_at_eof s Hrd Hd). exact Hs.
    + rewrite (peek_from_reader s b r Hrd Hd). exact Hs.
  - rewrite (peek_from_lookahead s b d Hd). exact Hs.
Qed.

Lemma indents_iterate_n {A : Type} (body : A -> M A) (n : nat) (i : string) :
  (forall a, indents i (body a) i) -> forall a, indents i (iterate_n n body a) i.
Proof.
  intros Hb. induction n as [| n IH]; intros a; cbn [iterate_n].
  - apply indents_ret.
  - eapply indents_bind; [apply Hb | exact IH].
Qed.

Lemma indents_repeat_n (body : M unit) (n : nat) (i : string) :
  indents i body i -> indents i (repeat_n n body) i.
Proof. intros Hb. unfold repeat_n. apply indents_iterate_n. intros _. exact Hb. Qed.

Lemma indents_for_each {A : Type} (body : A -> M unit) (l : list A) (i : string) :
  (forall a, indents i (body a) i) -> indents i (for_each l body) i.
Proof.
  intros Hb. induction l as [| x l IH]; cbn [for_each].
  - apply indents_ret.
  - eapply indents_bind; [apply Hb | intros _; exact IH].
Qed.

Lemma indents_until_ENDBLOCKDATA (body : M (option error)) (n : nat) (i : string) :
  indents i body i -> indents i (until_ENDBLOCKDATA n body) i.
Proof.
  intros Hb. induction n as [| n IH]; cbn [until_ENDBLOCKDATA];
    [apply indents_out_of_fuel |].
  eapply indents_bind; [apply indents_peek | intros x].
  destruct (Byte.eqb x TC_ENDBLOCKDATA); [apply indents_ret |].
  eapply indents_bind; [exact Hb | intros _; exact IH].
Qed.

Lemma balanced_expect (tag : byte) (msg : string) :
  String.eqb msg indentation_panic = false -> balanced (expect tag msg).
Proof.
  intros Hmsg i. unfold expect. eapply indents_bind; [apply indents_pop | intros b].
  destruct (negb _); [apply indents_panic; exact Hmsg | apply indents_ret].
Qed.

Create HintDb indents.

#[local] Hint Resolve indents_ret indents_out_of_fuel indents_get_state
  indents_increaseIndent indents_decreaseIndent indents_newHandle1
  indents_record_description indents_pop indents_peek : indents.

#[local] Hint Resolve setLastClassHandle_elsewhere setLastClassDescFlags_elsewhere
  addFieldToLastClass_elsewhere setLastFieldName_elsewhere
  setLastFieldClassName1_elsewhere getClassDetails_elsewhere
  scan_descriptions_elsewhere first_byte_elsewhere : indents.

(** Walks down a chain of binds and branches, following the indentation
    from the left. *)
Ltac indents_auto :=
  lazymatch goal with
  | |- indents _ (bind _ _) _ =>
      eapply indents_bind; [ indents_auto | intros; cbv zeta; indents_auto ]
  | |- indents _ (if ?c then _ else _) _ => destruct c; indents_auto
  | |- indents _ (panic _) _ => apply indents_panic; reflexivity
  | |- indents _ (expect _ _) _ => apply balanced_expect; reflexivity
  | |- indents _ (lift _) _ => apply indents_lift; solve [eauto 2 with indents]
  | |- indents _ (iterate_n _ _ _) _ =>
      apply indents_iterate_n; intros; indents_auto
  | |- indents _ (repeat_n _ _) _ => apply indents_repeat_n; indents_auto
  | |- indents _ (for_each _ _) _ => apply indents_for_each; intros; indents_auto
  | |- indents _ (until_ENDBLOCKDATA _ _) _ =>
      apply indents_until_ENDBLOCKDATA; indents_auto
  | |- indents _ (match ?x with _ => _ end) _ => destruct x; indents_auto
  | |- indents _ ?m _ =>
      first [ solve [eauto 2 with indents]
            | let H := fresh in
              assert (H : balanced m) by solve [eauto 2 with indents];
              apply H
            | idtac ]
  end.

Lemma balanced_read_chars (n : nat) : balanced (read_chars n).
Proof. intros i. unfold read_chars. cbv zeta. indents_auto. Qed.

#[local] Hint Resolve balanced_read_chars : indents.

Lemma balanced_readUtf : balanced readUtf.
Proof. intros i. unfold readUtf. cbv zeta. indents_auto. Qed.

Lemma balanced_readLongUtf : balanced readLongUtf.
Proof. intros i. unfold readLongUtf. cbv zeta. indents_auto. Qed.

#[local] Hint Resolve balanced_readUtf balanced_readLongUtf : indents.

Lemma balanced_readTC_STRING : balanced readTC_STRING.
Proof. intros i. unfold readTC_STRING. cbv zeta. indents_auto. Qed.

Lemma balanced_readTC_LONGSTRING : balanced readTC_LONGSTRING.
Proof. intros i. unfold readTC_LONGSTRING. cbv zeta. indents_auto. Qed.

Lemma balanced_readPrevObject : balanced readPrevObject.
Proof. intros i. unfold readPrevObject. cbv zeta. indents_auto. Qed.

Lemma balanced_readNullReference : balanced readNullReference.
Proof. intros i. unfold readNullReference. cbv zeta. indents_auto. Qed.

Lemma balanced_readException : balanced readException.
Proof. intros i. unfold readException. cbv zeta. indents_auto. Qed.

Lemma balanced_handleReset : balanced handleReset.
Proof. intros i. unfold handleReset. cbv zeta. indents_auto. Qed.

Lemma balanced_readBlockData : balanced readBlockData.
Proof. intros i. unfold readBlockData. cbv zeta. indents_auto. Qed.

Lemma balanced_readLongBlockData : balanced readLongBlockData.
Proof. intros i. unfold readLongBlockData. cbv zeta. indents_auto. Qed.

#[local] Hint Resolve balanced_readTC_STRING balanced_readTC_LONGSTRING
  balanced_readPrevObject balanced_readNullReference balanced_readException
  balanced_handleReset balanced_readBlockData balanced_readLongBlockData : indents.

Lemma balanced_readNewString : balanced readNewString.
Proof. intros i. unfold readNewString. cbv zeta. indents_auto. Qed.

#[local] Hint Resolve balanced_readNewString : indents.

Lemma balanced_readFieldDesc (cdd : ClassDataDesc) : balanced (readFieldDesc cdd).
Proof. intros i. unfold readFieldDesc. cbv zeta. indents_auto. Qed.

#[local] Hint Resolve balanced_readFieldDesc : indents.

Lemma balanced_readFields (cdd : ClassDataDesc) : balanced (readFields cdd).
Proof. intros i. unfold readFields. cbv zeta. indents_auto. Qed.

Lemma balanced_readByteField : balanced readByteField.
Proof. intros i. unfold readByteField. cbv zeta. indents_auto. Qed.
Lemma balanced_readCharField : balanced readCharField.
Proof. intros i. unfold readCharField. cbv zeta. indents_auto. Qed.
Lemma balanced_readFloatField : balanced readFloatField.
Proof. intros i. unfold readFloatField. cbv zeta. indents_auto. Qed.
Lemma balanced_readIntField : balanced readIntField.
Proof. intros i. unfold readIntField. cbv zeta. indents_auto. Qed.
Lemma balanced_readLongField : balanced readLongField.
Proof. intros i. unfold readLongField. cbv zeta. indents_auto. Qed.
Lemma balanced_readShortField : balanced readShortField.
Proof. intros i. unfold readShortField. cbv zeta. indents_auto. Qed.
Lemma balanced_readBooleanField : balanced readBooleanField.
Proof. intros i. unfold readBooleanField. cbv zeta. indents_auto. Qed.
Lemma balanced_readDoubleField : balanced readDoubleField.
Proof. intros i. unfold readDoubleField. cbv zeta. indents_auto. Qed.

#[local] Hint Resolve balanced_readFields balanced_readByteField
  balanced_readCharField balanced_readFloatField balanced_readIntField
  balanced_readLongField balanced_readShortField balanced_readBooleanField
  balanced_readDoubleField : indents.

Section DescentIndents.

Variable w : Walker.
Hypothesis call_readContentElement_balanced : balanced (call_readContentElement w).
Hypothesis call_readClassDesc_balanced : balanced (call_readClassDesc w).
Hypothesis call_readFieldValue_balanced :
  forall tc, balanced (call_readFieldValue w tc).

#[local] Hint Resolve call_readContentElement_balanced call_readClassDesc_balanced
  call_readFieldValue_balanced : indents.

Lemma balanced_readClassAnnotation : balanced (readClassAnnotation w).
Proof. intros i. unfold readClassAnnotation. cbv zeta. indents_auto. Qed.

Lemma balanced_readSuperClassDesc : balanced (readSuperClassDesc w).
Proof. intros i. unfold readSuperClassDesc. cbv zeta. indents_auto. Qed.

#[local] Hint Resolve balanced_readClassAnnotation balanced_readSuperClassDesc
  : indents.

Lemma balanced_readClassDescInfo (cdd : ClassDataDesc) :
  balanced (readClassDescInfo w cdd).
Proof. intros i. unfold readClassDescInfo. cbv zeta. indents_auto. Qed.

#[local] Hint Resolve balanced_readClassDescInfo : indents.

Lemma balanced_readTC_CLASSDESC : balanced (readTC_CLASSDESC w).
Proof. intros i. unfold readTC_CLASSDESC. cbv zeta. indents_auto. Qed.

Lemma balanced_readProxyClassDescInfo (cdd : ClassDataDesc) :
  balanced (readProxyClassDescInfo w cdd).
Proof. intros i. unfold readProxyClassDescInfo. cbv zeta. indents_auto. Qed.

#[local] Hint Resolve balanced_readTC_CLASSDESC balanced_readProxyClassDescInfo
  : indents.

Lemma balanced_readTC_PROXYCLASSDESC : balanced (readTC_PROXYCLASSDESC w).
Proof. intros i. unfold readTC_PROXYCLASSDESC. cbv zeta. indents_auto. Qed.

#[local] Hint Resolve balanced_readTC_PROXYCLASSDESC : indents.

Lemma balanced_readNewClassDesc : balanced (readNewClassDesc w).
Proof. intros i. unfold readNewClassDesc. cbv zeta. indents_auto. Qed.

#[local] Hint Resolve balanced_readNewClassDesc : indents.

Lemma balanced_readClassDesc : balanced (readClassDesc w).
Proof. intros i. unfold readClassDesc. cbv zeta. indents_auto. Qed.

#[local] Hint Resolve balanced_readClassDesc : indents.

Lemma balanced_readNewEnum : balanced (readNewEnum w).
Proof. intros i. unfold readNewEnum. cbv zeta. indents_auto. Qed.

Lemma balanced_readNewClass : balanced (readNewClass w).
Proof. intros i. unfold readNewClass. cbv zeta. indents_auto. Qed.

Lemma balanced_readNewArray : balanced (readNewArray w).
Proof. intros i. unfold readNewArray. cbv zeta. indents_auto. Qed.

Lemma balanced_readClassDataField (cf : ClassField) :
  balanced (readClassDataField w cf).
Proof. intros i. unfold readClassDataField. cbv zeta. indents_auto. Qed.

#[local] Hint Resolve balanced_readNewEnum balanced_readNewClass
  balanced_readNewArray balanced_readClassDataField : indents.

Lemma balanced_readClassData (cdd : option ClassDataDesc) :
  balanced (readClassData w cdd).
Proof. intros i. unfold readClassData. cbv zeta. indents_auto. Qed.

#[local] Hint Resolve balanced_readClassData : indents.

Lemma balanced_readNewObject : balanced (readNewObject w).
Proof. intros i. unfold readNewObject. cbv zeta. indents_auto. Qed.

#[local] Hint Resolve balanced_readNewObject : indents.

Lemma balanced_readArrayField : balanced (readArrayField w).
Proof. intros i. unfold readArrayField. cbv zeta. indents_auto. Qed.

Lemma balanced_readObjectField : balanced (readObjectField w).
Proof. intros i. unfold readObjectField. cbv zeta. indents_auto. Qed.

#[local] Hint Resolve balanced_readArrayField balanced_readObjectField : indents.

Lemma balanced_readFieldValue (typeCode : byte) :
  balanced (readFieldValue w typeCode).
Proof. intros i. unfold readFieldValue. destruct typeCode; indents_auto. Qed.

Lemma balanced_readContentElement : balanced (readContentElement w).
Proof. intros i. unfold readContentElement. cbv zeta. indents_auto. Qed.

End DescentIndents.

Lemma walker_is_balanced (fuel : nat) : walker_balanced (walker fuel).
Proof.
  induction fuel as [| fuel IH].
  - repeat split; intros; intros i; apply indents_out_of_fuel.
  - destruct IH as (Hce & Hcd & Hfv). cbn [walker]. repeat split; cbn.
    + apply balanced_readContentElement; assumption.
    + apply balanced_readClassDesc; assumption.
    + intros tc. apply balanced_readFieldValue; assumption.
Qed.

Lemma balanced_parseStream_contents (mx : Z) (walk n : nat) :
  balanced (parseStream_contents mx (walker walk) n).
Proof.
  destruct (walker_is_balanced walk) as (Hce & Hcd & Hfv).
  pose proof (balanced_readContentElement (walker walk) Hce Hcd Hfv) as Hrce.
  intros i. induction n as [| n IH]; cbn [parseStream_contents];
    [apply indents_out_of_fuel |].
  eapply indents_bind; [intros s Hs; exact Hs | intros sz].
  destruct (sz >? 0); [| apply indents_ret].
  eapply indents_bind; [apply Hrce | intros [e |]]; [apply indents_ret | exact IH].
Qed.

(** The walker never trips over its own indentation.  Every method takes
    back the indentation it adds, on every path: a run of [parseStream]
    that returns, from any state, leaves the indentation as it found it,
    and a run that panics does so with another message than the "Illegal
    indentation decrease" of [decreaseIndent]. *)
Theorem parseStream_keeps_the_indentation (mx : Z) (fuel : nat)
  (s : SerializedObjectParser) :
  match parseStream mx fuel s with
  | Done (_, s') => _indent s' = _indent s
  | Panic msg => msg <> "Error: Illegal indentation decrease."%string
  | OutOfFuel => True
  end.
Proof.
  assert (H : balanced (parseStream mx fuel)).
  { intros i. unfold parseStream, parseStream_rmi_byte.
    pose proof (balanced_parseStream_contents mx fuel fuel) as Hc.
    cbv zeta. indents_auto. }
  exact (H (_indent s) s eq_refl).
Qed.
